(** * nestedset: a shallow embedding of the nested-set tree store

    The Go package keeps a flat slice of node handles ([*Node] values behind
    [NodeInterface]) and renumbers their [left]/[right]/[level] fields in
    place.  Handles are shared between the caller and the store, so the
    embedding keeps an explicit heap from addresses to [Node] records and lets
    the store hold addresses.

    ns.go counts identifiers in [int64] and node.go declares every field
    [int64]; the older node file and the tests use [int], which has the same
    64 bits on the platforms Go supports with 64-bit words.  The embedding
    follows ns.go and node.go. *)

From Stdlib Require Import String ZArith List Bool Lia Permutation Sorted.
Import ListNotations.
Local Open Scope Z_scope.

(** ** int64 arithmetic *)

(** Go's [int64] wraps around silently. *)
Definition wrap64 (z : Z) : Z := (z + 2 ^ 63) mod 2 ^ 64 - 2 ^ 63.
Definition add64 (a b : Z) : Z := wrap64 (a + b).
Definition sub64 (a b : Z) : Z := wrap64 (a - b).
Definition max64 : Z := 2 ^ 63 - 1.
Definition min64 : Z := - 2 ^ 63.

(** ** node.go *)

Record Node := mkNode {
  NodeId : Z;
  NodeName : string;
  NodeLevel : Z;
  NodeLeft : Z;
  NodeRight : Z
}.

(** The value behind a pointer returned by [NewNode()]. *)
Definition zeroNode : Node := mkNode 0 EmptyString 0 0 0.

(** Addresses of [Node] values; a non-nil [NodeInterface] is an address. *)
Definition loc := nat.

Definition heap := loc -> Node.

Definition upd (h : heap) (p : loc) (v : Node) : heap :=
  fun q => if Nat.eqb q p then v else h q.

(** [NewNode()]: the allocator hands out the address [p]. *)
Definition NewNode (h : heap) (p : loc) : heap := upd h p zeroNode.

Definition Id (h : heap) (n : loc) : Z := NodeId (h n).
Definition Name (h : heap) (n : loc) : string := NodeName (h n).
Definition Level (h : heap) (n : loc) : Z := NodeLevel (h n).
Definition Left (h : heap) (n : loc) : Z := NodeLeft (h n).
Definition Right (h : heap) (n : loc) : Z := NodeRight (h n).

Definition SetId (h : heap) (n : loc) (id : Z) : heap :=
  upd h n (mkNode id (NodeName (h n)) (NodeLevel (h n)) (NodeLeft (h n)) (NodeRight (h n))).
Definition SetName (h : heap) (n : loc) (name : string) : heap :=
  upd h n (mkNode (NodeId (h n)) name (NodeLevel (h n)) (NodeLeft (h n)) (NodeRight (h n))).
Definition SetLevel (h : heap) (n : loc) (level : Z) : heap :=
  upd h n (mkNode (NodeId (h n)) (NodeName (h n)) level (NodeLeft (h n)) (NodeRight (h n))).
Definition SetLeft (h : heap) (n : loc) (left : Z) : heap :=
  upd h n (mkNode (NodeId (h n)) (NodeName (h n)) (NodeLevel (h n)) left (NodeRight (h n))).
Definition SetRight (h : heap) (n : loc) (right : Z) : heap :=
  upd h n (mkNode (NodeId (h n)) (NodeName (h n)) (NodeLevel (h n)) (NodeLeft (h n)) right).

(** ** ns.go *)

(** The seven [errors.New] values of ns.go. *)
Inductive error :=
| ErrParentNotFound
| ErrDeleteRoot
| ErrNodeNotFound
| ErrMoveRoot
| ErrMoveWithinItself
| ErrStructureBroken
| ErrSameBranch.

Definition message (e : error) : string :=
  match e with
  | ErrParentNotFound => "Parent node not found in structure"
  | ErrDeleteRoot => "Can't delete root node"
  | ErrNodeNotFound => "Node not found in structure"
  | ErrMoveRoot => "Can't move root node"
  | ErrMoveWithinItself => "Can't move branch to node within itself"
  | ErrStructureBroken => "Parent node not found, the structure broken"
  | ErrSameBranch => "Moving in same branch not implemented"
  end.

(** The specification sorts the errors into two classes; the code only has
    the messages.  A "not found" message is a [NotFoundError], a request
    refused for its shape is an [InvalidArgument]. *)
Inductive error_kind := NotFoundError | InvalidArgument.

Definition kind_of (e : error) : error_kind :=
  match e with
  | ErrParentNotFound | ErrNodeNotFound | ErrStructureBroken => NotFoundError
  | ErrDeleteRoot | ErrMoveRoot | ErrMoveWithinItself | ErrSameBranch => InvalidArgument
  end.

(** [NestedSet] without its mutex: every method holds the lock from entry to
    return, so a call is one atomic step. *)
Record NestedSet := mkNestedSet {
  nodes : list loc;
  rootNode : loc;
  maxId : Z
}.

(** The heap together with the store that lives in it. *)
Record world := mkWorld {
  mem : heap;
  ns : NestedSet
}.

(** [NewNestedSet()]; [r] is the address [NewNode()] returns for the root. *)
Definition NewNestedSet (h : heap) (r : loc) : world :=
  let h := NewNode h r in
  let h := SetRight h r 1 in
  let h := SetName h r "Root node" in
  mkWorld h (mkNestedSet [r] r 0).

(** [s.exists(node)]: a scan for the same handle. *)
Definition exists_ (s : NestedSet) (node : loc) : bool :=
  existsb (Nat.eqb node) (nodes s).

(** [sort.Sort(SortedNodes(s.nodes))] with [Less(i, j) = Left(i) < Left(j)].
    The library promises a permutation in which no element is [Less] than
    its predecessor, and nothing about ties.  The model is an insertion
    sort; the general proofs use that contract only ([sort_nodes_perm],
    [sort_nodes_sorted]), and where no two handles share a left bound the
    contract leaves one result ([sort_nodes_unique]). *)
Fixpoint insert_node (h : heap) (n : loc) (l : list loc) : list loc :=
  match l with
  | [] => [n]
  | m :: l' =>
      if Left h m <? Left h n then m :: insert_node h n l' else n :: m :: l'
  end.

Definition sort_nodes (h : heap) (l : list loc) : list loc :=
  fold_right (insert_node h) [] l.

(** The test of the collecting loop of [branch]. *)
Definition in_branch (h : heap) (node n : loc) : bool :=
  (Left h n >=? Left h node) && (Right h n <=? Right h node).

(** [s.branch(node)].  The slice is sorted in place, so the store changes;
    [None] is the nil slice. *)
Definition branch (w : world) (node : option loc) : world * option (list loc) :=
  let s := ns w in
  let sorted := sort_nodes (mem w) (nodes s) in
  let w' := mkWorld (mem w) (mkNestedSet sorted (rootNode s) (maxId s)) in
  match node with
  | None => (w', Some sorted)
  | Some nd =>
      if negb (exists_ (ns w') nd) then (w', None)
      else (w', Some (filter (in_branch (mem w) nd) sorted))
  end.

Definition Branch (w : world) (node : option loc) : world * option (list loc) :=
  branch w node.

(** [s.parent(node)]: the first handle in slice order that passes the test. *)
Definition is_parent_of (h : heap) (node n : loc) : bool :=
  (Left h n <=? Left h node) && (Right h n >=? Right h node)
  && (Level h n =? sub64 (Level h node) 1).

Definition parent (w : world) (node : loc) : option loc :=
  find (is_parent_of (mem w) node) (nodes (ns w)).

Definition Parent (w : world) (node : loc) : option loc := parent w node.

Definition FindById (w : world) (id : Z) : option loc :=
  find (fun n => Id (mem w) n =? id) (nodes (ns w)).

(** *** Add *)

(** Body of the loop of [Add]; [right] was read before the loop. *)
Definition Add_body (right : Z) (h : heap) (n : loc) : heap :=
  if Right h n >=? right then
    let h1 := SetRight h n (add64 (Right h n) 2) in
    if Left h1 n >? right then SetLeft h1 n (add64 (Left h1 n) 2) else h1
  else h.

(** [s.Add(newNode, parent)].  [newNode] is a non-nil handle (a nil one makes
    [newNode.SetLevel] panic); [parent = None] is the nil parent. *)
Definition Add (w : world) (newNode : loc) (parent : option loc)
  : world * option error :=
  let s := ns w in
  let resolved :=
    match parent with
    | Some p => if negb (exists_ s p) then None else Some p
    | None => Some (rootNode s)
    end in
  match resolved with
  | None => (w, Some ErrParentNotFound)
  | Some p =>
      let h := mem w in
      let level := add64 (Level h p) 1 in
      let right := Right h p in
      let h := SetLevel h newNode level in
      let maxId' := add64 (maxId s) 1 in
      let h := SetId h newNode maxId' in
      let h := SetLeft h newNode right in
      let h := SetRight h newNode (add64 right 1) in
      let h := fold_left (Add_body right) (nodes s) h in
      (mkWorld h (mkNestedSet (nodes s ++ [newNode]) (rootNode s) maxId'), None)
  end.

(** *** Delete *)

(** Body of the loop of [Delete].  [node.Left()] and [node.Right()] are read
    from the heap at every use, as the source does. *)
Definition Delete_body (node : loc) (acc : heap * list loc) (n : loc)
  : heap * list loc :=
  let (h, newNodes) := acc in
  if (Left h n <? Left h node) || (Right h n >? Right h node) then
    let h1 :=
      if Right h n >? Right h node
      then SetRight h n (sub64 (Right h n) (add64 (sub64 (Right h node) (Left h node)) 1))
      else h in
    let h2 :=
      if Left h1 n >? Left h1 node
      then SetLeft h1 n (sub64 (Left h1 n) (add64 (sub64 (Right h1 node) (Left h1 node)) 1))
      else h1 in
    (h2, newNodes ++ [n])
  else acc.

(** [s.Delete(node)]; [None] is the nil handle. *)
Definition Delete (w : world) (node : option loc) : world * option error :=
  let s := ns w in
  match node with
  | None => (w, Some ErrDeleteRoot)
  | Some nd =>
      if Nat.eqb nd (rootNode s) then (w, Some ErrDeleteRoot)
      else if negb (exists_ s nd) then (w, Some ErrNodeNotFound)
      else
        let (h, newNodes) := fold_left (Delete_body nd) (nodes s) (mem w, []) in
        (mkWorld h (mkNestedSet newNodes (rootNode s) (maxId s)), None)
  end.

(** *** Move *)

Definition Move_up_body (left rightNear skewTree : Z) (h : heap) (n : loc) : heap :=
  let h1 :=
    if (Right h n <? left) && (Right h n >? rightNear)
    then SetRight h n (add64 (Right h n) skewTree) else h in
  if (Left h1 n <? left) && (Left h1 n >? rightNear)
  then SetLeft h1 n (add64 (Left h1 n) skewTree) else h1.

Definition Move_down_body (right rightNear skewTree : Z) (h : heap) (n : loc) : heap :=
  let h1 :=
    if (Right h n >? right) && (Right h n <=? rightNear)
    then SetRight h n (sub64 (Right h n) skewTree) else h in
  if (Left h1 n >? right) && (Left h1 n <=? rightNear)
  then SetLeft h1 n (sub64 (Left h1 n) skewTree) else h1.

Definition Move_update_body (skewEdit skewLevel : Z) (h : heap) (n : loc) : heap :=
  let h1 := SetLeft h n (add64 (Left h n) skewEdit) in
  let h2 := SetRight h1 n (add64 (Right h1 n) skewEdit) in
  SetLevel h2 n (add64 (Level h2 n) skewLevel).

(** [s.Move(node, parent)].  [node] is a non-nil handle (a nil one makes
    [node.Level()] panic); [parent = None] is the nil parent. *)
Definition Move (w : world) (node : loc) (parent_arg : option loc)
  : world * option error :=
  let s := ns w in
  let h := mem w in
  if Level h node =? 0 then (w, Some ErrMoveRoot)
  else
    let p := match parent_arg with Some p => p | None => rootNode s end in
    if (Left h p >=? Left h node) && (Right h p <=? Right h node)
    then (w, Some ErrMoveWithinItself)
    else
      match parent w node with
      | None => (w, Some ErrStructureBroken)
      | Some currentParent =>
          if Nat.eqb currentParent p then (w, Some ErrSameBranch)
          else
            let level := Level h node in
            let left := Left h node in
            let right := Right h node in
            let levelUp := Level h p in
            let rightNear := sub64 (Right h p) 1 in
            let skewLevel := add64 (sub64 levelUp level) 1 in
            let skewTree := add64 (sub64 right left) 1 in
            let skewEdit := add64 (sub64 rightNear left) 1 in
            let isUp := rightNear <? right in
            let (w1, res) := branch w (Some node) in
            let toUpdate := match res with Some l => l | None => [] end in
            let s1 := ns w1 in
            let h1 := mem w1 in
            let (h2, skewEdit) :=
              if isUp
              then (fold_left (Move_up_body left rightNear skewTree) (nodes s1) h1,
                    skewEdit)
              else (fold_left (Move_down_body right rightNear skewTree) (nodes s1) h1,
                    sub64 (add64 (sub64 rightNear left) 1) skewTree) in
            let h3 := fold_left (Move_update_body skewEdit skewLevel) toUpdate h2 in
            (mkWorld h3 s1, None)
      end.

(** *** Sequences of calls *)

Inductive call :=
| CallAdd (newNode : loc) (parent : option loc)
| CallDelete (node : option loc)
| CallMove (node : loc) (parent : option loc).

Definition exec (w : world) (c : call) : world * option error :=
  match c with
  | CallAdd n p => Add w n p
  | CallDelete n => Delete w n
  | CallMove n p => Move w n p
  end.

(** The world after the calls, whatever each one returned. *)
Fixpoint run (w : world) (cs : list call) : world :=
  match cs with
  | [] => w
  | c :: cs' => run (fst (exec w c)) cs'
  end.

(** Every call of the sequence returned a nil error. *)
Fixpoint all_nil (w : world) (cs : list call) : Prop :=
  match cs with
  | [] => True
  | c :: cs' => snd (exec w c) = None /\ all_nil (fst (exec w c)) cs'
  end.

(** * Basic facts *)

Section Int64.

Lemma wrap64_id (z : Z) : min64 <= z <= max64 -> wrap64 z = z.
Proof.
  unfold wrap64, min64, max64. intros Hz.
  rewrite Z.mod_small by lia. lia.
Qed.

Lemma add64_id (a b : Z) : min64 <= a + b <= max64 -> add64 a b = a + b.
Proof. apply wrap64_id. Qed.

Lemma sub64_id (a b : Z) : min64 <= a - b <= max64 -> sub64 a b = a - b.
Proof. apply wrap64_id. Qed.

End Int64.

Section Heap.

Lemma upd_same (h : heap) (p : loc) (v : Node) : upd h p v p = v.
Proof. unfold upd. now rewrite Nat.eqb_refl. Qed.

Lemma upd_other (h : heap) (p q : loc) (v : Node) : q <> p -> upd h p v q = h q.
Proof. unfold upd. intros Hq. apply Nat.eqb_neq in Hq. now rewrite Hq. Qed.

(** Membership of a handle in a slice, as [exists] computes it. *)
Definition memb (q : loc) (l : list loc) : bool := existsb (Nat.eqb q) l.

Lemma memb_In (q : loc) (l : list loc) : memb q l = true <-> In q l.
Proof.
  unfold memb. rewrite existsb_exists. split.
  - intros (x & Hx & E). apply Nat.eqb_eq in E. now subst.
  - intros H. exists q. split; [assumption | apply Nat.eqb_refl].
Qed.

Lemma memb_nIn (q : loc) (l : list loc) : memb q l = false <-> ~ In q l.
Proof.
  rewrite <- memb_In. destruct (memb q l); split; intros; congruence.
Qed.

Lemma memb_cons (q n : loc) (l : list loc) :
  memb q (n :: l) = Nat.eqb q n || memb q l.
Proof. reflexivity. Qed.

Lemma exists_In (s : NestedSet) (n : loc) : exists_ s n = true <-> In n (nodes s).
Proof. apply memb_In. Qed.

(** A loop whose body rewrites only the record of the handle it visits. *)
Lemma fold_pointwise (body : heap -> loc -> heap) (g : Node -> Node) :
  (forall h n q, body h n q = if Nat.eqb q n then g (h n) else h q) ->
  forall l h q, NoDup l ->
    fold_left body l h q = if memb q l then g (h q) else h q.
Proof.
  intros Hbody. induction l as [|n l IH]; intros h q Hnd; simpl.
  - reflexivity.
  - inversion Hnd as [|? ? Hn Hl]; subst.
    rewrite IH by assumption. rewrite Hbody.
    destruct (Nat.eqb_spec q n) as [->|Hqn].
    + apply memb_nIn in Hn. rewrite Hn. reflexivity.
    + reflexivity.
Qed.

End Heap.

(** ** What each loop body does to one record *)

Definition withLeft (v : Node) (x : Z) : Node :=
  mkNode (NodeId v) (NodeName v) (NodeLevel v) x (NodeRight v).
Definition withRight (v : Node) (x : Z) : Node :=
  mkNode (NodeId v) (NodeName v) (NodeLevel v) (NodeLeft v) x.
Definition withLevel (v : Node) (x : Z) : Node :=
  mkNode (NodeId v) (NodeName v) x (NodeLeft v) (NodeRight v).

Definition Add_fn (r : Z) (v : Node) : Node :=
  if NodeRight v >=? r then
    let v1 := withRight v (add64 (NodeRight v) 2) in
    if NodeLeft v1 >? r then withLeft v1 (add64 (NodeLeft v1) 2) else v1
  else v.

(** The test that keeps [n] in [newNodes]; [nd] is the record of [node]. *)
Definition survives (nd v : Node) : bool :=
  (NodeLeft v <? NodeLeft nd) || (NodeRight v >? NodeRight nd).

Definition Delete_fn (nd v : Node) : Node :=
  if survives nd v then
    let width := add64 (sub64 (NodeRight nd) (NodeLeft nd)) 1 in
    let v1 := if NodeRight v >? NodeRight nd
              then withRight v (sub64 (NodeRight v) width) else v in
    if NodeLeft v1 >? NodeLeft nd then withLeft v1 (sub64 (NodeLeft v1) width) else v1
  else v.

Definition Move_up_fn (left rightNear skewTree : Z) (v : Node) : Node :=
  let v1 := if (NodeRight v <? left) && (NodeRight v >? rightNear)
            then withRight v (add64 (NodeRight v) skewTree) else v in
  if (NodeLeft v1 <? left) && (NodeLeft v1 >? rightNear)
  then withLeft v1 (add64 (NodeLeft v1) skewTree) else v1.

Definition Move_down_fn (right rightNear skewTree : Z) (v : Node) : Node :=
  let v1 := if (NodeRight v >? right) && (NodeRight v <=? rightNear)
            then withRight v (sub64 (NodeRight v) skewTree) else v in
  if (NodeLeft v1 >? right) && (NodeLeft v1 <=? rightNear)
  then withLeft v1 (sub64 (NodeLeft v1) skewTree) else v1.

Definition Move_update_fn (skewEdit skewLevel : Z) (v : Node) : Node :=
  let v1 := withLeft v (add64 (NodeLeft v) skewEdit) in
  let v2 := withRight v1 (add64 (NodeRight v1) skewEdit) in
  withLevel v2 (add64 (NodeLevel v2) skewLevel).

Ltac heap_unfold :=
  unfold SetLeft, SetRight, SetLevel, SetId, SetName, Left, Right, Level, Id,
    withLeft, withRight, withLevel, upd in *.

Section Bodies.

Lemma Add_body_at (r : Z) (h : heap) (n q : loc) :
  Add_body r h n q = if Nat.eqb q n then Add_fn r (h n) else h q.
Proof.
  unfold Add_body, Add_fn. heap_unfold.
  destruct (Nat.eqb_spec q n) as [->|Hq].
  - destruct (NodeRight (h n) >=? r); [|reflexivity].
    rewrite !Nat.eqb_refl. simpl.
    destruct (NodeLeft (h n) >? r); rewrite ?Nat.eqb_refl; reflexivity.
  - apply Nat.eqb_neq in Hq.
    destruct (NodeRight (h n) >=? r); [|reflexivity].
    rewrite !Nat.eqb_refl. simpl.
    destruct (NodeLeft (h n) >? r); rewrite ?Hq; reflexivity.
Qed.

Lemma Move_up_body_at (a rn sk : Z) (h : heap) (n q : loc) :
  Move_up_body a rn sk h n q = if Nat.eqb q n then Move_up_fn a rn sk (h n) else h q.
Proof.
  unfold Move_up_body, Move_up_fn. heap_unfold.
  destruct (Nat.eqb_spec q n) as [->|Hq].
  - destruct ((NodeRight (h n) <? a) && (NodeRight (h n) >? rn));
      rewrite ?Nat.eqb_refl; simpl;
      destruct ((NodeLeft (h n) <? a) && (NodeLeft (h n) >? rn));
      rewrite ?Nat.eqb_refl; reflexivity.
  - apply Nat.eqb_neq in Hq.
    destruct ((NodeRight (h n) <? a) && (NodeRight (h n) >? rn));
      rewrite ?Nat.eqb_refl; simpl;
      destruct ((NodeLeft (h n) <? a) && (NodeLeft (h n) >? rn));
      rewrite ?Hq; reflexivity.
Qed.

Lemma Move_down_body_at (b rn sk : Z) (h : heap) (n q : loc) :
  Move_down_body b rn sk h n q
  = if Nat.eqb q n then Move_down_fn b rn sk (h n) else h q.
Proof.
  unfold Move_down_body, Move_down_fn. heap_unfold.
  destruct (Nat.eqb_spec q n) as [->|Hq].
  - destruct ((NodeRight (h n) >? b) && (NodeRight (h n) <=? rn));
      rewrite ?Nat.eqb_refl; simpl;
      destruct ((NodeLeft (h n) >? b) && (NodeLeft (h n) <=? rn));
      rewrite ?Nat.eqb_refl; reflexivity.
  - apply Nat.eqb_neq in Hq.
    destruct ((NodeRight (h n) >? b) && (NodeRight (h n) <=? rn));
      rewrite ?Nat.eqb_refl; simpl;
      destruct ((NodeLeft (h n) >? b) && (NodeLeft (h n) <=? rn));
      rewrite ?Hq; reflexivity.
Qed.

Lemma Move_update_body_at (se sl : Z) (h : heap) (n q : loc) :
  Move_update_body se sl h n q
  = if Nat.eqb q n then Move_update_fn se sl (h n) else h q.
Proof.
  unfold Move_update_body, Move_update_fn. heap_unfold.
  destruct (Nat.eqb_spec q n) as [->|Hq].
  - rewrite !Nat.eqb_refl. reflexivity.
  - reflexivity.
Qed.

Lemma survives_self (nd : Node) : survives nd nd = false.
Proof.
  unfold survives. rewrite Z.ltb_irrefl, Z.gtb_ltb, Z.ltb_irrefl. reflexivity.
Qed.

Lemma Delete_fn_self (nd : Node) : Delete_fn nd nd = nd.
Proof. unfold Delete_fn. now rewrite survives_self. Qed.

Lemma Delete_body_at (node : loc) (h : heap) (acc : list loc) (n : loc) :
  exists h1,
    Delete_body node (h, acc) n
    = (h1, if survives (h node) (h n) then acc ++ [n] else acc)
    /\ forall q, h1 q = if Nat.eqb q n then Delete_fn (h node) (h n) else h q.
Proof.
  unfold Delete_body, Delete_fn, survives. heap_unfold.
  destruct ((NodeLeft (h n) <? NodeLeft (h node))
            || (NodeRight (h n) >? NodeRight (h node))) eqn:Hs.
  - assert (Hne : n <> node).
    { intros ->. rewrite Z.ltb_irrefl, Z.gtb_ltb, Z.ltb_irrefl in Hs. discriminate. }
    assert (Hne' : Nat.eqb node n = false) by (apply Nat.eqb_neq; congruence).
    eexists. split; [reflexivity|].
    intros q.
    destruct (NodeRight (h n) >? NodeRight (h node));
      rewrite ?Nat.eqb_refl, ?Hne'; simpl;
      destruct (NodeLeft (h n) >? NodeLeft (h node));
      rewrite ?Nat.eqb_refl, ?Hne'; simpl;
      destruct (Nat.eqb_spec q n); subst; reflexivity.
  - exists h. split; [reflexivity|].
    intros q. destruct (Nat.eqb_spec q n); subst; reflexivity.
Qed.

Lemma Delete_loop (node : loc) :
  forall l h acc, NoDup l ->
    exists h',
      fold_left (Delete_body node) l (h, acc)
      = (h', acc ++ filter (fun n => survives (h node) (h n)) l)
      /\ forall q, h' q = if memb q l then Delete_fn (h node) (h q) else h q.
Proof.
  induction l as [|n l IH]; intros h acc Hnd; cbn [fold_left filter].
  - exists h. rewrite app_nil_r. split; reflexivity.
  - inversion Hnd as [|? ? Hn Hl]; subst.
    destruct (Delete_body_at node h acc n) as (h1 & -> & Hh1).
    destruct (IH h1 (if survives (h node) (h n) then acc ++ [n] else acc) Hl)
      as (h' & -> & Hh').
    assert (Hnode : h1 node = h node).
    { rewrite Hh1. destruct (Nat.eqb_spec node n) as [->|]; [|reflexivity].
      apply Delete_fn_self. }
    exists h'. split.
    + f_equal. rewrite Hnode.
      rewrite (filter_ext_in (fun n0 => survives (h node) (h1 n0))
                 (fun n0 => survives (h node) (h n0))).
      * destruct (survives (h node) (h n)); [rewrite <- app_assoc|]; reflexivity.
      * intros m Hm. rewrite Hh1.
        destruct (Nat.eqb_spec m n) as [->|]; [contradiction|reflexivity].
    + intros q. rewrite Hh', Hnode, Hh1, memb_cons.
      destruct (Nat.eqb_spec q n) as [->|Hq].
      * apply memb_nIn in Hn. rewrite Hn. reflexivity.
      * reflexivity.
Qed.

End Bodies.

(** ** The sort *)

Section Sorting.

Variable h : heap.

Definition left_le (a b : loc) : Prop := Left h a <= Left h b.

Lemma insert_node_perm (n : loc) (l : list loc) :
  Permutation (n :: l) (insert_node h n l).
Proof.
  induction l as [|m l IH]; simpl.
  - apply Permutation_refl.
  - destruct (Left h m <? Left h n).
    + eapply perm_trans; [apply perm_swap|]. now apply perm_skip.
    + apply Permutation_refl.
Qed.

Lemma sort_nodes_perm (l : list loc) : Permutation l (sort_nodes h l).
Proof.
  induction l as [|n l IH]; simpl.
  - apply perm_nil.
  - eapply perm_trans; [|apply insert_node_perm]. now apply perm_skip.
Qed.

Lemma insert_node_hd (n x : loc) (l : list loc) :
  left_le x n -> HdRel left_le x l -> HdRel left_le x (insert_node h n l).
Proof.
  intros Hxn Hx. destruct l as [|m l]; simpl.
  - now constructor.
  - destruct (Left h m <? Left h n); constructor;
      [now inversion Hx | assumption].
Qed.

Lemma insert_node_sorted (n : loc) (l : list loc) :
  Sorted left_le l -> Sorted left_le (insert_node h n l).
Proof.
  induction l as [|m l IH]; intros Hs; simpl.
  - repeat constructor.
  - inversion Hs as [|? ? Hl Hm]; subst.
    destruct (Z.ltb_spec (Left h m) (Left h n)) as [Hlt|Hge].
    + constructor; [now apply IH|].
      apply insert_node_hd; [unfold left_le; lia | assumption].
    + constructor; [assumption|]. constructor. unfold left_le. lia.
Qed.

Lemma sort_nodes_sorted (l : list loc) : Sorted left_le (sort_nodes h l).
Proof.
  induction l as [|n l IH]; simpl.
  - constructor.
  - now apply insert_node_sorted.
Qed.

Lemma sort_nodes_In (l : list loc) (x : loc) : In x (sort_nodes h l) <-> In x l.
Proof.
  split; apply Permutation_in;
    [apply Permutation_sym|]; apply sort_nodes_perm.
Qed.

Lemma sort_nodes_NoDup (l : list loc) : NoDup l -> NoDup (sort_nodes h l).
Proof. apply Permutation_NoDup, sort_nodes_perm. Qed.

Lemma memb_sort_nodes (l : list loc) (x : loc) :
  memb x (sort_nodes h l) = memb x l.
Proof.
  destruct (memb x l) eqn:E.
  - apply memb_In, sort_nodes_In, memb_In, E.
  - apply memb_nIn. rewrite sort_nodes_In. now apply memb_nIn.
Qed.

Lemma filter_sorted (f : loc -> bool) (l : list loc) :
  Sorted left_le l -> Sorted left_le (filter f l).
Proof.
  intros Hs. apply Sorted_StronglySorted in Hs.
  2:{ intros a b c. unfold left_le. lia. }
  apply StronglySorted_Sorted.
  induction Hs as [|a l Hl IH Ha]; simpl.
  - constructor.
  - destruct (f a); [|assumption].
    constructor; [assumption|].
    rewrite Forall_forall in *. intros x Hx. apply filter_In in Hx. now apply Ha.
Qed.

(** Where no two handles share a left bound, every sorted permutation is
    the one [sort_nodes] returns: the order [sort.Sort] leaves is determined. *)
Lemma sorted_perm_unique (l1 l2 : list loc) :
  (forall a b, In a l1 -> In b l1 -> Left h a = Left h b -> a = b) ->
  Permutation l1 l2 ->
  StronglySorted left_le l1 -> StronglySorted left_le l2 -> l1 = l2.
Proof.
  revert l2. induction l1 as [|a t1 IH]; intros l2 Hinj Hperm H1 H2.
  - apply Permutation_nil in Hperm. now subst.
  - destruct l2 as [|b t2];
      [apply Permutation_sym, Permutation_nil in Hperm; discriminate|].
    inversion H1 as [|? ? Ht1 Ha]; subst. inversion H2 as [|? ? Ht2 Hb]; subst.
    rewrite Forall_forall in Ha, Hb.
    assert (Hab : a = b).
    { assert (Hina : In a (b :: t2))
        by (eapply Permutation_in; [exact Hperm | now left]).
      assert (Hinb : In b (a :: t1))
        by (eapply Permutation_in; [apply Permutation_sym, Hperm | now left]).
      destruct Hina as [->|Hina]; [reflexivity|].
      destruct Hinb as [->|Hinb]; [reflexivity|].
      apply Hinj; [now left | now right |].
      specialize (Ha b Hinb). specialize (Hb a Hina). unfold left_le in *. lia. }
    subst b. f_equal. apply IH; try assumption.
    + intros x y Hx Hy. apply Hinj; now right.
    + now apply Permutation_cons_inv in Hperm.
Qed.

Lemma sort_nodes_unique (l l' : list loc) :
  (forall a b, In a l -> In b l -> Left h a = Left h b -> a = b) ->
  Permutation l l' -> Sorted left_le l' -> l' = sort_nodes h l.
Proof.
  intros Hinj Hperm Hs.
  assert (Htrans : Relations_1.Transitive left_le)
    by (intros a b c; unfold left_le; lia).
  apply sorted_perm_unique.
  - intros a b Ha Hb. apply Hinj; eapply Permutation_in;
      try (apply Permutation_sym; exact Hperm); assumption.
  - eapply perm_trans; [apply Permutation_sym, Hperm | apply sort_nodes_perm].
  - now apply Sorted_StronglySorted.
  - apply Sorted_StronglySorted; [assumption | apply sort_nodes_sorted].
Qed.

End Sorting.

(** ** What each call does to the world *)

Section Effects.

Definition resolve (s : NestedSet) (parent : option loc) : loc :=
  match parent with Some p => p | None => rootNode s end.

Definition member_or_nil (s : NestedSet) (parent : option loc) : Prop :=
  match parent with Some p => In p (nodes s) | None => True end.

(** The record [Add] writes into [newNode] before its loop. *)
Definition Add_new (w : world) (n p : loc) : Node :=
  mkNode (add64 (maxId (ns w)) 1) (NodeName (mem w n))
    (add64 (Level (mem w) p) 1) (Right (mem w) p) (add64 (Right (mem w) p) 1).

Lemma Add_error (w : world) (n : loc) (parent : option loc) (e : error) :
  snd (Add w n parent) = Some e ->
  fst (Add w n parent) = w /\ e = ErrParentNotFound
  /\ exists p, parent = Some p /\ ~ In p (nodes (ns w)).
Proof.
  unfold Add. destruct parent as [p|]; simpl.
  - destruct (exists_ (ns w) p) eqn:E; simpl; intros H; [discriminate|].
    inversion H; subst. repeat split. exists p. split; [reflexivity|].
    intros Hin. apply exists_In in Hin. congruence.
  - discriminate.
Qed.

Lemma Add_nil (w : world) (n : loc) (parent : option loc) :
  snd (Add w n parent) = None <-> member_or_nil (ns w) parent.
Proof.
  unfold Add, member_or_nil. destruct parent as [p|]; simpl.
  - rewrite <- exists_In. destruct (exists_ (ns w) p); simpl; split;
      intros; congruence.
  - tauto.
Qed.

Lemma Add_effect (w : world) (n : loc) (parent : option loc) :
  snd (Add w n parent) = None ->
  NoDup (nodes (ns w)) ->
  let p := resolve (ns w) parent in
  let w' := fst (Add w n parent) in
  nodes (ns w') = nodes (ns w) ++ [n]
  /\ rootNode (ns w') = rootNode (ns w)
  /\ maxId (ns w') = add64 (maxId (ns w)) 1
  /\ forall q,
      mem w' q =
        let v := if Nat.eqb q n then Add_new w n p else mem w q in
        if memb q (nodes (ns w)) then Add_fn (Right (mem w) p) v else v.
Proof.
  intros Hnil Hnd. apply Add_nil in Hnil. revert Hnil.
  unfold Add, member_or_nil, resolve, Add_new.
  assert (Hres : match parent with
                 | Some p => In p (nodes (ns w)) | None => True end ->
                 match parent with
                 | Some p => if negb (exists_ (ns w) p) then None else Some p
                 | None => Some (rootNode (ns w))
                 end = Some (match parent with Some p => p
                                          | None => rootNode (ns w) end)).
  { destruct parent as [p|]; [|reflexivity].
    intros Hin. apply exists_In in Hin. now rewrite Hin. }
  intros Hm. rewrite (Hres Hm). cbn [fst snd ns mem nodes rootNode maxId].
  repeat split.
  intros q. rewrite (fold_pointwise _ _ (Add_body_at _)) by assumption.
  assert (Hv : forall x,
    SetRight (SetLeft (SetId (SetLevel (mem w) n x) n (add64 (maxId (ns w)) 1)) n
                (Right (mem w) (resolve (ns w) parent))) n
      (add64 (Right (mem w) (resolve (ns w) parent)) 1) q
    = if Nat.eqb q n
      then mkNode (add64 (maxId (ns w)) 1) (NodeName (mem w n)) x
             (Right (mem w) (resolve (ns w) parent))
             (add64 (Right (mem w) (resolve (ns w) parent)) 1)
      else mem w q).
  { intros x. heap_unfold. rewrite !Nat.eqb_refl. simpl.
    destruct (Nat.eqb q n); reflexivity. }
  unfold resolve in Hv. rewrite Hv. reflexivity.
Qed.

Lemma Delete_error (w : world) (node : option loc) (e : error) :
  snd (Delete w node) = Some e -> fst (Delete w node) = w.
Proof.
  unfold Delete. destruct node as [nd|]; [|reflexivity].
  destruct (Nat.eqb nd (rootNode (ns w))); [reflexivity|].
  destruct (negb (exists_ (ns w) nd)); [reflexivity|].
  destruct (fold_left _ _ _). discriminate.
Qed.

Lemma Delete_nil (w : world) (node : option loc) :
  snd (Delete w node) = None <->
  exists nd, node = Some nd /\ nd <> rootNode (ns w) /\ In nd (nodes (ns w)).
Proof.
  unfold Delete. destruct node as [nd|].
  - destruct (Nat.eqb_spec nd (rootNode (ns w))) as [E|E]; simpl.
    + split; [discriminate|]. intros (x & Hx & Hne & _). congruence.
    + destruct (exists_ (ns w) nd) eqn:Hex; simpl.
      * destruct (fold_left _ _ _). simpl. split; [|reflexivity].
        intros _. exists nd. apply exists_In in Hex. now repeat split.
      * split; [discriminate|]. intros (x & Hx & _ & Hin).
        inversion Hx; subst. apply exists_In in Hin. congruence.
  - simpl. split; [discriminate|]. intros (x & Hx & _). discriminate.
Qed.

Lemma Delete_effect (w : world) (nd : loc) :
  snd (Delete w (Some nd)) = None ->
  NoDup (nodes (ns w)) ->
  let w' := fst (Delete w (Some nd)) in
  nodes (ns w')
    = filter (fun n => survives (mem w nd) (mem w n)) (nodes (ns w))
  /\ rootNode (ns w') = rootNode (ns w)
  /\ maxId (ns w') = maxId (ns w)
  /\ forall q,
      mem w' q = if memb q (nodes (ns w))
                 then Delete_fn (mem w nd) (mem w q) else mem w q.
Proof.
  intros Hnil Hnd. apply Delete_nil in Hnil.
  destruct Hnil as (x & Hx & Hne & Hin). inversion Hx; subst x.
  unfold Delete.
  apply Nat.eqb_neq in Hne. rewrite Hne.
  apply exists_In in Hin. rewrite Hin. simpl negb. cbv iota.
  destruct (Delete_loop nd (nodes (ns w)) (mem w) [] Hnd) as (h' & -> & Hh').
  simpl. repeat split. assumption.
Qed.

End Effects.

Section MoveEffect.

(** The locals of [Move], as functions of the heap at entry. *)
Definition rightNear (h : heap) (p : loc) : Z := sub64 (Right h p) 1.
Definition skewLevel (h : heap) (node p : loc) : Z :=
  add64 (sub64 (Level h p) (Level h node)) 1.
Definition skewTree (h : heap) (node : loc) : Z :=
  add64 (sub64 (Right h node) (Left h node)) 1.
Definition isUp (h : heap) (node p : loc) : bool :=
  rightNear h p <? Right h node.
Definition skewEdit (h : heap) (node p : loc) : Z :=
  if isUp h node p
  then add64 (sub64 (rightNear h p) (Left h node)) 1
  else sub64 (add64 (sub64 (rightNear h p) (Left h node)) 1) (skewTree h node).

(** The validation at the head of [Move]. *)
Definition Move_check (w : world) (node : loc) (parent_arg : option loc)
  : option error :=
  let h := mem w in
  let p := resolve (ns w) parent_arg in
  if Level h node =? 0 then Some ErrMoveRoot
  else if in_branch h node p then Some ErrMoveWithinItself
  else match parent w node with
       | None => Some ErrStructureBroken
       | Some currentParent =>
           if Nat.eqb currentParent p then Some ErrSameBranch else None
       end.

Lemma Move_snd (w : world) (node : loc) (parent_arg : option loc) :
  snd (Move w node parent_arg) = Move_check w node parent_arg.
Proof.
  unfold Move, Move_check, resolve, in_branch.
  destruct (Level (mem w) node =? 0); [reflexivity|].
  destruct (_ && _); [reflexivity|].
  destruct (parent w node) as [cp|]; [|reflexivity].
  destruct (Nat.eqb cp _); [reflexivity|].
  destruct (branch w (Some node)) as [w1 res].
  destruct (_ <? _); reflexivity.
Qed.

Lemma Move_error (w : world) (node : loc) (parent_arg : option loc) (e : error) :
  snd (Move w node parent_arg) = Some e -> fst (Move w node parent_arg) = w.
Proof.
  unfold Move.
  destruct (Level (mem w) node =? 0); [reflexivity|].
  destruct (_ && _); [reflexivity|].
  destruct (parent w node) as [cp|]; [|reflexivity].
  destruct (Nat.eqb cp _); [reflexivity|].
  destruct (branch w (Some node)) as [w1 res].
  destruct (_ <? _); discriminate.
Qed.

Lemma memb_filter (f : loc -> bool) (l : list loc) (q : loc) :
  memb q (filter f l) = memb q l && f q.
Proof.
  destruct (memb q l) eqn:Hm; destruct (f q) eqn:Hf; simpl.
  - apply memb_In, filter_In. apply memb_In in Hm. now split.
  - apply memb_nIn. rewrite filter_In. intros [_ H]. congruence.
  - apply memb_nIn. rewrite filter_In. apply memb_nIn in Hm. tauto.
  - apply memb_nIn. rewrite filter_In. apply memb_nIn in Hm. tauto.
Qed.

(** The record of [q] after the first loop of [Move]. *)
Definition Move_shift (h : heap) (l : list loc) (node p q : loc) : Node :=
  if memb q l then
    if isUp h node p
    then Move_up_fn (Left h node) (rightNear h p) (skewTree h node) (h q)
    else Move_down_fn (Right h node) (rightNear h p) (skewTree h node) (h q)
  else h q.

Lemma Move_effect (w : world) (node : loc) (parent_arg : option loc) :
  snd (Move w node parent_arg) = None ->
  NoDup (nodes (ns w)) ->
  let h := mem w in
  let l := nodes (ns w) in
  let p := resolve (ns w) parent_arg in
  let w' := fst (Move w node parent_arg) in
  nodes (ns w') = sort_nodes h l
  /\ rootNode (ns w') = rootNode (ns w)
  /\ maxId (ns w') = maxId (ns w)
  /\ forall q,
      mem w' q =
        if memb node l && memb q l && in_branch h node q
        then Move_update_fn (skewEdit h node p) (skewLevel h node p)
               (Move_shift h l node p q)
        else Move_shift h l node p q.
Proof.
  intros Hnil Hnd. rewrite Move_snd in Hnil. revert Hnil.
  unfold Move, Move_check, resolve, in_branch.
  destruct (Level (mem w) node =? 0); [discriminate|].
  destruct (_ && _); [discriminate|].
  destruct (parent w node) as [cp|]; [|discriminate].
  destruct (Nat.eqb cp _); [discriminate|]. intros _.
  unfold branch. cbn [ns mem nodes rootNode maxId].
  unfold exists_. cbn [nodes]. fold (memb node (sort_nodes (mem w) (nodes (ns w)))).
  rewrite memb_sort_nodes.
  set (p := match parent_arg with Some p => p | None => rootNode (ns w) end).
  fold (rightNear (mem w) p). fold (skewTree (mem w) node).
  fold (skewLevel (mem w) node p). fold (isUp (mem w) node p).
  assert (Hsort := sort_nodes_NoDup (mem w) _ Hnd).
  assert (Hse :
    (if isUp (mem w) node p
     then add64 (sub64 (rightNear (mem w) p) (Left (mem w) node)) 1
     else sub64 (add64 (sub64 (rightNear (mem w) p) (Left (mem w) node)) 1)
            (skewTree (mem w) node)) = skewEdit (mem w) node p) by reflexivity.
  destruct (memb node (nodes (ns w))) eqn:Hnode; cbn [negb fst snd];
    destruct (isUp (mem w) node p) eqn:Hup; cbn [fst snd ns mem nodes rootNode maxId];
    repeat split; intros q; unfold Move_shift; rewrite Hup, <- Hse; cbn [andb fold_left].
  - rewrite (fold_pointwise _ _ (Move_update_body_at _ _))
      by (apply NoDup_filter; assumption).
    rewrite memb_filter, memb_sort_nodes.
    rewrite (fold_pointwise _ _ (Move_up_body_at _ _ _)) by assumption.
    rewrite memb_sort_nodes. reflexivity.
  - rewrite (fold_pointwise _ _ (Move_update_body_at _ _))
      by (apply NoDup_filter; assumption).
    rewrite memb_filter, memb_sort_nodes.
    rewrite (fold_pointwise _ _ (Move_down_body_at _ _ _)) by assumption.
    rewrite memb_sort_nodes. reflexivity.
  - rewrite (fold_pointwise _ _ (Move_up_body_at _ _ _)) by assumption.
    rewrite memb_sort_nodes. reflexivity.
  - rewrite (fold_pointwise _ _ (Move_down_body_at _ _ _)) by assumption.
    rewrite memb_sort_nodes. reflexivity.
Qed.

End MoveEffect.

(** * The nested-set invariant *)

(** ** Counting handles that pass a test *)

Section Counting.

Definition cnt (P : loc -> bool) (l : list loc) : Z :=
  Z.of_nat (length (filter P l)).

Lemma cnt_nil (P : loc -> bool) : cnt P [] = 0.
Proof. reflexivity. Qed.

Lemma cnt_cons (P : loc -> bool) (x : loc) (l : list loc) :
  cnt P (x :: l) = (if P x then 1 else 0) + cnt P l.
Proof.
  unfold cnt. simpl. destruct (P x); simpl length; lia.
Qed.

Lemma cnt_nonneg (P : loc -> bool) (l : list loc) : 0 <= cnt P l.
Proof. unfold cnt. lia. Qed.

Lemma cnt_ext (P Q : loc -> bool) (l : list loc) :
  (forall x, In x l -> P x = Q x) -> cnt P l = cnt Q l.
Proof.
  intros H. unfold cnt. now rewrite (filter_ext_in P Q l H).
Qed.

Lemma cnt_app (P : loc -> bool) (l l' : list loc) :
  cnt P (l ++ l') = cnt P l + cnt P l'.
Proof.
  induction l as [|x l IH]; [reflexivity|].
  cbn [app]. rewrite !cnt_cons, IH. lia.
Qed.

Lemma cnt_perm (P : loc -> bool) (l l' : list loc) :
  Permutation l l' -> cnt P l = cnt P l'.
Proof.
  induction 1; rewrite ?cnt_cons; lia.
Qed.

Lemma cnt_filter (P Q : loc -> bool) (l : list loc) :
  cnt P (filter Q l) = cnt (fun x => Q x && P x) l.
Proof.
  induction l as [|x l IH]; [reflexivity|].
  cbn [filter]. rewrite cnt_cons.
  destruct (Q x); [rewrite cnt_cons|]; cbn [andb]; lia.
Qed.

Lemma cnt_split (S P : loc -> bool) (l : list loc) :
  cnt P l = cnt (fun x => S x && P x) l + cnt (fun x => negb (S x) && P x) l.
Proof.
  induction l as [|x l IH]; [reflexivity|].
  rewrite !cnt_cons, IH. destruct (S x), (P x); cbn [andb negb]; lia.
Qed.

Lemma cnt_none (P : loc -> bool) (l : list loc) :
  (forall x, In x l -> P x = false) -> cnt P l = 0.
Proof.
  induction l as [|x l IH]; intros H; [reflexivity|].
  rewrite cnt_cons, H by now left. rewrite IH; [lia|].
  intros y Hy. apply H. now right.
Qed.

Lemma cnt_le_length (P : loc -> bool) (l : list loc) :
  cnt P l <= Z.of_nat (length l).
Proof.
  induction l as [|x l IH]; [reflexivity|].
  rewrite cnt_cons. cbn [length]. destruct (P x); lia.
Qed.

Lemma cnt_mono (P Q : loc -> bool) (l : list loc) :
  (forall x, In x l -> P x = true -> Q x = true) -> cnt P l <= cnt Q l.
Proof.
  induction l as [|x l IH]; intros H; [reflexivity|].
  rewrite !cnt_cons.
  assert (cnt P l <= cnt Q l) by (apply IH; intros y Hy; apply H; now right).
  destruct (P x) eqn:HP; [rewrite (H x (or_introl eq_refl) HP); lia|].
  destruct (Q x); lia.
Qed.

(** One handle more passes [Q] than [P]. *)
Lemma cnt_succ (P Q : loc -> bool) (p : loc) (l : list loc) :
  NoDup l -> In p l -> P p = false ->
  (forall x, In x l -> Q x = Nat.eqb x p || P x) ->
  cnt Q l = cnt P l + 1.
Proof.
  induction l as [|x l IH]; intros Hnd Hin HP HQ; [contradiction|].
  inversion Hnd as [|? ? Hx Hl]; subst.
  rewrite !cnt_cons, (HQ x) by now left.
  destruct Hin as [->|Hin].
  - rewrite Nat.eqb_refl, HP. cbn [orb].
    rewrite (cnt_ext Q P); [lia|].
    intros y Hy. rewrite HQ by now right.
    destruct (Nat.eqb_spec y p) as [->|]; [contradiction|reflexivity].
  - destruct (Nat.eqb_spec x p) as [->|]; [contradiction|]. cbn [orb].
    rewrite IH; try assumption; [lia|].
    intros y Hy. apply HQ. now right.
Qed.

Lemma cnt_lt (P Q : loc -> bool) (a : loc) (l : list loc) :
  (forall x, In x l -> P x = true -> Q x = true) ->
  In a l -> Q a = true -> P a = false -> cnt P l < cnt Q l.
Proof.
  induction l as [|x l IH]; intros H Hin HQ HP; [contradiction|].
  rewrite !cnt_cons.
  assert (Hl : forall y, In y l -> P y = true -> Q y = true)
    by (intros y Hy; apply H; now right).
  destruct Hin as [->|Hin].
  - rewrite HQ, HP. pose proof (cnt_mono P Q l Hl). lia.
  - specialize (IH Hl Hin HQ HP).
    destruct (P x) eqn:HPx; [rewrite (H x (or_introl eq_refl) HPx); lia|].
    destruct (Q x); lia.
Qed.

(** A non-empty slice has a handle where [f] is largest. *)
Lemma argmax (f : loc -> Z) (l : list loc) :
  l <> [] -> exists m, In m l /\ forall x, In x l -> f x <= f m.
Proof.
  induction l as [|a l IH]; intros Hne; [congruence|].
  destruct l as [|b l].
  - exists a. split; [now left|]. intros x [->|[]]. lia.
  - destruct IH as (m & Hm & Hmax); [discriminate|].
    destruct (Z_le_gt_dec (f a) (f m)).
    + exists m. split; [now right|]. intros x [->|Hx]; [lia|now apply Hmax].
    + exists a. split; [now left|]. intros x [->|Hx]; [lia|].
      specialize (Hmax x Hx). lia.
Qed.

End Counting.

(** ** Bounds, separation and depth *)

Section Geometry.

(** Two ranges that do not touch: apart, or one strictly inside the other. *)
Definition sep (h : heap) (a b : loc) : Prop :=
  Right h a < Left h b \/ Right h b < Left h a
  \/ (Left h a < Left h b /\ Right h b < Right h a)
  \/ (Left h b < Left h a /\ Right h a < Right h b).

(** [x] strictly encloses [n]. *)
Definition encloses (h : heap) (x n : loc) : bool :=
  (Left h x <? Left h n) && (Right h n <? Right h x).

(** The number of handles of the slice that strictly enclose [n]. *)
Definition depth (h : heap) (l : list loc) (n : loc) : Z :=
  cnt (fun x => encloses h x n) l.

Record wf (h : heap) (l : list loc) (root : loc) : Prop := mkWf {
  wf_nodup : NoDup l;
  wf_root : In root l;
  wf_root_left : Left h root = 0;
  wf_bounds : forall n, In n l ->
    0 <= Left h n /\ Left h n < Right h n /\ Right h n <= Right h root;
  wf_sep : forall a b, In a l -> In b l -> a <> b -> sep h a b;
  wf_level : forall n, In n l -> Level h n = depth h l n
}.

Definition Inv (w : world) : Prop :=
  wf (mem w) (nodes (ns w)) (rootNode (ns w)).

(** The store stays within what [k] calls can build. *)
Definition within (k : Z) (w : world) : Prop :=
  Z.of_nat (length (nodes (ns w))) <= k + 1
  /\ Right (mem w) (rootNode (ns w)) <= 2 * k + 1.

Lemma sep_sym (h : heap) (a b : loc) : sep h a b -> sep h b a.
Proof. unfold sep. tauto. Qed.

Lemma encloses_true (h : heap) (x n : loc) :
  encloses h x n = true <-> Left h x < Left h n /\ Right h n < Right h x.
Proof.
  unfold encloses. rewrite andb_true_iff, !Z.ltb_lt. reflexivity.
Qed.

Lemma encloses_false (h : heap) (x n : loc) :
  encloses h x n = false <-> ~ (Left h x < Left h n /\ Right h n < Right h x).
Proof.
  rewrite <- encloses_true. destruct (encloses h x n); split; congruence.
Qed.

End Geometry.

Ltac zifs :=
  repeat match goal with
    | H : context [if ?a <=? ?b then _ else _] |- _ =>
        destruct (Z.leb_spec a b); cbv iota in *
    | H : context [if ?a <? ?b then _ else _] |- _ =>
        destruct (Z.ltb_spec a b); cbv iota in *
    | |- context [if ?a <=? ?b then _ else _] =>
        destruct (Z.leb_spec a b); cbv iota in *
    | |- context [if ?a <? ?b then _ else _] =>
        destruct (Z.ltb_spec a b); cbv iota in *
    end.

(** Settle an equation between two [encloses] tests by arithmetic. *)
Ltac bool_eq :=
  match goal with
  | |- ?a = ?b =>
      let E1 := fresh "E" in
      let E2 := fresh "E" in
      destruct a eqn:E1; destruct b eqn:E2; try reflexivity; exfalso;
      first [apply encloses_true in E1 | apply encloses_false in E1];
      first [apply encloses_true in E2 | apply encloses_false in E2]
  end.

(** ** Add keeps the invariant *)

(** Renumbering of the bounds that were there before [Add]. *)
Definition open_gap (r x : Z) : Z := if r <=? x then x + 2 else x.

Section AddPreserves.

Variables (h h' : heap) (l : list loc) (root p n : loc).
Hypothesis Hwf : wf h l root.
Hypothesis Hp : In p l.
Hypothesis Hn : ~ In n l.
Hypothesis Hold : forall q, In q l ->
  Left h' q = open_gap (Right h p) (Left h q)
  /\ Right h' q = open_gap (Right h p) (Right h q)
  /\ Level h' q = Level h q.
Hypothesis Hnew :
  Left h' n = Right h p /\ Right h' n = Right h p + 1
  /\ Level h' n = Level h p + 1.

Local Lemma Add_old_encloses (x q : loc) :
  In x l -> In q l -> encloses h' x q = encloses h x q.
Proof.
  intros Hx Hq.
  destruct (Hold x Hx) as (Lx & Rx & _), (Hold q Hq) as (Lq & Rq & _).
  bool_eq; rewrite Lx, Rx, Lq, Rq in *; unfold open_gap in *; zifs; lia.
Qed.

Local Lemma Add_new_leaf (q : loc) : In q l -> encloses h' n q = false.
Proof.
  intros Hq. destruct (Hold q Hq) as (Lq & Rq & _), Hnew as (Ln & Rn & _).
  destruct (wf_bounds _ _ _ Hwf q Hq) as (? & ? & ?).
  apply encloses_false. rewrite Lq, Rq, Ln, Rn. unfold open_gap. zifs; lia.
Qed.

Local Lemma Add_new_encloses (x : loc) :
  In x l -> encloses h' x n = Nat.eqb x p || encloses h x p.
Proof.
  intros Hx. destruct (Hold x Hx) as (Lx & Rx & _), Hnew as (Ln & Rn & _).
  destruct (wf_bounds _ _ _ Hwf x Hx) as (? & ? & ?).
  destruct (Nat.eqb_spec x p) as [->|Hne]; cbn [orb].
  - apply encloses_true. rewrite Lx, Rx, Ln, Rn. unfold open_gap. zifs; lia.
  - pose proof (wf_sep _ _ _ Hwf x p Hx Hp Hne) as Hs. unfold sep in Hs.
    destruct (wf_bounds _ _ _ Hwf p Hp) as (? & ? & ?).
    bool_eq; rewrite Lx, Rx, Ln, Rn in *; unfold open_gap in *; zifs; lia.
Qed.

Lemma wf_Add : wf h' (l ++ [n]) root.
Proof.
  destruct Hnew as (Ln & Rn & Lvn).
  pose proof (wf_bounds _ _ _ Hwf p Hp) as (Hp0 & Hp1 & Hp2).
  pose proof (wf_root _ _ _ Hwf) as Hroot.
  destruct (Hold root Hroot) as (Lr & Rr & _).
  rewrite (wf_root_left _ _ _ Hwf) in Lr.
  assert (Hsepn : forall a, In a l -> sep h' a n).
  { intros a Ha. destruct (Hold a Ha) as (La & Ra & _).
    destruct (wf_bounds _ _ _ Hwf a Ha) as (? & ? & ?).
    unfold sep. rewrite La, Ra, Ln, Rn. unfold open_gap.
    destruct (Nat.eq_dec a p) as [->|Hne].
    - zifs; lia.
    - pose proof (wf_sep _ _ _ Hwf a p Ha Hp Hne) as Hs. unfold sep in Hs.
      zifs; lia. }
  constructor.
  - apply NoDup_app; [apply (wf_nodup _ _ _ Hwf) | repeat constructor; intros [] |].
    intros x Hx [->|[]]. contradiction.
  - apply in_or_app. now left.
  - rewrite Lr. unfold open_gap. zifs; lia.
  - intros q Hq. apply in_app_or in Hq. destruct Hq as [Hq|[<-|[]]].
    + destruct (Hold q Hq) as (Lq & Rq & _).
      destruct (wf_bounds _ _ _ Hwf q Hq) as (? & ? & ?).
      rewrite Lq, Rq, Rr. unfold open_gap. zifs; lia.
    + rewrite Ln, Rn, Rr. unfold open_gap. zifs; lia.
  - intros a b Ha Hb Hab. apply in_app_or in Ha, Hb.
    destruct Ha as [Ha|[<-|[]]]; destruct Hb as [Hb|[<-|[]]].
    + destruct (Hold a Ha) as (La & Ra & _), (Hold b Hb) as (Lb & Rb & _).
      pose proof (wf_sep _ _ _ Hwf a b Ha Hb Hab) as Hs.
      unfold sep in *. rewrite La, Ra, Lb, Rb. unfold open_gap. zifs; lia.
    + now apply Hsepn.
    + apply sep_sym. now apply Hsepn.
    + congruence.
  - intros q Hq. unfold depth. rewrite cnt_app, cnt_cons, cnt_nil.
    apply in_app_or in Hq. destruct Hq as [Hq|[<-|[]]].
    + destruct (Hold q Hq) as (_ & _ & ->).
      rewrite (wf_level _ _ _ Hwf q Hq). unfold depth.
      rewrite Add_new_leaf by assumption.
      rewrite (cnt_ext (fun x => encloses h' x q) (fun x => encloses h x q)); [lia|].
      intros x Hx. now apply Add_old_encloses.
    + rewrite Lvn, (wf_level _ _ _ Hwf p Hp). unfold depth.
      assert (encloses h' n n = false) as ->
        by (apply encloses_false; lia).
      rewrite (cnt_succ (fun x => encloses h x p) (fun x => encloses h' x n) p);
        [lia | apply (wf_nodup _ _ _ Hwf) | assumption | | ].
      * apply encloses_false. lia.
      * intros x Hx. now apply Add_new_encloses.
Qed.

End AddPreserves.

(** ** Delete keeps the invariant *)

(** Renumbering of the bounds that survive a [Delete] of the range [a, b]. *)
Definition close_gap (a b x : Z) : Z := if b <? x then x - (b - a + 1) else x.

Section DeletePreserves.

Variables (h h' : heap) (l : list loc) (root nd : loc).
Hypothesis Hwf : wf h l root.
Hypothesis Hnd : In nd l.
Hypothesis Hne : nd <> root.

Let keep (q : loc) : bool := survives (h nd) (h q).

Hypothesis Hold : forall q, In q l -> keep q = true ->
  Left h' q = close_gap (Left h nd) (Right h nd) (Left h q)
  /\ Right h' q = close_gap (Left h nd) (Right h nd) (Right h q)
  /\ Level h' q = Level h q.

Local Lemma keep_true (q : loc) :
  keep q = true <-> Left h q < Left h nd \/ Right h nd < Right h q.
Proof.
  unfold keep, survives. fold (Left h q) (Left h nd) (Right h q) (Right h nd).
  rewrite orb_true_iff, Z.ltb_lt, Z.gtb_ltb, Z.ltb_lt. reflexivity.
Qed.

Local Lemma keep_false (q : loc) :
  keep q = false <-> Left h nd <= Left h q /\ Right h q <= Right h nd.
Proof.
  pose proof (keep_true q) as Hk.
  destruct (keep q); split; intros; try lia; congruence.
Qed.

(** A survivor has no bound inside the deleted range. *)
Local Lemma keep_clear (q : loc) :
  In q l -> keep q = true ->
  Left h q < Right h q
  /\ (Right h q < Left h nd \/ Right h nd < Left h q
      \/ (Left h q < Left h nd /\ Right h nd < Right h q)).
Proof.
  intros Hq Hk. apply keep_true in Hk.
  destruct (wf_bounds _ _ _ Hwf q Hq) as (? & ? & ?).
  split; [assumption|].
  destruct (Nat.eq_dec q nd) as [->|Hqn]; [lia|].
  pose proof (wf_sep _ _ _ Hwf q nd Hq Hnd Hqn) as Hs. unfold sep in Hs. lia.
Qed.

Local Lemma Delete_root_kept :
  keep root = true /\ 0 < Left h nd /\ Right h nd < Right h root.
Proof.
  pose proof (wf_sep _ _ _ Hwf nd root Hnd (wf_root _ _ _ Hwf) Hne) as Hs.
  destruct (wf_bounds _ _ _ Hwf nd Hnd) as (? & ? & ?).
  pose proof (wf_root_left _ _ _ Hwf). unfold sep in Hs.
  rewrite keep_true. lia.
Qed.

Local Lemma Delete_encloses (x q : loc) :
  In x l -> In q l -> keep q = true ->
  keep x && encloses h' x q = encloses h x q.
Proof.
  intros Hx Hq Hkq. destruct (keep_clear q Hq Hkq) as (? & Hcq).
  destruct (Hold q Hq Hkq) as (Lq & Rq & _).
  destruct (wf_bounds _ _ _ Hwf nd Hnd) as (? & ? & ?).
  destruct (keep x) eqn:Hkx; cbn [andb].
  - destruct (keep_clear x Hx Hkx) as (? & Hcx).
    destruct (Hold x Hx Hkx) as (Lx & Rx & _).
    bool_eq; rewrite Lx, Rx, Lq, Rq in *; unfold close_gap in *; zifs; lia.
  - apply keep_false in Hkx. symmetry. apply encloses_false. lia.
Qed.

Lemma wf_Delete : wf h' (filter keep l) root.
Proof.
  destruct Delete_root_kept as (Hkr & Ha & Hb).
  pose proof (wf_root _ _ _ Hwf) as Hroot.
  destruct (Hold root Hroot Hkr) as (Lr & Rr & _).
  rewrite (wf_root_left _ _ _ Hwf) in Lr.
  destruct (wf_bounds _ _ _ Hwf nd Hnd) as (? & ? & ?).
  constructor.
  - apply NoDup_filter, (wf_nodup _ _ _ Hwf).
  - apply filter_In. now split.
  - rewrite Lr. unfold close_gap. zifs; lia.
  - intros q Hq. apply filter_In in Hq. destruct Hq as [Hq Hk].
    destruct (Hold q Hq Hk) as (Lq & Rq & _).
    destruct (keep_clear q Hq Hk) as (? & Hc).
    destruct (wf_bounds _ _ _ Hwf q Hq) as (? & ? & ?).
    rewrite Lq, Rq, Rr. unfold close_gap. zifs; lia.
  - intros x y Hx Hy Hxy. apply filter_In in Hx, Hy.
    destruct Hx as [Hx Hkx], Hy as [Hy Hky].
    destruct (Hold x Hx Hkx) as (Lx & Rx & _), (Hold y Hy Hky) as (Ly & Ry & _).
    destruct (keep_clear x Hx Hkx) as (? & Hcx), (keep_clear y Hy Hky) as (? & Hcy).
    pose proof (wf_sep _ _ _ Hwf x y Hx Hy Hxy) as Hs.
    unfold sep in *. rewrite Lx, Rx, Ly, Ry. unfold close_gap. zifs; lia.
  - intros q Hq. apply filter_In in Hq. destruct Hq as [Hq Hk].
    destruct (Hold q Hq Hk) as (_ & _ & ->).
    rewrite (wf_level _ _ _ Hwf q Hq). unfold depth.
    rewrite cnt_filter. apply cnt_ext. intros x Hx. symmetry.
    now apply Delete_encloses.
Qed.

End DeletePreserves.

(** ** Move keeps the invariant *)

(** Renumbering by [Move] of the range [a, b] to just before position [c]
    (the right bound of the new parent): the moving range and the stretch
    between it and [c] change places. *)
Definition rotate (a b c x : Z) : Z :=
  if c <=? b then
    if x <? c then x
    else if x <? a then x + (b - a + 1)
    else if x <=? b then x - (a - c)
    else x
  else
    if x <? a then x
    else if x <=? b then x + (c - 1 - b)
    else if x <? c then x - (b - a + 1)
    else x.

(** How far [Move] carries the moving range. *)
Definition slide (a b c : Z) : Z := if c <=? b then c - a else c - 1 - b.

(** [x] is no position of the moving range. *)
Definition outside (a b x : Z) : Prop := x < a \/ b < x.

Lemma rotate_in (a b c : Z) (Hab : a < b) (Hc : c < a \/ b < c) (x : Z) :
  a <= x <= b -> rotate a b c x = x + slide a b c.
Proof. intros Hx. unfold rotate, slide. zifs; lia. Qed.

Lemma rotate_out_side (a b c : Z) (Hab : a < b) (Hc : c < a \/ b < c) (x : Z) :
  outside a b x ->
  (x < c /\ rotate a b c x < a + slide a b c)
  \/ (c <= x /\ b + slide a b c < rotate a b c x).
Proof. unfold outside, rotate, slide. intros Hx. zifs; lia. Qed.

Lemma rotate_out_mono (a b c : Z) (Hab : a < b) (Hc : c < a \/ b < c) (x y : Z) :
  outside a b x -> outside a b y -> x < y -> rotate a b c x < rotate a b c y.
Proof. unfold outside, rotate. intros Hx Hy Hxy. zifs; lia. Qed.

Lemma rotate_out_lt (a b c : Z) (Hab : a < b) (Hc : c < a \/ b < c) (x y : Z) :
  outside a b x -> outside a b y -> (rotate a b c x < rotate a b c y <-> x < y).
Proof.
  intros Hx Hy. split; [|now apply rotate_out_mono].
  intros Hlt. destruct (Z.lt_trichotomy x y) as [?|[->|Hgt]]; [assumption|lia|].
  pose proof (rotate_out_mono a b c Hab Hc y x Hy Hx Hgt). lia.
Qed.

Lemma rotate_fixed (a b c : Z) (Hab : a < b) (Hc : c < a \/ b < c) (x : Z) :
  (x < a /\ x < c) \/ (b < x /\ c <= x) -> rotate a b c x = x.
Proof. unfold rotate. intros Hx. zifs; lia. Qed.

Section MovePreserves.

Variables (h h' : heap) (l : list loc) (root node p : loc).
Hypothesis Hwf : wf h l root.
Hypothesis Hnode : In node l.
Hypothesis Hp : In p l.
Hypothesis Hout : in_branch h node p = false.

Local Abbreviation inS := (in_branch h node).
Local Abbreviation rot := (rotate (Left h node) (Right h node) (Right h p)).
Local Abbreviation dlt := (slide (Left h node) (Right h node) (Right h p)).

Local Lemma inS_true (q : loc) :
  inS q = true <-> Left h node <= Left h q /\ Right h q <= Right h node.
Proof.
  unfold in_branch.
  rewrite andb_true_iff, Z.geb_leb, !Z.leb_le. reflexivity.
Qed.

Local Lemma inS_false (q : loc) :
  inS q = false <-> ~ (Left h node <= Left h q /\ Right h q <= Right h node).
Proof.
  rewrite <- inS_true. destruct (inS q); split; congruence.
Qed.

(** A handle is in the moving branch, or has no bound in its range. *)
Lemma Move_class (q : loc) :
  In q l ->
  0 <= Left h q /\ Left h q < Right h q /\ Right h q <= Right h root
  /\ ((inS q = true /\ Left h node <= Left h q /\ Right h q <= Right h node)
      \/ (inS q = false
          /\ (Right h q < Left h node \/ Right h node < Left h q
              \/ (Left h q < Left h node /\ Right h node < Right h q)))).
Proof.
  intros Hq. destruct (wf_bounds _ _ _ Hwf q Hq) as (? & ? & ?).
  repeat (split; [assumption|]).
  destruct (inS q) eqn:E.
  - left. apply inS_true in E. tauto.
  - right. split; [reflexivity|]. apply inS_false in E.
    destruct (Nat.eq_dec q node) as [Hqn|Hqn]; [rewrite Hqn in E; lia|].
    pose proof (wf_sep _ _ _ Hwf q node Hq Hnode Hqn) as Hs. unfold sep in Hs. lia.
Qed.

Lemma Move_dest :
  inS p = false
  /\ 0 < Left h node /\ Left h node < Right h node
  /\ Right h node < Right h root
  /\ 0 < Right h p <= Right h root
  /\ (Right h p < Left h node \/ Right h node < Right h p).
Proof.
  destruct (Move_class p Hp) as (? & ? & ? & [(E & _)|(E & Hc)]);
    [congruence|].
  destruct (Move_class node Hnode) as (? & ? & ? & _).
  assert (Hnr : node <> root).
  { intros Heq. apply inS_false in E. apply E.
    rewrite Heq, (wf_root_left _ _ _ Hwf) in *. lia. }
  pose proof (wf_sep _ _ _ Hwf node root Hnode (wf_root _ _ _ Hwf) Hnr) as Hs.
  pose proof (wf_root_left _ _ _ Hwf). unfold sep in Hs.
  repeat split; try lia. exact E.
Qed.

Hypothesis Hold : forall q, In q l ->
  Left h' q = rot (Left h q)
  /\ Right h' q = rot (Right h q)
  /\ Level h' q = if inS q then Level h q + (Level h p - Level h node + 1)
                  else Level h q.

(** The new bounds of a handle of the moving branch. *)
Local Lemma Move_in (q : loc) :
  In q l -> inS q = true ->
  Left h node <= Left h q /\ Left h q < Right h q /\ Right h q <= Right h node
  /\ Left h' q = Left h q + dlt /\ Right h' q = Right h q + dlt.
Proof.
  intros Hq Sq. destruct Move_dest as (_ & ? & Hab & ? & ? & Hc).
  destruct (Move_class q Hq) as (? & ? & ? & [(_ & ? & ?)|(? & _)]); [|congruence].
  destruct (Hold q Hq) as (-> & -> & _).
  rewrite !(rotate_in _ _ _ Hab Hc) by lia. lia.
Qed.

(** The bounds of a handle outside the moving branch. *)
Local Lemma Move_out (q : loc) :
  In q l -> inS q = false ->
  Left h q < Right h q
  /\ outside (Left h node) (Right h node) (Left h q)
  /\ outside (Left h node) (Right h node) (Right h q)
  /\ ~ (Left h node < Left h q /\ Right h q < Right h node)
  /\ Left h' q = rot (Left h q) /\ Right h' q = rot (Right h q).
Proof.
  intros Hq Sq.
  destruct (Move_class q Hq) as (? & ? & ? & [(? & _)|(_ & Hb)]); [congruence|].
  destruct (Hold q Hq) as (-> & -> & _). unfold outside. lia.
Qed.

Local Lemma Move_sep (x y : loc) :
  In x l -> In y l -> x <> y -> sep h' x y.
Proof.
  intros Hx Hy Hxy.
  destruct Move_dest as (_ & ? & Hab & ? & ? & Hc).
  pose proof (wf_sep _ _ _ Hwf x y Hx Hy Hxy) as Hs.
  unfold sep in *.
  destruct (inS x) eqn:Sx, (inS y) eqn:Sy.
  - destruct (Move_in x Hx Sx) as (? & ? & ? & -> & ->).
    destruct (Move_in y Hy Sy) as (? & ? & ? & -> & ->). lia.
  - destruct (Move_in x Hx Sx) as (? & ? & ? & -> & ->).
    destruct (Move_out y Hy Sy) as (Hlt & Ol & Or & _ & -> & ->).
    pose proof (rotate_out_side _ _ _ Hab Hc _ Ol).
    pose proof (rotate_out_side _ _ _ Hab Hc _ Or). lia.
  - destruct (Move_out x Hx Sx) as (Hlt & Ol & Or & _ & -> & ->).
    destruct (Move_in y Hy Sy) as (? & ? & ? & -> & ->).
    pose proof (rotate_out_side _ _ _ Hab Hc _ Ol).
    pose proof (rotate_out_side _ _ _ Hab Hc _ Or). lia.
  - destruct (Move_out x Hx Sx) as (_ & Olx & Orx & _ & -> & ->).
    destruct (Move_out y Hy Sy) as (_ & Oly & Ory & _ & -> & ->).
    rewrite !(rotate_out_lt _ _ _ Hab Hc) by assumption. exact Hs.
Qed.

(** Inside the moving branch, and outside it, enclosure is as before. *)
Local Lemma Move_encloses_same (x q : loc) :
  In x l -> In q l -> inS x = inS q -> encloses h' x q = encloses h x q.
Proof.
  intros Hx Hq HS.
  destruct Move_dest as (_ & ? & Hab & ? & ? & Hc).
  destruct (inS q) eqn:Sq.
  - destruct (Move_in x Hx HS) as (? & ? & ? & Lx & Rx).
    destruct (Move_in q Hq Sq) as (? & ? & ? & Lq & Rq).
    bool_eq; lia.
  - destruct (Move_out x Hx HS) as (_ & Olx & Orx & _ & Lx & Rx).
    destruct (Move_out q Hq Sq) as (_ & Olq & Orq & _ & Lq & Rq).
    bool_eq; rewrite Lx, Rx, Lq, Rq in *;
      rewrite !(rotate_out_lt _ _ _ Hab Hc) in * by assumption; tauto.
Qed.

Local Lemma Move_encloses_in_out (x q : loc) :
  In x l -> In q l -> inS x = true -> inS q = false ->
  encloses h' x q = false /\ encloses h x q = false.
Proof.
  intros Hx Hq Sx Sq.
  destruct Move_dest as (_ & ? & Hab & ? & ? & Hc).
  destruct (Move_in x Hx Sx) as (? & ? & ? & Lx & Rx).
  destruct (Move_out q Hq Sq) as (? & Ol & Or & ? & Lq & Rq).
  pose proof (rotate_out_side _ _ _ Hab Hc _ Ol).
  pose proof (rotate_out_side _ _ _ Hab Hc _ Or).
  pose proof (rotate_out_mono _ _ _ Hab Hc _ _ Ol Or).
  unfold outside in *.
  split; apply encloses_false; [rewrite Lx, Rx, Lq, Rq|]; lia.
Qed.

Local Lemma Move_encloses_out_in (x q : loc) :
  In x l -> In q l -> inS x = false -> inS q = true ->
  encloses h' x q = Nat.eqb x p || encloses h x p
  /\ encloses h x q = encloses h x node.
Proof.
  intros Hx Hq Sx Sq.
  destruct Move_dest as (_ & ? & Hab & ? & ? & Hc).
  destruct (Move_out x Hx Sx) as (? & Ol & Or & ? & Lx & Rx).
  destruct (Move_in q Hq Sq) as (? & ? & ? & Lq & Rq).
  destruct (Move_class p Hp) as (? & ? & ? & _).
  pose proof (rotate_out_side _ _ _ Hab Hc _ Ol).
  pose proof (rotate_out_side _ _ _ Hab Hc _ Or).
  unfold outside in *.
  split.
  - destruct (Nat.eqb_spec x p) as [Hxp|Hne]; cbn [orb].
    + apply encloses_true. rewrite Lx, Rx, Lq, Rq. rewrite Hxp in *. lia.
    + pose proof (wf_sep _ _ _ Hwf x p Hx Hp Hne) as Hs. unfold sep in Hs.
      bool_eq; rewrite Lx, Rx, Lq, Rq in *; lia.
  - bool_eq; lia.
Qed.

Local Lemma Move_level_out (q : loc) :
  In q l -> inS q = false -> depth h' l q = depth h l q.
Proof.
  intros Hq Sq. unfold depth. apply cnt_ext. intros x Hx.
  destruct (inS x) eqn:Sx.
  - destruct (Move_encloses_in_out x q Hx Hq Sx Sq) as [-> ->]. reflexivity.
  - apply Move_encloses_same; congruence.
Qed.

Local Lemma Move_level_in (q : loc) :
  In q l -> inS q = true ->
  depth h' l q = depth h l q + (depth h l p - depth h l node + 1).
Proof.
  intros Hq Sq. unfold depth.
  destruct Move_dest as (Sp & ? & ? & _).
  rewrite (cnt_split inS (fun x => encloses h' x q)).
  rewrite (cnt_split inS (fun x => encloses h x q)).
  rewrite (cnt_ext (fun x => inS x && encloses h' x q)
             (fun x => inS x && encloses h x q)).
  2:{ intros x Hx. destruct (inS x) eqn:Sx; [|reflexivity]. cbn [andb].
      apply Move_encloses_same; congruence. }
  rewrite (cnt_ext (fun x => negb (inS x) && encloses h' x q)
             (fun x => Nat.eqb x p || encloses h x p)).
  2:{ intros x Hx. destruct (inS x) eqn:Sx; cbn [negb andb].
      - destruct (Move_encloses_in_out x p Hx Hp Sx Sp) as [_ ->].
        destruct (Nat.eqb_spec x p) as [Hxp|]; [congruence|reflexivity].
      - now destruct (Move_encloses_out_in x q Hx Hq Sx Sq) as [-> _]. }
  rewrite (cnt_ext (fun x => negb (inS x) && encloses h x q)
             (fun x => encloses h x node)).
  2:{ intros x Hx. destruct (inS x) eqn:Sx; cbn [negb andb].
      - symmetry. apply encloses_false.
        apply inS_true in Sx. lia.
      - now destruct (Move_encloses_out_in x q Hx Hq Sx Sq) as [_ ->]. }
  rewrite (cnt_succ (fun x => encloses h x p)
             (fun x => Nat.eqb x p || encloses h x p) p);
    [lia | apply (wf_nodup _ _ _ Hwf) | assumption | | reflexivity].
  apply encloses_false. lia.
Qed.

Lemma Move_root_fixed :
  Left h' root = 0 /\ Right h' root = Right h root /\ inS root = false.
Proof.
  destruct Move_dest as (Sp & ? & Hab & ? & ? & Hc).
  pose proof (wf_root _ _ _ Hwf) as Hroot.
  destruct (Hold root Hroot) as (Lr & Rr & _).
  rewrite (wf_root_left _ _ _ Hwf) in Lr.
  rewrite Lr, Rr, !(rotate_fixed _ _ _ Hab Hc) by lia.
  repeat split. apply inS_false. rewrite (wf_root_left _ _ _ Hwf). lia.
Qed.

Lemma wf_Move : wf h' l root.
Proof.
  destruct Move_dest as (Sp & ? & Hab & ? & ? & Hc).
  destruct Move_root_fixed as (Lr' & Rr' & _).
  constructor.
  - apply (wf_nodup _ _ _ Hwf).
  - apply (wf_root _ _ _ Hwf).
  - assumption.
  - intros q Hq. rewrite Rr'.
    destruct (Move_class q Hq) as (? & ? & ? & _).
    destruct (inS q) eqn:Sq.
    + destruct (Move_in q Hq Sq) as (? & ? & ? & -> & ->).
      unfold slide. zifs; lia.
    + destruct (Move_out q Hq Sq) as (? & Ol & Or & _ & -> & ->).
      pose proof (rotate_out_mono _ _ _ Hab Hc _ _ Ol Or).
      unfold outside, rotate in *. zifs; lia.
  - apply Move_sep.
  - intros q Hq. destruct (Hold q Hq) as (_ & _ & ->).
    destruct (inS q) eqn:Sq.
    + rewrite Move_level_in by assumption.
      rewrite <- !(wf_level _ _ _ Hwf) by assumption. reflexivity.
    + rewrite Move_level_out by assumption. now apply (wf_level _ _ _ Hwf).
Qed.

End MovePreserves.

Lemma wf_perm (h : heap) (l l' : list loc) (root : loc) :
  Permutation l l' -> wf h l root -> wf h l' root.
Proof.
  intros Hperm Hwf.
  assert (Hin : forall x, In x l' -> In x l)
    by (intros x; apply Permutation_in, Permutation_sym, Hperm).
  constructor.
  - eapply Permutation_NoDup; [exact Hperm | apply (wf_nodup _ _ _ Hwf)].
  - eapply Permutation_in; [exact Hperm | apply (wf_root _ _ _ Hwf)].
  - apply (wf_root_left _ _ _ Hwf).
  - intros n Hn. apply (wf_bounds _ _ _ Hwf). auto.
  - intros a b Ha Hb. apply (wf_sep _ _ _ Hwf); auto.
  - intros n Hn. rewrite (wf_level _ _ _ Hwf) by auto.
    unfold depth. now apply cnt_perm.
Qed.

(** ** From the loops to the renumberings *)

Ltac node_simpl :=
  cbn [NodeLeft NodeRight NodeLevel NodeId NodeName withLeft withRight withLevel] in *.

Section Fields.

Lemma Add_fn_fields (r : Z) (v : Node) :
  NodeLeft v < NodeRight v -> NodeLeft v <> r ->
  min64 <= NodeLeft v -> NodeRight v + 2 <= max64 ->
  NodeLeft (Add_fn r v) = open_gap r (NodeLeft v)
  /\ NodeRight (Add_fn r v) = open_gap r (NodeRight v)
  /\ NodeLevel (Add_fn r v) = NodeLevel v.
Proof.
  intros Hlt Hne Hmin Hmax. unfold Add_fn, open_gap. node_simpl.
  rewrite Z.geb_leb, Z.gtb_ltb.
  destruct (Z.leb_spec r (NodeRight v)); destruct (Z.ltb_spec r (NodeLeft v));
    destruct (Z.leb_spec r (NodeLeft v)); node_simpl;
    rewrite ?add64_id by lia; repeat split; lia.
Qed.

Lemma Delete_fn_fields (nd v : Node) :
  0 <= NodeLeft nd -> NodeLeft nd < NodeRight nd -> NodeRight nd < max64 ->
  0 <= NodeLeft v -> NodeLeft v < NodeRight v -> NodeRight v <= max64 ->
  (NodeRight v < NodeLeft nd \/ NodeRight nd < NodeLeft v
   \/ (NodeLeft v < NodeLeft nd /\ NodeRight nd < NodeRight v)) ->
  NodeLeft (Delete_fn nd v) = close_gap (NodeLeft nd) (NodeRight nd) (NodeLeft v)
  /\ NodeRight (Delete_fn nd v) = close_gap (NodeLeft nd) (NodeRight nd) (NodeRight v)
  /\ NodeLevel (Delete_fn nd v) = NodeLevel v.
Proof.
  intros Ha Hab Hb Hv0 Hv Hv1 Hpos. unfold Delete_fn, survives, close_gap.
  unfold max64, min64 in *.
  rewrite !Z.gtb_ltb.
  rewrite (sub64_id (NodeRight nd)) by (unfold min64, max64; lia).
  rewrite (add64_id _ 1) by (unfold min64, max64; lia).
  destruct (Z.ltb_spec (NodeLeft v) (NodeLeft nd));
    destruct (Z.ltb_spec (NodeRight nd) (NodeRight v)); cbn [orb]; node_simpl;
    destruct (Z.ltb_spec (NodeLeft nd) (NodeLeft v)); node_simpl;
    destruct (Z.ltb_spec (NodeRight nd) (NodeLeft v)); node_simpl;
    rewrite ?sub64_id by (unfold min64, max64; lia); repeat split; lia.
Qed.

(** The locals of [Move] when nothing wraps. *)
Lemma Move_locals (h : heap) (node p : loc) :
  0 <= Left h node -> Left h node < Right h node -> Right h node < max64 ->
  0 < Right h p <= max64 ->
  0 <= Level h node <= max64 -> 0 <= Level h p < max64 ->
  rightNear h p = Right h p - 1
  /\ skewTree h node = Right h node - Left h node + 1
  /\ skewLevel h node p = Level h p - Level h node + 1
  /\ isUp h node p = (Right h p <=? Right h node)
  /\ skewEdit h node p = slide (Left h node) (Right h node) (Right h p).
Proof.
  intros Ha Hab Hb Hc Hl Hlp.
  assert (Hrn : rightNear h p = Right h p - 1)
    by (unfold rightNear; apply sub64_id; unfold min64, max64 in *; lia).
  assert (Hst : skewTree h node = Right h node - Left h node + 1).
  { unfold skewTree. rewrite sub64_id by (unfold min64, max64 in *; lia).
    apply add64_id. unfold min64, max64 in *. lia. }
  assert (Hup : isUp h node p = (Right h p <=? Right h node)).
  { unfold isUp. rewrite Hrn.
    destruct (Z.ltb_spec (Right h p - 1) (Right h node));
      destruct (Z.leb_spec (Right h p) (Right h node)); lia || reflexivity. }
  repeat split; try assumption.
  - unfold skewLevel. rewrite sub64_id by (unfold min64, max64 in *; lia).
    apply add64_id. unfold min64, max64 in *. lia.
  - unfold skewEdit, slide. rewrite Hup, Hst, Hrn.
    rewrite (sub64_id (Right h p - 1)) by (unfold min64, max64 in *; lia).
    rewrite (add64_id _ 1) by (unfold min64, max64 in *; lia).
    destruct (Right h p <=? Right h node); [lia|].
    rewrite sub64_id by (unfold min64, max64 in *; lia). lia.
Qed.

Lemma Move_up_fn_fields (a b c : Z) (v : Node) :
  0 <= a -> a < b -> b <= max64 -> 0 < c -> c < a ->
  0 <= NodeLeft v -> outside a b (NodeLeft v) -> outside a b (NodeRight v) ->
  0 <= NodeRight v ->
  NodeLeft (Move_up_fn a (c - 1) (b - a + 1) v) = rotate a b c (NodeLeft v)
  /\ NodeRight (Move_up_fn a (c - 1) (b - a + 1) v) = rotate a b c (NodeRight v)
  /\ NodeLevel (Move_up_fn a (c - 1) (b - a + 1) v) = NodeLevel v.
Proof.
  intros Ha Hab Hb Hc Hca Hl Hol Hor Hr. unfold Move_up_fn, rotate, outside in *.
  rewrite !Z.gtb_ltb.
  destruct (Z.ltb_spec (NodeRight v) a); destruct (Z.ltb_spec (c - 1) (NodeRight v));
    cbn [andb]; node_simpl;
    destruct (Z.ltb_spec (NodeLeft v) a); destruct (Z.ltb_spec (c - 1) (NodeLeft v));
    cbn [andb]; node_simpl;
    rewrite ?add64_id by (unfold min64, max64 in *; lia);
    repeat split; zifs; lia.
Qed.

Lemma Move_down_fn_fields (a b c : Z) (v : Node) :
  0 <= a -> a < b -> b < c -> c <= max64 ->
  0 <= NodeLeft v -> outside a b (NodeLeft v) -> outside a b (NodeRight v) ->
  0 <= NodeRight v -> NodeLeft v <= max64 -> NodeRight v <= max64 ->
  NodeLeft (Move_down_fn b (c - 1) (b - a + 1) v) = rotate a b c (NodeLeft v)
  /\ NodeRight (Move_down_fn b (c - 1) (b - a + 1) v) = rotate a b c (NodeRight v)
  /\ NodeLevel (Move_down_fn b (c - 1) (b - a + 1) v) = NodeLevel v.
Proof.
  intros Ha Hab Hbc Hc Hl Hol Hor Hr Hlm Hrm.
  unfold Move_down_fn, rotate, outside in *.
  rewrite !Z.gtb_ltb.
  destruct (Z.ltb_spec b (NodeRight v)); destruct (Z.leb_spec (NodeRight v) (c - 1));
    cbn [andb]; node_simpl;
    destruct (Z.ltb_spec b (NodeLeft v)); destruct (Z.leb_spec (NodeLeft v) (c - 1));
    cbn [andb]; node_simpl;
    rewrite ?sub64_id by (unfold min64, max64 in *; lia);
    repeat split; zifs; lia.
Qed.

(** Inside the moving range neither loop of the first phase fires. *)
Lemma Move_shift_in (a b c : Z) (v : Node) :
  a <= NodeLeft v -> NodeLeft v < NodeRight v -> NodeRight v <= b ->
  Move_up_fn a (c - 1) (b - a + 1) v = v
  /\ Move_down_fn b (c - 1) (b - a + 1) v = v.
Proof.
  intros H1 H2 H3. unfold Move_up_fn, Move_down_fn. rewrite !Z.gtb_ltb.
  destruct (Z.ltb_spec (NodeRight v) a); [lia|]. cbn [andb].
  destruct (Z.ltb_spec (NodeLeft v) a); [lia|]. cbn [andb].
  destruct (Z.ltb_spec b (NodeRight v)); [lia|]. cbn [andb].
  destruct (Z.ltb_spec b (NodeLeft v)); [lia|]. cbn [andb]. split; reflexivity.
Qed.

Lemma Move_update_fn_fields (se sl : Z) (v : Node) :
  min64 <= NodeLeft v + se <= max64 -> min64 <= NodeRight v + se <= max64 ->
  min64 <= NodeLevel v + sl <= max64 ->
  NodeLeft (Move_update_fn se sl v) = NodeLeft v + se
  /\ NodeRight (Move_update_fn se sl v) = NodeRight v + se
  /\ NodeLevel (Move_update_fn se sl v) = NodeLevel v + sl.
Proof.
  intros H1 H2 H3. unfold Move_update_fn. node_simpl.
  rewrite !add64_id by assumption. repeat split.
Qed.

End Fields.

(** ** Each call keeps the invariant *)

(** The invariant, in a store that at most [k] calls have built. *)
Definition good (k : Z) (w : world) : Prop := Inv w /\ within k w.

(** Calls the invariant is proved for: [Add] of a handle that is not in
    the store yet, any [Delete], [Move] of handles that are in the store. *)
Definition admissible (w : world) (c : call) : Prop :=
  match c with
  | CallAdd n _ => ~ In n (nodes (ns w))
  | CallDelete _ => True
  | CallMove n p => In n (nodes (ns w)) /\ member_or_nil (ns w) p
  end.

Fixpoint all_admissible (w : world) (cs : list call) : Prop :=
  match cs with
  | [] => True
  | c :: cs' => admissible w c /\ all_admissible (fst (exec w c)) cs'
  end.

Section Steps.

Lemma depth_range (h : heap) (l : list loc) (n : loc) :
  0 <= depth h l n <= Z.of_nat (length l).
Proof. unfold depth. split; [apply cnt_nonneg | apply cnt_le_length]. Qed.

(** A handle of the slice does not enclose itself. *)
Lemma depth_member (h : heap) (l : list loc) (n : loc) :
  In n l -> depth h l n < Z.of_nat (length l).
Proof.
  intros Hn. unfold depth.
  assert (Hall : cnt (fun _ => true) l = Z.of_nat (length l)).
  { clear Hn. induction l as [|x l' IH]; [reflexivity|].
    rewrite cnt_cons, IH. cbn [length]. lia. }
  rewrite <- Hall. apply (cnt_lt _ _ n); try assumption; try reflexivity.
  apply encloses_false. lia.
Qed.

Lemma good_ranges (k : Z) (w : world) (n : loc) :
  good k w -> In n (nodes (ns w)) ->
  0 <= Left (mem w) n /\ Left (mem w) n < Right (mem w) n
  /\ Right (mem w) n <= 2 * k + 1
  /\ 0 <= Level (mem w) n <= k.
Proof.
  intros [Hwf [Hlen HR]] Hn.
  destruct (wf_bounds _ _ _ Hwf n Hn) as (? & ? & ?).
  rewrite (wf_level _ _ _ Hwf n Hn).
  pose proof (depth_range (mem w) (nodes (ns w)) n).
  pose proof (depth_member (mem w) (nodes (ns w)) n Hn). lia.
Qed.

Lemma resolve_In (w : world) (parent : option loc) :
  Inv w -> member_or_nil (ns w) parent -> In (resolve (ns w) parent) (nodes (ns w)).
Proof.
  intros Hwf Hm. destruct parent as [p|]; [exact Hm|]. apply (wf_root _ _ _ Hwf).
Qed.

Lemma within_mono (k k' : Z) (w : world) : k <= k' -> within k w -> within k' w.
Proof. unfold within. lia. Qed.

(** In a store that satisfies the invariant, [Add] of a new handle opens a
    gap of two at the parent's right bound. *)
Lemma Add_renumber (k : Z) (w : world) (n : loc) (parent : option loc) :
  good k w -> 0 <= k -> k + 1 < 2 ^ 62 ->
  ~ In n (nodes (ns w)) ->
  snd (Add w n parent) = None ->
  let p := resolve (ns w) parent in
  let h' := mem (fst (Add w n parent)) in
  (forall q, In q (nodes (ns w)) ->
     Left h' q = open_gap (Right (mem w) p) (Left (mem w) q)
     /\ Right h' q = open_gap (Right (mem w) p) (Right (mem w) q)
     /\ Level h' q = Level (mem w) q)
  /\ (Left h' n = Right (mem w) p
      /\ Right h' n = Right (mem w) p + 1
      /\ Level h' n = Level (mem w) p + 1).
Proof.
  intros Hgood Hk0 Hk Hn Hnil. cbv zeta.
  pose proof Hgood as [Hwf [Hlen HR]].
  pose proof (proj1 (Add_nil _ _ _) Hnil) as Hm.
  pose proof (resolve_In w parent Hwf Hm) as Hp.
  destruct (Add_effect w n parent Hnil (wf_nodup _ _ _ Hwf))
    as (_ & _ & _ & Hmem).
  destruct (good_ranges k w _ Hgood Hp) as (Hp0 & Hp1 & Hp2 & Hp3).
  split.
  - intros q Hq. unfold Left, Right, Level. rewrite Hmem. cbv zeta.
    destruct (Nat.eqb_spec q n) as [->|_]; [contradiction|].
    rewrite (proj2 (memb_In q _) Hq).
    destruct (good_ranges k w q Hgood Hq) as (? & ? & ? & _).
    apply Add_fn_fields; unfold Left, Right, min64, max64 in *; try lia.
    destruct (Nat.eq_dec q (resolve (ns w) parent)) as [->|Hqp]; [lia|].
    pose proof (wf_sep _ _ _ Hwf q _ Hq Hp Hqp) as Hs.
    unfold sep, Left, Right in Hs. lia.
  - unfold Left, Right, Level. rewrite Hmem. cbv zeta.
    rewrite Nat.eqb_refl, (proj2 (memb_nIn n _) Hn). unfold Add_new.
    node_simpl.
    rewrite !add64_id by (unfold Left, Right, Level, min64, max64 in *; lia).
    repeat split.
Qed.

Lemma Inv_Add (k : Z) (w : world) (n : loc) (parent : option loc) :
  good k w -> 0 <= k -> k + 1 < 2 ^ 62 ->
  ~ In n (nodes (ns w)) ->
  snd (Add w n parent) = None ->
  good (k + 1) (fst (Add w n parent)).
Proof.
  intros Hgood Hk0 Hk Hn Hnil.
  pose proof Hgood as [Hwf [Hlen HR]].
  pose proof (proj1 (Add_nil _ _ _) Hnil) as Hm.
  pose proof (resolve_In w parent Hwf Hm) as Hp.
  destruct (Add_effect w n parent Hnil (wf_nodup _ _ _ Hwf))
    as (Hnodes & Hroot & _ & _).
  destruct (Add_renumber k w n parent Hgood Hk0 Hk Hn Hnil) as (Hold & Hnew).
  pose proof (wf_Add _ _ _ _ _ _ Hwf Hp Hn Hold Hnew) as Hwf'.
  split.
  - unfold Inv. rewrite Hnodes, Hroot. exact Hwf'.
  - unfold within. rewrite Hnodes, Hroot, length_app. cbn [length].
    pose proof (wf_root _ _ _ Hwf) as Hr.
    destruct (Hold _ Hr) as (_ & -> & _).
    destruct (wf_bounds _ _ _ Hwf _ Hp) as (_ & _ & Hpr).
    unfold open_gap. zifs; lia.
Qed.

(** In a store that satisfies the invariant, [Delete] closes the gap the
    deleted range leaves. *)
Lemma Delete_renumber (k : Z) (w : world) (nd : loc) :
  good k w -> 0 <= k < 2 ^ 62 ->
  snd (Delete w (Some nd)) = None ->
  forall q, In q (nodes (ns w)) ->
    survives (mem w nd) (mem w q) = true ->
    Left (mem (fst (Delete w (Some nd)))) q
      = close_gap (Left (mem w) nd) (Right (mem w) nd) (Left (mem w) q)
    /\ Right (mem (fst (Delete w (Some nd)))) q
       = close_gap (Left (mem w) nd) (Right (mem w) nd) (Right (mem w) q)
    /\ Level (mem (fst (Delete w (Some nd)))) q = Level (mem w) q.
Proof.
  intros Hgood Hk Hnil q Hq Hs.
  pose proof Hgood as [Hwf [Hlen HR]].
  destruct (proj1 (Delete_nil _ _) Hnil) as (x & Hx & Hne & Hnd).
  inversion Hx; subst x.
  destruct (Delete_effect w nd Hnil (wf_nodup _ _ _ Hwf)) as (_ & _ & _ & Hmem).
  pose proof (wf_root _ _ _ Hwf) as Hr.
  destruct (good_ranges k w nd Hgood Hnd) as (Ha & Hab & Hb & _).
  pose proof (wf_sep _ _ _ Hwf nd _ Hnd Hr Hne) as Hsr.
  destruct (wf_bounds _ _ _ Hwf nd Hnd) as (_ & _ & Hbr).
  pose proof (wf_root_left _ _ _ Hwf) as Hrl.
  unfold Left, Right, Level. rewrite Hmem.
  rewrite (proj2 (memb_In q _) Hq).
  destruct (good_ranges k w q Hgood Hq) as (? & ? & ? & _).
  assert (Hqn : q <> nd) by (intros ->; rewrite survives_self in Hs; discriminate).
  pose proof (wf_sep _ _ _ Hwf q nd Hq Hnd Hqn) as Hsep.
  unfold survives in Hs. rewrite orb_true_iff, Z.ltb_lt, Z.gtb_ltb, Z.ltb_lt in Hs.
  unfold sep, Left, Right in *.
  apply Delete_fn_fields; unfold min64, max64 in *; lia.
Qed.

Lemma Inv_Delete (k : Z) (w : world) (node : option loc) :
  good k w -> 0 <= k < 2 ^ 62 ->
  snd (Delete w node) = None ->
  good k (fst (Delete w node)).
Proof.
  intros Hgood Hk Hnil.
  pose proof Hgood as [Hwf [Hlen HR]].
  destruct (proj1 (Delete_nil _ _) Hnil) as (nd & -> & Hne & Hnd).
  destruct (Delete_effect w nd Hnil (wf_nodup _ _ _ Hwf))
    as (Hnodes & Hroot & _ & _).
  pose proof (wf_root _ _ _ Hwf) as Hr.
  pose proof (wf_sep _ _ _ Hwf nd _ Hnd Hr Hne) as Hsr.
  destruct (wf_bounds _ _ _ Hwf nd Hnd) as (Ha & Hab & Hbr).
  pose proof (wf_root_left _ _ _ Hwf) as Hrl.
  pose proof (Delete_renumber k w nd Hgood Hk Hnil) as Hold.
  pose proof (wf_Delete _ _ _ _ _ Hwf Hnd Hne Hold) as Hwf'.
  split.
  - unfold Inv. rewrite Hnodes, Hroot. exact Hwf'.
  - unfold within. rewrite Hnodes, Hroot. split.
    + pose proof (cnt_le_length (fun n => survives (mem w nd) (mem w n))
                    (nodes (ns w))) as Hc.
      unfold cnt in Hc. lia.
    + assert (Hkr : survives (mem w nd) (mem w (rootNode (ns w))) = true).
      { unfold survives. apply orb_true_iff. left. apply Z.ltb_lt.
        unfold sep, Left, Right in *. lia. }
      destruct (Hold _ Hr Hkr) as (_ & -> & _).
      unfold close_gap. zifs; lia.
Qed.

End Steps.

Section MoveStep.

Variables (k : Z) (w : world) (node : loc) (parent_arg : option loc).
Hypothesis Hgood : good k w.
Hypothesis Hk : 0 <= k < 2 ^ 62.
Hypothesis Hnode : In node (nodes (ns w)).
Hypothesis Hparent : member_or_nil (ns w) parent_arg.
Hypothesis Hnil : snd (Move w node parent_arg) = None.

Lemma Move_not_within :
  in_branch (mem w) node (resolve (ns w) parent_arg) = false.
Proof.
  rewrite Move_snd in Hnil. unfold Move_check in Hnil.
  destruct (Level (mem w) node =? 0); [discriminate|].
  destruct (in_branch _ _ _); [discriminate|reflexivity].
Qed.

(** In a store that satisfies the invariant, [Move] is the rotation. *)
Lemma Move_renumber (q : loc) :
  In q (nodes (ns w)) ->
  let h := mem w in
  let h' := mem (fst (Move w node parent_arg)) in
  let p := resolve (ns w) parent_arg in
  Left h' q = rotate (Left h node) (Right h node) (Right h p) (Left h q)
  /\ Right h' q = rotate (Left h node) (Right h node) (Right h p) (Right h q)
  /\ Level h' q = if in_branch h node q
                  then Level h q + (Level h p - Level h node + 1)
                  else Level h q.
Proof.
  intros Hq. cbv zeta.
  pose proof Hgood as [Hwf [Hlen HR]].
  pose proof (resolve_In w parent_arg Hwf Hparent) as Hp.
  pose proof Move_not_within as Hout.
  destruct (Move_effect w node parent_arg Hnil (wf_nodup _ _ _ Hwf))
    as (_ & _ & _ & Hmem).
  destruct (Move_dest _ _ _ node _ Hwf Hnode Hp Hout)
    as (_ & Ha & Hab & Hb & Hc & Hcc).
  destruct (good_ranges k w node Hgood Hnode) as (_ & _ & _ & Hln).
  destruct (good_ranges k w _ Hgood Hp) as (_ & _ & _ & Hlp).
  destruct (good_ranges k w q Hgood Hq) as (_ & _ & _ & Hlq).
  destruct (Move_locals (mem w) node (resolve (ns w) parent_arg))
    as (Hrn & Hst & Hsl & Hup & Hse); try (unfold max64; lia).
  destruct (Move_class _ _ _ node Hwf Hnode q Hq) as (Hq0 & Hq1 & Hq2 & Hcls).
  unfold Left, Right, Level in *. rewrite Hmem.
  rewrite (proj2 (memb_In node _) Hnode), (proj2 (memb_In q _) Hq). cbn [andb].
  unfold Move_shift. rewrite (proj2 (memb_In q _) Hq), Hrn, Hst, Hsl, Hup, Hse.
  unfold Left, Right.
  destruct Hcls as [(-> & Hin1 & Hin2)|(-> & Hcls)].
  - destruct (Move_shift_in (NodeLeft (mem w node)) (NodeRight (mem w node))
                (NodeRight (mem w (resolve (ns w) parent_arg))) (mem w q))
      as (-> & ->); try lia.
    assert (Hsame : forall (c : bool) (v : Node), (if c then v else v) = v)
      by (intros [] v; reflexivity).
    rewrite Hsame.
    rewrite !(rotate_in _ _ _ Hab Hcc) by lia.
    apply Move_update_fn_fields; unfold slide, min64, max64 in *; zifs; lia.
  - destruct (Z.leb_spec (NodeRight (mem w (resolve (ns w) parent_arg)))
                (NodeRight (mem w node))).
    + apply Move_up_fn_fields; unfold outside, max64 in *; lia.
    + apply Move_down_fn_fields; unfold outside, max64 in *; lia.
Qed.

Lemma Inv_Move : good k (fst (Move w node parent_arg)).
Proof.
  pose proof Hgood as [Hwf [Hlen HR]].
  pose proof (resolve_In w parent_arg Hwf Hparent) as Hp.
  destruct (Move_effect w node parent_arg Hnil (wf_nodup _ _ _ Hwf))
    as (Hnodes & Hroot & _ & _).
  pose proof (wf_Move _ _ _ _ _ _ Hwf Hnode Hp Move_not_within Move_renumber) as Hwf'.
  destruct (Move_root_fixed _ _ _ _ _ _ Hwf Hnode Hp Move_not_within Move_renumber)
    as (_ & HR' & _).
  split.
  - unfold Inv. rewrite Hnodes, Hroot.
    eapply wf_perm; [apply sort_nodes_perm | exact Hwf'].
  - unfold within. rewrite Hnodes, Hroot, HR'.
    rewrite <- (Permutation_length (sort_nodes_perm (mem w) (nodes (ns w)))).
    exact (conj Hlen HR).
Qed.

End MoveStep.

Section Runs.

Lemma exec_error (w : world) (c : call) (e : error) :
  snd (exec w c) = Some e -> fst (exec w c) = w.
Proof.
  destruct c as [n p|n|n p]; cbn [exec]; intros H.
  - now apply Add_error in H.
  - now apply Delete_error in H.
  - now apply Move_error in H.
Qed.

Lemma good_step (k : Z) (w : world) (c : call) :
  good k w -> 0 <= k -> k + 1 < 2 ^ 62 -> admissible w c ->
  good (k + 1) (fst (exec w c)).
Proof.
  intros Hgood Hk0 Hk Hadm.
  destruct (snd (exec w c)) as [e|] eqn:Hres.
  - rewrite (exec_error _ _ _ Hres). destruct Hgood as [Hwf Hin].
    split; [assumption|]. eapply within_mono; [|eassumption]. lia.
  - destruct c as [n p|n|n p]; cbn [exec admissible] in *.
    + now apply Inv_Add.
    + destruct (Inv_Delete k w n Hgood) as [Hwf Hin]; [lia|assumption|].
      split; [assumption|]. eapply within_mono; [|eassumption]. lia.
    + destruct Hadm as [Hn Hp].
      destruct (Inv_Move k w n p Hgood) as [Hwf Hin]; try assumption; [lia|].
      split; [assumption|]. eapply within_mono; [|eassumption]. lia.
Qed.

Lemma good_fresh (h : heap) (r : loc) : good 0 (NewNestedSet h r).
Proof.
  unfold NewNestedSet, good, Inv, within. cbn [mem ns nodes rootNode length].
  assert (HL : forall x, Left (SetName (SetRight (NewNode h r) r 1) r x) r = 0)
    by (intros x; unfold NewNode; heap_unfold; now rewrite !Nat.eqb_refl).
  assert (HR : forall x, Right (SetName (SetRight (NewNode h r) r 1) r x) r = 1)
    by (intros x; unfold NewNode; heap_unfold; now rewrite !Nat.eqb_refl).
  assert (HV : forall x, Level (SetName (SetRight (NewNode h r) r 1) r x) r = 0)
    by (intros x; unfold NewNode; heap_unfold; now rewrite !Nat.eqb_refl).
  split; [|rewrite HR; lia].
  constructor.
  - repeat constructor. intros [].
  - now left.
  - apply HL.
  - intros n [<-|[]]. rewrite HL, HR. lia.
  - intros a b [<-|[]] [<-|[]] Hab. congruence.
  - intros n [<-|[]]. rewrite HV. unfold depth. rewrite cnt_cons, cnt_nil.
    assert (encloses (SetName (SetRight (NewNode h r) r 1) r "Root node") r r = false)
      as -> by (apply encloses_false; lia).
    reflexivity.
Qed.

Lemma good_run (cs : list call) :
  forall (k : Z) (w : world),
    good k w -> 0 <= k -> k + Z.of_nat (length cs) < 2 ^ 62 ->
    all_admissible w cs ->
    good (k + Z.of_nat (length cs)) (run w cs).
Proof.
  induction cs as [|c cs IH]; intros k w Hgood Hk0 Hk Hadm.
  - cbn [run length]. now rewrite Z.add_0_r.
  - cbn [run length all_admissible] in *. destruct Hadm as [Hc Hcs].
    replace (k + Z.of_nat (S (length cs))) with ((k + 1) + Z.of_nat (length cs))
      in * by lia.
    apply IH; try assumption; try lia.
    apply good_step; try assumption. lia.
Qed.

End Runs.

(** * The invariants of the specification *)

(** ** Their statement *)

Definition disjoint (h : heap) (a b : loc) : Prop :=
  Right h a < Left h b \/ Right h b < Left h a.

(** The range of [a] lies in the range of [b]. *)
Definition nested (h : heap) (a b : loc) : Prop :=
  Left h b <= Left h a /\ Right h a <= Right h b.

(** [a] is reached from [b] by following [s.parent] zero or more times. *)
Inductive ancestor (w : world) (a : loc) : loc -> Prop :=
| ancestor_self : ancestor w a a
| ancestor_step (b q : loc) :
    parent w b = Some q -> ancestor w a q -> ancestor w a b.

(** The smallest ancestor that is not the node itself. *)
Definition immediate_parent (w : world) (a b : loc) : Prop :=
  a <> b /\ ancestor w a b
  /\ forall c, In c (nodes (ns w)) -> c <> b -> ancestor w c b -> ancestor w c a.

(** Invariant 1. *)
Definition left_before_right (w : world) : Prop :=
  forall n, In n (nodes (ns w)) -> Left (mem w) n < Right (mem w) n.

(** Invariant 2. *)
Definition no_partial_overlap (w : world) : Prop :=
  forall a b, In a (nodes (ns w)) -> In b (nodes (ns w)) ->
    disjoint (mem w) a b \/ nested (mem w) a b \/ nested (mem w) b a.

(** Invariant 3. *)
Definition ancestry_is_containment (w : world) : Prop :=
  forall a b, In a (nodes (ns w)) -> In b (nodes (ns w)) ->
    (ancestor w a b <-> nested (mem w) b a)
    /\ (Left (mem w) a = Left (mem w) b \/ Right (mem w) a = Right (mem w) b ->
        a = b).

(** Invariant 4. *)
Definition level_follows_parent (w : world) : Prop :=
  forall a b, In a (nodes (ns w)) -> In b (nodes (ns w)) ->
    immediate_parent w a b -> Level (mem w) b = Level (mem w) a + 1.

(** Invariant 5. *)
Definition root_contains_all (w : world) : Prop :=
  forall n, In n (nodes (ns w)) -> nested (mem w) n (rootNode (ns w)).

Definition nested_set_invariants (w : world) : Prop :=
  left_before_right w /\ no_partial_overlap w /\ ancestry_is_containment w
  /\ level_follows_parent w /\ root_contains_all w.

(** ** They follow from [good] *)

Section SpecInvariants.

Variables (k : Z) (w : world).
Hypothesis Hgood : good k w.
Hypothesis Hk : 0 <= k < 2 ^ 62.

Local Abbreviation h := (mem w).
Local Abbreviation l := (nodes (ns w)).

Lemma good_distinct (a b : loc) :
  In a l -> In b l -> Left h a = Left h b \/ Right h a = Right h b -> a = b.
Proof.
  intros Ha Hb Heq. destruct Hgood as [Hwf _].
  destruct (Nat.eq_dec a b) as [|Hne]; [assumption|].
  pose proof (wf_sep _ _ _ Hwf a b Ha Hb Hne) as Hs.
  destruct (wf_bounds _ _ _ Hwf a Ha) as (? & ? & ?).
  destruct (wf_bounds _ _ _ Hwf b Hb) as (? & ? & ?).
  unfold sep in Hs. lia.
Qed.

Lemma parent_some (b q : loc) :
  parent w b = Some q ->
  In q l /\ nested h b q /\ Level h q = sub64 (Level h b) 1.
Proof.
  unfold parent. intros Hf. apply find_some in Hf. destruct Hf as [Hin Hp].
  unfold is_parent_of in Hp.
  rewrite !andb_true_iff, Z.leb_le, Z.geb_leb, Z.leb_le, Z.eqb_eq in Hp.
  unfold nested. tauto.
Qed.

Lemma ancestor_nested (a b : loc) : ancestor w a b -> nested h b a.
Proof.
  induction 1 as [|b q Hpar _ IH].
  - unfold nested. lia.
  - apply parent_some in Hpar. unfold nested in *. lia.
Qed.

Lemma level_mono (x y : loc) :
  In x l -> In y l -> encloses h x y = true -> Level h x < Level h y.
Proof.
  intros Hx Hy Hxy. destruct Hgood as [Hwf _].
  rewrite (wf_level _ _ _ Hwf x Hx), (wf_level _ _ _ Hwf y Hy). unfold depth.
  apply encloses_true in Hxy.
  apply (cnt_lt _ _ x); try assumption.
  - intros z _ Hz. apply encloses_true in Hz. apply encloses_true. lia.
  - apply encloses_true. assumption.
  - apply encloses_false. lia.
Qed.

(** Two handles that enclose a third are nested in each other. *)
Lemma enclosers_chain (x y b : loc) :
  In x l -> In y l -> In b l -> x <> y ->
  encloses h x b = true -> encloses h y b = true ->
  encloses h x y = true \/ encloses h y x = true.
Proof.
  intros Hx Hy Hb Hne Hxb Hyb. destruct Hgood as [Hwf _].
  pose proof (wf_sep _ _ _ Hwf x y Hx Hy Hne) as Hs. unfold sep in Hs.
  destruct (wf_bounds _ _ _ Hwf b Hb) as (? & ? & ?).
  apply encloses_true in Hxb, Hyb.
  destruct Hs as [Hs|[Hs|[Hs|Hs]]]; try lia.
  - left. apply encloses_true. lia.
  - right. apply encloses_true. lia.
Qed.

(** Every enclosed handle has a parent that [s.parent] finds. *)
Lemma parent_found (a b : loc) :
  In a l -> In b l -> encloses h a b = true ->
  exists q, parent w b = Some q /\ In q l /\ encloses h q b = true
            /\ Level h q = Level h b - 1.
Proof.
  intros Ha Hb Hab. pose proof Hgood as [Hwf _].
  destruct (argmax (Left h) (filter (fun x => encloses h x b) l))
    as (m & Hm & Hmax).
  { intros Hnil. assert (Hin : In a (filter (fun x => encloses h x b) l))
      by (apply filter_In; now split).
    rewrite Hnil in Hin. contradiction. }
  apply filter_In in Hm. destruct Hm as [Hm Hmb].
  assert (Hlm : Level h b = Level h m + 1).
  { rewrite (wf_level _ _ _ Hwf b Hb), (wf_level _ _ _ Hwf m Hm). unfold depth.
    apply (cnt_succ _ _ m); try assumption; [apply (wf_nodup _ _ _ Hwf)| |].
    - apply encloses_false. lia.
    - intros x Hx. destruct (Nat.eqb_spec x m) as [->|Hne]; cbn [orb];
        [assumption|].
      destruct (encloses h x b) eqn:Hxb.
      + destruct (enclosers_chain x m b Hx Hm Hb Hne Hxb Hmb) as [H|H];
          [now rewrite H|].
        assert (Hle : Left h x <= Left h m)
          by (apply Hmax, filter_In; now split).
        apply encloses_true in H. lia.
      + symmetry. apply encloses_false. apply encloses_false in Hxb.
        apply encloses_true in Hmb. lia. }
  destruct (good_ranges k w b Hgood Hb) as (_ & _ & _ & Hlb).
  assert (Hsub : sub64 (Level h b) 1 = Level h b - 1)
    by (apply sub64_id; unfold min64, max64; lia).
  destruct (parent w b) as [q|] eqn:Hpar.
  - exists q. destruct (parent_some b q Hpar) as (Hq & Hn & Hlq).
    rewrite Hsub in Hlq. repeat split; try assumption.
    apply encloses_true. unfold nested in Hn.
    assert (Hqb : q <> b) by (intros ->; lia).
    pose proof (wf_sep _ _ _ Hwf q b Hq Hb Hqb) as Hs. unfold sep in Hs.
    destruct (wf_bounds _ _ _ Hwf b Hb) as (? & ? & ?). lia.
  - exfalso. unfold parent in Hpar.
    pose proof (find_none _ _ Hpar m Hm) as Hno. unfold is_parent_of in Hno.
    apply encloses_true in Hmb.
    rewrite Hsub in Hno.
    rewrite !andb_false_iff, Z.leb_gt, Z.geb_leb, Z.leb_gt, Z.eqb_neq in Hno. lia.
Qed.

Lemma nested_ancestor (a : loc) :
  In a l ->
  forall (n : nat) (b : loc),
    Z.to_nat (Level h b) = n -> In b l -> nested h b a -> ancestor w a b.
Proof.
  intros Ha. pose proof Hgood as [Hwf _].
  induction n as [|n IH]; intros b Hn Hb Hnest.
  - destruct (Nat.eq_dec a b) as [->|Hne]; [constructor|].
    exfalso. unfold nested in Hnest.
    pose proof (wf_sep _ _ _ Hwf a b Ha Hb Hne) as Hs. unfold sep in Hs.
    destruct (wf_bounds _ _ _ Hwf b Hb) as (? & ? & ?).
    assert (Hab : encloses h a b = true) by (apply encloses_true; lia).
    pose proof (level_mono a b Ha Hb Hab).
    destruct (good_ranges k w a Hgood Ha) as (_ & _ & _ & ?). lia.
  - destruct (Nat.eq_dec a b) as [->|Hne]; [constructor|].
    unfold nested in Hnest.
    pose proof (wf_sep _ _ _ Hwf a b Ha Hb Hne) as Hs. unfold sep in Hs.
    destruct (wf_bounds _ _ _ Hwf b Hb) as (? & ? & ?).
    assert (Hab : encloses h a b = true) by (apply encloses_true; lia).
    destruct (parent_found a b Ha Hb Hab) as (q & Hpar & Hq & Hqb & Hlq).
    apply (ancestor_step _ _ b q Hpar).
    destruct (Nat.eq_dec a q) as [->|Haq]; [constructor|].
    apply IH; try assumption; [lia|].
    destruct (enclosers_chain a q b Ha Hq Hb Haq Hab Hqb) as [H'|H'].
    + apply encloses_true in H'. unfold nested. lia.
    + pose proof (level_mono q a Hq Ha H').
      pose proof (level_mono a b Ha Hb Hab). lia.
Qed.

(** What [s.parent] finds is the immediate parent. *)
Lemma parent_is_immediate (a b : loc) :
  In b l -> parent w b = Some a -> immediate_parent w a b.
Proof.
  intros Hb Hpar. pose proof Hgood as [Hwf _].
  destruct (parent_some b a Hpar) as (Ha & Hn & Hl).
  destruct (good_ranges k w b Hgood Hb) as (_ & Hb1 & _ & Hlb).
  destruct (good_ranges k w a Hgood Ha) as (_ & _ & _ & Hla).
  assert (Hne : a <> b).
  { intros ->. pose proof (sub64_id (Level h b) 1) as Hs.
    destruct (Z.eq_dec (Level h b) 0) as [Hz|Hz].
    - rewrite Hz in Hl. vm_compute in Hl. discriminate.
    - rewrite Hs in Hl by (unfold min64, max64; lia). lia. }
  assert (Hab : encloses h a b = true).
  { apply encloses_true. unfold nested in Hn.
    pose proof (wf_sep _ _ _ Hwf a b Ha Hb Hne) as Hs. unfold sep in Hs. lia. }
  pose proof (level_mono a b Ha Hb Hab) as Hlt.
  assert (Hl' : Level h a = Level h b - 1).
  { rewrite Hl. apply sub64_id. unfold min64, max64. lia. }
  split; [assumption|]. split.
  - apply (ancestor_step _ _ b a Hpar). constructor.
  - intros c Hc Hcb Hanc. apply ancestor_nested in Hanc. unfold nested in Hanc.
    destruct (Nat.eq_dec c a) as [->|Hca]; [constructor|].
    assert (Hcb' : encloses h c b = true).
    { apply encloses_true.
      pose proof (wf_sep _ _ _ Hwf c b Hc Hb Hcb) as Hs. unfold sep in Hs. lia. }
    apply (nested_ancestor c Hc (Z.to_nat (Level h a))); try assumption;
      [reflexivity|].
    destruct (enclosers_chain c a b Hc Ha Hb Hca Hcb' Hab) as [H'|H'].
    + apply encloses_true in H'. unfold nested. lia.
    + pose proof (level_mono a c Ha Hc H').
      pose proof (level_mono c b Hc Hb Hcb'). lia.
Qed.

Lemma good_invariants : nested_set_invariants w.
Proof.
  pose proof Hgood as [Hwf _].
  assert (H3 : ancestry_is_containment w).
  { intros a b Ha Hb. split; [split|].
    - apply ancestor_nested.
    - now apply (nested_ancestor a Ha (Z.to_nat (Level h b))).
    - now apply good_distinct. }
  refine (conj _ (conj _ (conj H3 (conj _ _)))).
  - intros n Hn. now destruct (wf_bounds _ _ _ Hwf n Hn) as (? & ? & ?).
  - intros a b Ha Hb. destruct (Nat.eq_dec a b) as [->|Hne].
    + right. left. unfold nested. lia.
    + pose proof (wf_sep _ _ _ Hwf a b Ha Hb Hne) as Hs.
      unfold sep, disjoint, nested in *. lia.
  - intros a b Ha Hb (Hne & Hanc & Hmin).
    apply ancestor_nested in Hanc. unfold nested in Hanc.
    rewrite (wf_level _ _ _ Hwf b Hb), (wf_level _ _ _ Hwf a Ha). unfold depth.
    assert (Hab : encloses h a b = true).
    { apply encloses_true.
      pose proof (wf_sep _ _ _ Hwf a b Ha Hb Hne) as Hs. unfold sep in Hs.
      destruct (wf_bounds _ _ _ Hwf b Hb) as (? & ? & ?). lia. }
    apply (cnt_succ _ _ a); try assumption; [apply (wf_nodup _ _ _ Hwf)| |].
    + apply encloses_false. lia.
    + intros x Hx. destruct (Nat.eqb_spec x a) as [->|Hxa]; cbn [orb];
        [assumption|].
      destruct (encloses h x b) eqn:Hxb.
      * assert (Hxb' : x <> b) by (intros ->; apply encloses_true in Hxb; lia).
        apply encloses_true in Hxb.
        assert (Hanc' : ancestor w x b).
        { apply (proj1 (H3 x b Hx Hb)). unfold nested. lia. }
        pose proof (ancestor_nested _ _ (Hmin x Hx Hxb' Hanc')) as Hn.
        unfold nested in Hn. symmetry. apply encloses_true.
        pose proof (wf_sep _ _ _ Hwf x a Hx Ha Hxa) as Hs. unfold sep in Hs.
        destruct (wf_bounds _ _ _ Hwf a Ha) as (? & ? & ?). lia.
      * symmetry. apply encloses_false. apply encloses_false in Hxb.
        apply encloses_true in Hab. lia.
  - intros n Hn. unfold nested. rewrite (wf_root_left _ _ _ Hwf).
    destruct (wf_bounds _ _ _ Hwf n Hn) as (? & ? & ?). lia.
Qed.

End SpecInvariants.

(** * The claims *)

(** A heap in which every handle is what [NewNode()] returns. *)
Definition heap0 : heap := fun _ => zeroNode.

(** [NewNestedSet()] with its root at address 0. *)
Definition fresh : world := NewNestedSet heap0 0%nat.

(** [createTestNestedSet] of ns_test.go: [nodes[i]] is the handle [i]. *)
Definition fixture_calls : list call :=
  [CallAdd 1%nat None; CallAdd 2%nat (Some 1%nat); CallAdd 3%nat (Some 0%nat);
   CallAdd 4%nat (Some 3%nat); CallAdd 5%nat (Some 1%nat);
   CallAdd 6%nat (Some 4%nat)].

Definition fixture : world := run fresh fixture_calls.

(** What the tests read off a node: level, left, right. *)
Definition view (w : world) (n : loc) : Z * Z * Z :=
  (Level (mem w) n, Left (mem w) n, Right (mem w) n).

(** ** C1: invariant preservation *)

(** The same handle added twice. *)
Definition readd_calls : list call := [CallAdd 1%nat None; CallAdd 1%nat None].

(** C1, as stated, fails: both calls of [Add(N1, nil); Add(N1, nil)] on a
    fresh store return nil, and then the root is [0,5] while [N1] is [3,6],
    so the root's range does not contain [N1]'s (invariant 5). *)
Lemma readd_breaks_invariants :
  all_nil fresh readd_calls
  /\ view (run fresh readd_calls) 0%nat = (0, 0, 5)
  /\ view (run fresh readd_calls) 1%nat = (1, 3, 6)
  /\ ~ nested_set_invariants (run fresh readd_calls).
Proof.
  split; [|split; [|split]].
  - vm_compute. repeat split.
  - vm_compute. reflexivity.
  - vm_compute. reflexivity.
  - intros (_ & _ & _ & _ & H5).
    assert (Hin : In 1%nat (nodes (ns (run fresh readd_calls))))
      by (vm_compute; tauto).
    destruct (H5 _ Hin) as [_ Hr]. vm_compute in Hr. apply Hr. reflexivity.
Qed.

(** C1, amended: on a store built by [NewNestedSet], after any sequence of
    fewer than 2^62 [Add]/[Delete]/[Move] calls in which every [Add] is given
    a handle that is not yet in the store and every [Move] is given handles
    that are in the store (a nil parent standing for the root), invariants
    1-5 hold for the nodes of the store, whether or not each call returned
    nil. *)
Theorem invariants_preserved (h : heap) (r : loc) (cs : list call) :
  Z.of_nat (length cs) < 2 ^ 62 ->
  all_admissible (NewNestedSet h r) cs ->
  nested_set_invariants (run (NewNestedSet h r) cs).
Proof.
  intros Hlen Hadm.
  apply (good_invariants (0 + Z.of_nat (length cs))); [|lia].
  apply good_run; try assumption; try lia. apply good_fresh.
Qed.

(** The fixture, then the move of ns_test.go, then a delete. *)
Definition sample_calls : list call :=
  fixture_calls ++ [CallMove 4%nat (Some 2%nat); CallDelete (Some 1%nat)].

Lemma invariants_preserved_witness :
  Z.of_nat (length sample_calls) < 2 ^ 62
  /\ all_admissible fresh sample_calls
  /\ all_nil fresh sample_calls
  /\ nested_set_invariants (run fresh sample_calls).
Proof.
  assert (Hlen : Z.of_nat (length sample_calls) < 2 ^ 62) by reflexivity.
  assert (Hadm : all_admissible fresh sample_calls).
  { vm_compute. intuition discriminate. }
  refine (conj Hlen (conj Hadm (conj _ _))).
  - vm_compute. repeat split.
  - exact (invariants_preserved heap0 0%nat sample_calls Hlen Hadm).
Defined.

(** ** C2: the insertion rule and scenario A *)

(** The insertion rule in the words of the specification (4.1): [w] is the
    world before the call, [w'] the world after it, [p] the parent. *)
Definition insertion_rule (w w' : world) (newNode p : loc) : Prop :=
  let r := Right (mem w) p in
  Level (mem w') newNode = Level (mem w) p + 1
  /\ Left (mem w') newNode = r
  /\ Right (mem w') newNode = r + 1
  /\ (forall n, In n (nodes (ns w)) ->
        Right (mem w') n
          = (if Right (mem w) n >=? r then Right (mem w) n + 2 else Right (mem w) n)
        /\ Left (mem w') n
           = (if (Right (mem w) n >=? r) && (Left (mem w) n >? r)
              then Left (mem w) n + 2 else Left (mem w) n)
        /\ Level (mem w') n = Level (mem w) n)
  /\ nodes (ns w') = nodes (ns w) ++ [newNode].

Lemma Add_root (w : world) (n : loc) (parent : option loc) :
  rootNode (ns (fst (Add w n parent))) = rootNode (ns w).
Proof.
  unfold Add. destruct parent as [p|]; cbn [fst ns rootNode]; [|reflexivity].
  destruct (negb (exists_ (ns w) p)); reflexivity.
Qed.

Lemma Add_follows_rule (k : Z) (w : world) (n : loc) (parent : option loc) :
  good k w -> 0 <= k -> k + 1 < 2 ^ 62 ->
  ~ In n (nodes (ns w)) ->
  snd (Add w n parent) = None ->
  insertion_rule w (fst (Add w n parent)) n (resolve (ns w) parent).
Proof.
  intros Hgood Hk0 Hk Hn Hnil.
  pose proof Hgood as [Hwf _].
  destruct (Add_renumber k w n parent Hgood Hk0 Hk Hn Hnil) as (Hold & Hl & Hr & Hv).
  destruct (Add_effect w n parent Hnil (wf_nodup _ _ _ Hwf)) as (Hnodes & _).
  pose proof (resolve_In w parent Hwf (proj1 (Add_nil _ _ _) Hnil)) as Hp.
  unfold insertion_rule. cbv zeta.
  refine (conj Hv (conj Hl (conj Hr (conj _ Hnodes)))).
  intros q Hq. destruct (Hold q Hq) as (-> & -> & ->).
  destruct (wf_bounds _ _ _ Hwf q Hq) as (? & ? & ?).
  destruct (wf_bounds _ _ _ Hwf _ Hp) as (? & ? & ?).
  assert (Hne : Left (mem w) q <> Right (mem w) (resolve (ns w) parent)).
  { destruct (Nat.eq_dec q (resolve (ns w) parent)) as [->|Hqp]; [lia|].
    pose proof (wf_sep _ _ _ Hwf q _ Hq Hp Hqp) as Hs. unfold sep in Hs. lia. }
  unfold open_gap. rewrite Z.geb_leb, Z.gtb_ltb.
  repeat split.
  destruct (Z.leb_spec (Right (mem w) (resolve (ns w) parent)) (Right (mem w) q));
    destruct (Z.ltb_spec (Right (mem w) (resolve (ns w) parent)) (Left (mem w) q));
    destruct (Z.leb_spec (Right (mem w) (resolve (ns w) parent)) (Left (mem w) q));
    cbn [andb]; lia.
Qed.

(** Evaluate the closed right-hand side of an equation. *)
Ltac eval_rhs H :=
  match type of H with
  | ?x = ?y => let v := eval vm_compute in y in change (x = v) in H
  end.

(** C2: on a fresh store, [Add(N1, nil); Add(N2, nil); Add(N3, N1)] with
    three distinct new handles returns nil three times and leaves
    root = [0,7] at level 0, N1 = [1,4] at level 1, N3 = [2,3] at level 2 and
    N2 = [5,6] at level 1; each call follows the insertion rule. *)
Theorem scenario_A (h : heap) (r n1 n2 n3 : loc) :
  NoDup [r; n1; n2; n3] ->
  let w0 := NewNestedSet h r in
  let w1 := fst (Add w0 n1 None) in
  let w2 := fst (Add w1 n2 None) in
  let w3 := fst (Add w2 n3 (Some n1)) in
  snd (Add w0 n1 None) = None
  /\ snd (Add w1 n2 None) = None
  /\ snd (Add w2 n3 (Some n1)) = None
  /\ nodes (ns w3) = [r; n1; n2; n3]
  /\ view w3 r = (0, 0, 7)
  /\ view w3 n1 = (1, 1, 4)
  /\ view w3 n3 = (2, 2, 3)
  /\ view w3 n2 = (1, 5, 6)
  /\ insertion_rule w0 w1 n1 r
  /\ insertion_rule w1 w2 n2 r
  /\ insertion_rule w2 w3 n3 n1.
Proof.
  intros Hnd w0 w1 w2 w3.
  assert (Hd : r <> n1 /\ r <> n2 /\ r <> n3 /\ n1 <> n2 /\ n1 <> n3 /\ n2 <> n3).
  { inversion Hnd as [|? ? H1 Hnd1]; subst. inversion Hnd1 as [|? ? H2 Hnd2]; subst.
    inversion Hnd2 as [|? ? H3 _]; subst. cbn [In] in *. intuition congruence. }
  destruct Hd as (D1 & D2 & D3 & D4 & D5 & D6).
  (* the fresh store *)
  pose proof (good_fresh h r) as G0. fold w0 in G0.
  assert (N0 : nodes (ns w0) = [r]) by reflexivity.
  assert (R0 : rootNode (ns w0) = r) by reflexivity.
  assert (V0 : Level (mem w0) r = 0 /\ Left (mem w0) r = 0 /\ Right (mem w0) r = 1).
  { unfold w0, NewNestedSet, NewNode. cbn [mem]. heap_unfold.
    now rewrite !Nat.eqb_refl. }
  destruct V0 as (V0a & V0b & V0c).
  (* first call *)
  assert (A1 : snd (Add w0 n1 None) = None) by (apply Add_nil; exact I).
  assert (I1 : ~ In n1 (nodes (ns w0))) by (rewrite N0; cbn [In]; intuition congruence).
  pose proof (Add_follows_rule 0 w0 n1 None G0 ltac:(lia) ltac:(lia) I1 A1) as Rule1.
  pose proof (Inv_Add 0 w0 n1 None G0 ltac:(lia) ltac:(lia) I1 A1) as G1.
  fold w1 in Rule1, G1. cbn [resolve] in Rule1. rewrite R0 in Rule1.
  assert (R1 : rootNode (ns w1) = r) by (unfold w1; now rewrite Add_root).
  pose proof Rule1 as (L1v & L1l & L1r & L1old & N1).
  rewrite N0 in N1. cbn [app] in N1.
  destruct (L1old r) as (X1r & X1l & X1v); [rewrite N0; now left|].
  rewrite ?V0a, ?V0b, ?V0c in *.
  eval_rhs X1r. eval_rhs X1l. eval_rhs L1v. eval_rhs L1r.
  (* second call *)
  assert (A2 : snd (Add w1 n2 None) = None) by (apply Add_nil; exact I).
  assert (I2 : ~ In n2 (nodes (ns w1))) by (rewrite N1; cbn [In]; intuition congruence).
  pose proof (Add_follows_rule (0 + 1) w1 n2 None G1 ltac:(lia) ltac:(lia) I2 A2)
    as Rule2.
  pose proof (Inv_Add (0 + 1) w1 n2 None G1 ltac:(lia) ltac:(lia) I2 A2) as G2.
  fold w2 in Rule2, G2. cbn [resolve] in Rule2. rewrite R1 in Rule2.
  pose proof Rule2 as (L2v & L2l & L2r & L2old & N2).
  rewrite N1 in N2. cbn [app] in N2.
  destruct (L2old r) as (Y1r & Y1l & Y1v); [rewrite N1; now left|].
  destruct (L2old n1) as (Y2r & Y2l & Y2v); [rewrite N1; right; now left|].
  rewrite ?X1r, ?X1l, ?X1v, ?L1v, ?L1l, ?L1r in *.
  eval_rhs Y1r. eval_rhs Y1l. eval_rhs Y2r. eval_rhs Y2l. eval_rhs L2v. eval_rhs L2r.
  (* third call *)
  assert (M3 : In n1 (nodes (ns w2))) by (rewrite N2; right; now left).
  assert (A3 : snd (Add w2 n3 (Some n1)) = None) by (apply Add_nil; exact M3).
  assert (I3 : ~ In n3 (nodes (ns w2))) by (rewrite N2; cbn [In]; intuition congruence).
  pose proof (Add_follows_rule (0 + 1 + 1) w2 n3 (Some n1) G2
                ltac:(lia) ltac:(lia) I3 A3) as Rule3.
  fold w3 in Rule3. cbn [resolve] in Rule3.
  pose proof Rule3 as (L3v & L3l & L3r & L3old & N3).
  rewrite N2 in N3. cbn [app] in N3.
  destruct (L3old r) as (Z1r & Z1l & Z1v); [rewrite N2; now left|].
  destruct (L3old n1) as (Z2r & Z2l & Z2v); [rewrite N2; right; now left|].
  destruct (L3old n2) as (Z3r & Z3l & Z3v); [rewrite N2; right; right; now left|].
  rewrite ?Y1r, ?Y1l, ?Y1v, ?Y2r, ?Y2l, ?Y2v, ?L2v, ?L2l, ?L2r in *.
  eval_rhs Z1r. eval_rhs Z1l. eval_rhs Z2r. eval_rhs Z2l. eval_rhs Z3r. eval_rhs Z3l.
  eval_rhs L3v. eval_rhs L3r.
  unfold view.
  rewrite Z1r, Z1l, Z1v, Z2r, Z2l, Z2v, Z3r, Z3l, Z3v, L3v, L3l, L3r.
  repeat (split; [first [assumption | reflexivity]|]). assumption.
Qed.

Lemma scenario_A_witness :
  NoDup [0%nat; 1%nat; 2%nat; 3%nat]
  /\ view (fst (Add (fst (Add (fst (Add fresh 1%nat None)) 2%nat None))
                 3%nat (Some 1%nat))) 2%nat = (1, 5, 6).
Proof.
  assert (Hnd : NoDup [0%nat; 1%nat; 2%nat; 3%nat]).
  { repeat constructor; cbn [In]; intuition discriminate. }
  split; [exact Hnd|].
  exact (proj1 (proj2 (proj2 (proj2 (proj2 (proj2 (proj2 (proj2
           (scenario_A heap0 0%nat 1%nat 2%nat 3%nat Hnd))))))))).
Defined.

(** ** C3: a failed call changes nothing *)

(** C3: when [Add], [Delete] or [Move] returns a non-nil error, the world
    after the call is the world before it: the same slice of handles and the
    same record behind every handle.  In particular a [Move] whose parent
    lies in the range of the node fails, with an [InvalidArgument], and
    changes nothing. *)
Theorem failed_call_changes_nothing (w : world) (c : call) :
  (forall e, snd (exec w c) = Some e ->
     fst (exec w c) = w
     /\ nodes (ns (fst (exec w c))) = nodes (ns w)
     /\ forall q, view (fst (exec w c)) q = view w q)
  /\ (forall node parent_arg,
        c = CallMove node parent_arg ->
        in_branch (mem w) node (resolve (ns w) parent_arg) = true ->
        exists e, exec w c = (w, Some e) /\ kind_of e = InvalidArgument).
Proof.
  split.
  - intros e He.
    assert (Hw : fst (exec w c) = w).
    { destruct c as [n p|n|n p]; cbn [exec] in *.
      + now apply Add_error in He.
      + now apply Delete_error in He.
      + now apply Move_error in He. }
    rewrite Hw. repeat split.
  - intros node parent_arg -> Hin. cbn [exec].
    pose proof (Move_snd w node parent_arg) as Hs. unfold Move_check in Hs.
    rewrite Hin in Hs.
    destruct (Level (mem w) node =? 0).
    + exists ErrMoveRoot. split; [|reflexivity].
      rewrite (surjective_pairing (Move w node parent_arg)), Hs.
      now rewrite (Move_error _ _ _ _ Hs).
    + exists ErrMoveWithinItself. split; [|reflexivity].
      rewrite (surjective_pairing (Move w node parent_arg)), Hs.
      now rewrite (Move_error _ _ _ _ Hs).
Qed.

(** Scenario D on the fixture: node 3 cannot move under its grandchild 6. *)
Lemma failed_call_changes_nothing_witness :
  snd (exec fixture (CallMove 3%nat (Some 6%nat))) = Some ErrMoveWithinItself
  /\ fst (exec fixture (CallMove 3%nat (Some 6%nat))) = fixture.
Proof.
  assert (He : snd (exec fixture (CallMove 3%nat (Some 6%nat)))
               = Some ErrMoveWithinItself) by (vm_compute; reflexivity).
  split; [exact He|].
  exact (proj1 (proj1 (failed_call_changes_nothing fixture
                         (CallMove 3%nat (Some 6%nat))) _ He)).
Defined.

(** ** C4: handles that are not in the store *)

Lemma Add_unknown_parent (w : world) (n p : loc) :
  ~ In p (nodes (ns w)) -> Add w n (Some p) = (w, Some ErrParentNotFound).
Proof.
  intros Hp. unfold Add. apply memb_nIn in Hp. unfold exists_.
  fold (memb p (nodes (ns w))). now rewrite Hp.
Qed.

Lemma Delete_unknown_node (w : world) (n : loc) :
  n <> rootNode (ns w) -> ~ In n (nodes (ns w)) ->
  Delete w (Some n) = (w, Some ErrNodeNotFound).
Proof.
  intros Hr Hn. unfold Delete. apply Nat.eqb_neq in Hr. rewrite Hr.
  apply memb_nIn in Hn. unfold exists_. fold (memb n (nodes (ns w))).
  now rewrite Hn.
Qed.

(** A store with one node, after a second one was added and deleted again:
    handle 2 keeps the fields it had when it left the store. *)
Definition after_delete : world :=
  run fresh [CallAdd 1%nat None; CallAdd 2%nat None; CallDelete (Some 2%nat)].

(** The fixture after [Delete(nodes[1])]: handle 2 is out of the store. *)
Definition fixture_deleted : world := run fixture [CallDelete (Some 1%nat)].

(** C4, the code at two failing inputs.  [Move] never calls [s.exists]:
    with a parent that is not in the store it returns nil and renumbers
    the store (the root shrinks to [0,1] while node 1 goes to [2,3]); with
    a node that is not in the store it returns nil as well and leaves a
    member with left > right. *)
Theorem Move_ignores_membership :
  (~ In 2%nat (nodes (ns after_delete))
   /\ view after_delete 0%nat = (0, 0, 3)
   /\ view after_delete 1%nat = (1, 1, 2)
   /\ view after_delete 2%nat = (1, 3, 4)
   /\ snd (Move after_delete 1%nat (Some 2%nat)) = None
   /\ view (fst (Move after_delete 1%nat (Some 2%nat))) 0%nat = (0, 0, 1)
   /\ view (fst (Move after_delete 1%nat (Some 2%nat))) 1%nat = (2, 2, 3))
  /\ (~ In 2%nat (nodes (ns fixture_deleted))
      /\ nodes (ns fixture_deleted) = [0%nat; 3%nat; 4%nat; 6%nat]
      /\ snd (Move fixture_deleted 2%nat None) = None
      /\ view (fst (Move fixture_deleted 2%nat None)) 6%nat = (3, 3, 2)).
Proof.
  split; repeat split; try (vm_compute; reflexivity);
    vm_compute; intuition discriminate.
Qed.

(** ** C5: when Move fails *)

(** In a store that satisfies the invariant the members at level 0 are the
    root and nothing else. *)
Lemma level_zero_is_root (k : Z) (w : world) (n : loc) :
  good k w -> In n (nodes (ns w)) ->
  (Level (mem w) n = 0 <-> n = rootNode (ns w)).
Proof.
  intros [Hwf _] Hn. pose proof (wf_root _ _ _ Hwf) as Hr.
  pose proof (wf_root_left _ _ _ Hwf) as Hl.
  split.
  - intros Hz. destruct (Nat.eq_dec n (rootNode (ns w))) as [|Hne]; [assumption|].
    exfalso. rewrite (wf_level _ _ _ Hwf n Hn) in Hz. unfold depth in Hz.
    pose proof (wf_sep _ _ _ Hwf n _ Hn Hr Hne) as Hs. unfold sep in Hs.
    destruct (wf_bounds _ _ _ Hwf n Hn) as (? & ? & ?).
    pose proof (cnt_lt (fun _ => false) (fun x => encloses (mem w) x n)
                  (rootNode (ns w)) (nodes (ns w))) as Hlt.
    rewrite cnt_none in Hlt by reflexivity.
    apply Z.lt_irrefl with 0. rewrite <- Hz at 2. apply Hlt; try assumption.
    + discriminate.
    + apply encloses_true. lia.
    + reflexivity.
  - intros ->. rewrite (wf_level _ _ _ Hwf _ Hr). unfold depth.
    apply cnt_none. intros x Hx. apply encloses_false.
    destruct (wf_bounds _ _ _ Hwf x Hx) as (? & ? & ?). lia.
Qed.

(** In a store that satisfies the invariant, [s.parent] finds nothing for
    the root and something for every other member. *)
Lemma parent_none_iff (k : Z) (w : world) (n : loc) :
  good k w -> 0 <= k < 2 ^ 62 -> In n (nodes (ns w)) ->
  (parent w n = None <-> n = rootNode (ns w)).
Proof.
  intros Hgood Hk' Hn. pose proof Hgood as [Hwf _].
  pose proof (wf_root _ _ _ Hwf) as Hr.
  split.
  - intros Hnone. destruct (Nat.eq_dec n (rootNode (ns w))) as [|Hne]; [assumption|].
    exfalso.
    pose proof (wf_sep _ _ _ Hwf n _ Hn Hr Hne) as Hs. unfold sep in Hs.
    destruct (wf_bounds _ _ _ Hwf n Hn) as (? & ? & ?).
    pose proof (wf_root_left _ _ _ Hwf).
    assert (He : encloses (mem w) (rootNode (ns w)) n = true)
      by (apply encloses_true; lia).
    destruct (parent_found k w Hgood Hk' _ n Hr Hn He) as (q & Hq & _).
    congruence.
  - intros ->. destruct (parent w (rootNode (ns w))) as [q|] eqn:Hpar; [|reflexivity].
    exfalso. destruct (parent_some k w Hk' _ q Hpar) as (Hq & _ & Hl).
    rewrite (proj2 (level_zero_is_root k w _ Hgood Hr) eq_refl) in Hl.
    destruct (good_ranges k w q Hgood Hq) as (_ & _ & _ & Hlq).
    change (sub64 0 1) with (-1) in Hl. lia.
Qed.


Lemma good_fixture : good 6 fixture.
Proof.
  apply (good_run fixture_calls 0 fresh); try reflexivity; try lia.
  - apply good_fresh.
  - vm_compute. intuition discriminate.
Qed.




(** ** C6: the deletion rule and scenario B *)

(** The deletion rule in the words of the specification (4.2): [w] is the
    world before the call, [w'] the world after it. *)
Definition deletion_rule (w w' : world) (node : loc) : Prop :=
  let a := Left (mem w) node in
  let b := Right (mem w) node in
  let width := b - a + 1 in
  nodes (ns w') = filter (fun n => negb (in_branch (mem w) node n)) (nodes (ns w))
  /\ forall n, In n (nodes (ns w')) ->
       Right (mem w') n
         = (if Right (mem w) n >? b then Right (mem w) n - width else Right (mem w) n)
       /\ Left (mem w') n
          = (if Left (mem w) n >? a then Left (mem w) n - width else Left (mem w) n)
       /\ Level (mem w') n = Level (mem w) n.

Lemma survives_in_branch (h : heap) (nd n : loc) :
  survives (h nd) (h n) = negb (in_branch h nd n).
Proof.
  unfold survives, in_branch, Left, Right.
  rewrite negb_andb, Z.geb_leb, Z.gtb_ltb, <- Z.ltb_antisym, <- Z.ltb_antisym.
  reflexivity.
Qed.

Lemma Delete_follows_rule (k : Z) (w : world) (nd : loc) :
  good k w -> 0 <= k < 2 ^ 62 ->
  snd (Delete w (Some nd)) = None ->
  deletion_rule w (fst (Delete w (Some nd))) nd.
Proof.
  intros Hgood Hk Hnil. pose proof Hgood as [Hwf _].
  destruct (proj1 (Delete_nil _ _) Hnil) as (x & Hx & Hne & Hnd).
  inversion Hx; subst x.
  destruct (Delete_effect w nd Hnil (wf_nodup _ _ _ Hwf)) as (Hnodes & _).
  unfold deletion_rule. cbv zeta. split.
  - rewrite Hnodes. apply filter_ext. intros n. apply survives_in_branch.
  - intros n Hn. rewrite Hnodes in Hn. apply filter_In in Hn.
    destruct Hn as [Hn Hs].
    destruct (Delete_renumber k w nd Hgood Hk Hnil n Hn Hs) as (-> & -> & ->).
    assert (Hqn : n <> nd) by (intros ->; rewrite survives_self in Hs; discriminate).
    pose proof (wf_sep _ _ _ Hwf n nd Hn Hnd Hqn) as Hsep. unfold sep in Hsep.
    destruct (wf_bounds _ _ _ Hwf n Hn) as (? & ? & ?).
    destruct (wf_bounds _ _ _ Hwf nd Hnd) as (? & ? & ?).
    unfold survives in Hs. rewrite orb_true_iff, Z.ltb_lt, Z.gtb_ltb, Z.ltb_lt in Hs.
    fold (Left (mem w) n) (Left (mem w) nd) (Right (mem w) n) (Right (mem w) nd) in Hs.
    unfold close_gap. rewrite !Z.gtb_ltb.
    repeat split; zifs; lia.
Qed.

(** C6: on the fixture, [Delete] of node 1, whose range is [1,6], returns
    nil; the store goes from seven nodes to four, the three that leave being
    the nodes whose range lies in [1,6] (nodes 1, 2 and 5); the root's right
    goes from 13 to 7 = 13 - 6; and the survivors are renumbered by the
    deletion rule with width 6. *)
Theorem scenario_B :
  view fixture 1%nat = (1, 1, 6)
  /\ snd (Delete fixture (Some 1%nat)) = None
  /\ nodes (ns fixture) = [0; 1; 2; 3; 4; 5; 6]%nat
  /\ nodes (ns (fst (Delete fixture (Some 1%nat)))) = [0; 3; 4; 6]%nat
  /\ filter (in_branch (mem fixture) 1%nat) (nodes (ns fixture)) = [1; 2; 5]%nat
  /\ Right (mem fixture) 1%nat - Left (mem fixture) 1%nat + 1 = 6
  /\ Right (mem (fst (Delete fixture (Some 1%nat)))) 0%nat
     = Right (mem fixture) 0%nat - 6
  /\ view (fst (Delete fixture (Some 1%nat))) 0%nat = (0, 0, 7)
  /\ view (fst (Delete fixture (Some 1%nat))) 3%nat = (1, 1, 6)
  /\ view (fst (Delete fixture (Some 1%nat))) 4%nat = (2, 2, 5)
  /\ view (fst (Delete fixture (Some 1%nat))) 6%nat = (3, 3, 4)
  /\ deletion_rule fixture (fst (Delete fixture (Some 1%nat))) 1%nat.
Proof.
  repeat (split; [vm_compute; reflexivity|]).
  apply (Delete_follows_rule 6); [apply good_fixture | lia | vm_compute; reflexivity].
Qed.

(** ** C7: Move, the forward case *)

Lemma Move_up_fn_raw (a rn sk : Z) (v : Node) :
  NodeLeft (Move_up_fn a rn sk v)
    = (if (NodeLeft v <? a) && (NodeLeft v >? rn)
       then add64 (NodeLeft v) sk else NodeLeft v)
  /\ NodeRight (Move_up_fn a rn sk v)
     = (if (NodeRight v <? a) && (NodeRight v >? rn)
        then add64 (NodeRight v) sk else NodeRight v)
  /\ NodeLevel (Move_up_fn a rn sk v) = NodeLevel v.
Proof.
  unfold Move_up_fn.
  destruct ((NodeRight v <? a) && (NodeRight v >? rn)); node_simpl;
    destruct ((NodeLeft v <? a) && (NodeLeft v >? rn)); node_simpl;
    repeat split.
Qed.

Lemma Move_down_fn_raw (b rn sk : Z) (v : Node) :
  NodeLeft (Move_down_fn b rn sk v)
    = (if (NodeLeft v >? b) && (NodeLeft v <=? rn)
       then sub64 (NodeLeft v) sk else NodeLeft v)
  /\ NodeRight (Move_down_fn b rn sk v)
     = (if (NodeRight v >? b) && (NodeRight v <=? rn)
        then sub64 (NodeRight v) sk else NodeRight v)
  /\ NodeLevel (Move_down_fn b rn sk v) = NodeLevel v.
Proof.
  unfold Move_down_fn.
  destruct ((NodeRight v >? b) && (NodeRight v <=? rn)); node_simpl;
    destruct ((NodeLeft v >? b) && (NodeLeft v <=? rn)); node_simpl;
    repeat split.
Qed.

Lemma Move_update_fn_raw (se sl : Z) (v : Node) :
  NodeLeft (Move_update_fn se sl v) = add64 (NodeLeft v) se
  /\ NodeRight (Move_update_fn se sl v) = add64 (NodeRight v) se
  /\ NodeLevel (Move_update_fn se sl v) = add64 (NodeLevel v) sl.
Proof. unfold Move_update_fn. node_simpl. repeat split. Qed.

(** C7, as stated, fails: in [Move(nodes[4], nodes[2])] on the fixture
    (the forward case, rightNear = 2, left(node) = 8) node 1 has the range
    [1,6], which does not lie strictly between 2 and 8, and is no node of the
    moving branch, yet its right bound goes from 6 to 10. *)
Lemma Move_up_shifts_single_bounds :
  snd (Move fixture 4%nat (Some 2%nat)) = None
  /\ isUp (mem fixture) 4%nat 2%nat = true
  /\ rightNear (mem fixture) 2%nat = 2
  /\ Left (mem fixture) 4%nat = 8
  /\ view fixture 1%nat = (1, 1, 6)
  /\ in_branch (mem fixture) 4%nat 1%nat = false
  /\ view (fst (Move fixture 4%nat (Some 2%nat))) 1%nat = (1, 1, 10).
Proof. repeat split; vm_compute; reflexivity. Qed.

(** C7, amended: in a store whose slice holds no handle twice, a successful
    [Move(node, parent)] with rightNear = right(parent) - 1 < right(node)
    renumbers bound by bound: every member's right bound that lies strictly
    between rightNear and left(node) is increased by
    skewTree = right(node) - left(node) + 1, and so is every member's left
    bound that lies strictly between them, each on its own; then every
    node of the moving branch (the members whose range, read before those
    shifts, lies in the range of [node], when [node] is a member) has
    left and right increased by skewEdit = rightNear - left(node) + 1 and
    level increased by skewLevel = level(parent) - level(node) + 1; nothing
    else changes.  All sums are int64 sums. *)
Theorem Move_up_effect (w : world) (node : loc) (parent_arg : option loc) :
  NoDup (nodes (ns w)) ->
  snd (Move w node parent_arg) = None ->
  let h := mem w in
  let h' := mem (fst (Move w node parent_arg)) in
  let p := resolve (ns w) parent_arg in
  let rn := sub64 (Right h p) 1 in
  let left := Left h node in
  let skTree := add64 (sub64 (Right h node) left) 1 in
  let skEdit := add64 (sub64 rn left) 1 in
  let skLevel := add64 (sub64 (Level h p) (Level h node)) 1 in
  (rn <? Right h node) = true ->
  forall q,
    let member := memb q (nodes (ns w)) in
    let moving := memb node (nodes (ns w)) && member && in_branch h node q in
    let l1 := if member && ((Left h q <? left) && (Left h q >? rn))
              then add64 (Left h q) skTree else Left h q in
    let r1 := if member && ((Right h q <? left) && (Right h q >? rn))
              then add64 (Right h q) skTree else Right h q in
    Left h' q = (if moving then add64 l1 skEdit else l1)
    /\ Right h' q = (if moving then add64 r1 skEdit else r1)
    /\ Level h' q = (if moving then add64 (Level h q) skLevel else Level h q).
Proof.
  intros Hnd Hnil h h' p rn left skTree skEdit skLevel Hup q.
  subst h h' p rn left skTree skEdit skLevel. cbv zeta.
  destruct (Move_effect w node parent_arg Hnil Hnd) as (_ & _ & _ & Hmem).
  unfold Left, Right, Level in *. rewrite Hmem.
  unfold Move_shift, skewEdit, isUp, rightNear, skewTree, skewLevel.
  unfold Left, Right, Level. rewrite Hup.
  destruct (Move_up_fn_raw (NodeLeft (mem w node))
              (sub64 (NodeRight (mem w (resolve (ns w) parent_arg))) 1)
              (add64 (sub64 (NodeRight (mem w node)) (NodeLeft (mem w node))) 1)
              (mem w q)) as (E1 & E2 & E3).
  destruct (memb node (nodes (ns w))), (memb q (nodes (ns w))),
    (in_branch (mem w) node q); cbn [andb];
    rewrite ?(proj1 (Move_update_fn_raw _ _ _)),
      ?(proj1 (proj2 (Move_update_fn_raw _ _ _))),
      ?(proj2 (proj2 (Move_update_fn_raw _ _ _))), ?E1, ?E2, ?E3;
    repeat split.
Qed.

Lemma Move_up_effect_witness :
  NoDup (nodes (ns fixture))
  /\ snd (Move fixture 4%nat (Some 2%nat)) = None
  /\ (sub64 (Right (mem fixture) 2%nat) 1 <? Right (mem fixture) 4%nat) = true
  /\ Right (mem (fst (Move fixture 4%nat (Some 2%nat)))) 1%nat = 10.
Proof.
  assert (Hnd : NoDup (nodes (ns fixture))).
  { vm_compute. repeat constructor; cbn [In]; intuition discriminate. }
  assert (Hnil : snd (Move fixture 4%nat (Some 2%nat)) = None)
    by (vm_compute; reflexivity).
  assert (Hup : (sub64 (Right (mem fixture) 2%nat) 1 <? Right (mem fixture) 4%nat)
                = true) by (vm_compute; reflexivity).
  refine (conj Hnd (conj Hnil (conj Hup _))).
  rewrite (proj1 (proj2 (Move_up_effect fixture 4%nat (Some 2%nat) Hnd Hnil Hup 1%nat))).
  vm_compute. reflexivity.
Defined.

(** ** C8: Move, the backward case *)

(** Handle 1 added twice, then handle 2. *)
Definition twice_calls : list call :=
  [CallAdd 1%nat None; CallAdd 1%nat None; CallAdd 2%nat None].

(** C8, as stated, fails: after [Add(N1, nil); Add(N1, nil); Add(N2, nil)]
    the store holds root = [0,7], N1 = [3,10] and N2 = [5,6];
    [Move(N2, N1)] returns nil with right(N2) = 6 <= rightNear = 9, and the
    root's width goes from 7 to 5. *)
Lemma Move_down_changes_root_width :
  all_nil fresh twice_calls
  /\ view (run fresh twice_calls) 0%nat = (0, 0, 7)
  /\ view (run fresh twice_calls) 1%nat = (1, 3, 10)
  /\ view (run fresh twice_calls) 2%nat = (1, 5, 6)
  /\ snd (Move (run fresh twice_calls) 2%nat (Some 1%nat)) = None
  /\ rightNear (mem (run fresh twice_calls)) 1%nat = 9
  /\ view (fst (Move (run fresh twice_calls) 2%nat (Some 1%nat))) 0%nat = (0, 0, 5).
Proof. repeat split; vm_compute; reflexivity. Qed.

(** C8, amended: in a store that satisfies the invariant (as every store
    built by admissible calls does), a successful [Move(node, parent)] of
    members with right(node) <= rightNear = right(parent) - 1 takes the
    backward branch: every bound of a node outside the moving branch that
    is greater than right(node) and at most rightNear is decreased by
    skewTree = right(node) - left(node) + 1, the nodes of the moving branch
    are shifted by skewEdit = rightNear - left(node) + 1 - skewTree and
    their level by level(parent) - level(node) + 1, and the root keeps its
    left and its right, hence its width. *)
Theorem Move_down_effect (k : Z) (w : world) (node : loc) (parent_arg : option loc) :
  good k w -> 0 <= k < 2 ^ 62 ->
  In node (nodes (ns w)) -> member_or_nil (ns w) parent_arg ->
  snd (Move w node parent_arg) = None ->
  let h := mem w in
  let h' := mem (fst (Move w node parent_arg)) in
  let p := resolve (ns w) parent_arg in
  let root := rootNode (ns w) in
  Right h node <= rightNear h p ->
  isUp h node p = false
  /\ rightNear h p = Right h p - 1
  /\ skewTree h node = Right h node - Left h node + 1
  /\ skewEdit h node p = rightNear h p - Left h node + 1 - skewTree h node
  /\ (forall q, In q (nodes (ns w)) ->
        Left h' q
          = (if in_branch h node q then Left h q + skewEdit h node p
             else if (Left h q >? Right h node) && (Left h q <=? rightNear h p)
                  then Left h q - skewTree h node else Left h q)
        /\ Right h' q
           = (if in_branch h node q then Right h q + skewEdit h node p
              else if (Right h q >? Right h node) && (Right h q <=? rightNear h p)
                   then Right h q - skewTree h node else Right h q)
        /\ Level h' q
           = (if in_branch h node q
              then Level h q + (Level h p - Level h node + 1) else Level h q))
  /\ Left h' root = Left h root
  /\ Right h' root = Right h root
  /\ Right h' root - Left h' root = Right h root - Left h root.
Proof.
  intros Hgood Hk Hnode Hpar Hnil h h' p root Hle. subst h h' p root.
  pose proof Hgood as [Hwf [Hlen HR]].
  pose proof (resolve_In w parent_arg Hwf Hpar) as Hp.
  pose proof (Move_not_within w node parent_arg Hnil) as Hout.
  pose proof (Move_renumber k w node parent_arg Hgood Hk Hnode Hpar Hnil) as Hren.
  cbv zeta in Hren.
  destruct (Move_dest _ _ _ node _ Hwf Hnode Hp Hout)
    as (_ & Ha & Hab & Hb & Hc & Hcc).
  destruct (good_ranges k w node Hgood Hnode) as (_ & _ & _ & Hln).
  destruct (good_ranges k w _ Hgood Hp) as (_ & _ & _ & Hlp).
  destruct (Move_locals (mem w) node (resolve (ns w) parent_arg))
    as (Hrn & Hst & Hsl & Hup & Hse); try (unfold max64; lia).
  rewrite Hrn in Hle.
  assert (Hdown : (Right (mem w) (resolve (ns w) parent_arg)
                   <=? Right (mem w) node) = false) by (apply Z.leb_gt; lia).
  destruct (Move_root_fixed _ _ _ _ _ _ Hwf Hnode Hp Hout Hren) as (HL & HRr & _).
  rewrite HL, HRr, (wf_root_left _ _ _ Hwf), Hup, Hse, Hst, Hrn.
  unfold slide. rewrite Hdown.
  repeat split; try lia.
  all: destruct (Hren q H) as (E1 & E2 & E3); rewrite ?E1, ?E2, ?E3.
  all: destruct (Move_class _ _ _ node Hwf Hnode q H) as (? & ? & ? & Hcls).
  all: unfold rotate; rewrite ?Hdown, ?Z.gtb_ltb.
  all: destruct Hcls as [(-> & ? & ?)|(-> & Hcls)]; try reflexivity.
  all: repeat match goal with
         | |- context [?x <? ?y] => destruct (Z.ltb_spec x y)
         | |- context [?x <=? ?y] => destruct (Z.leb_spec x y)
         end; cbn [andb]; lia.
Qed.

(** The fixture: node 2 moves from under node 1 to under node 3. *)
Lemma Move_down_effect_witness :
  Right (mem fixture) 2%nat <= rightNear (mem fixture) 3%nat
  /\ snd (Move fixture 2%nat (Some 3%nat)) = None
  /\ isUp (mem fixture) 2%nat 3%nat = false
  /\ Right (mem (fst (Move fixture 2%nat (Some 3%nat)))) 0%nat = 13.
Proof.
  assert (Hle : Right (mem fixture) 2%nat <= rightNear (mem fixture) 3%nat)
    by (vm_compute; discriminate).
  assert (Hnil : snd (Move fixture 2%nat (Some 3%nat)) = None)
    by (vm_compute; reflexivity).
  assert (Hnode : In 2%nat (nodes (ns fixture))) by (vm_compute; tauto).
  assert (Hpar : member_or_nil (ns fixture) (Some 3%nat)) by (vm_compute; tauto).
  assert (Hk : 0 <= 6 < 2 ^ 62) by (split; [discriminate | reflexivity]).
  pose proof (Move_down_effect 6 fixture 2%nat (Some 3%nat) good_fixture Hk
                Hnode Hpar Hnil Hle) as (Hup & _ & _ & _ & _ & _ & HR & _).
  refine (conj Hle (conj Hnil (conj Hup _))).
  exact HR.
Defined.

(** ** C9: Branch *)

Lemma filter_perm (f : loc -> bool) (l l' : list loc) :
  Permutation l l' -> Permutation (filter f l) (filter f l').
Proof.
  induction 1 as [|x l l' _ IH|x y l|l l' l'' _ IH1 _ IH2]; cbn [filter].
  - constructor.
  - destruct (f x); [now constructor | assumption].
  - destruct (f x), (f y); try apply Permutation_refl. constructor.
  - now apply perm_trans with (filter f l').
Qed.

Lemma left_le_trans (h : heap) : Relations_1.Transitive (left_le h).
Proof. intros a b c. unfold left_le. lia. Qed.

(** C9: [Branch] changes no record (it only reorders the slice of the
    store).  [Branch(nil)] returns all the handles of the store in ascending
    order of left.  For a member [node], [Branch(node)] returns, in ascending
    order of left, exactly the handles of the store with
    left >= left(node) and right <= right(node).  For a non-nil handle that
    is not in the store it returns the nil slice. *)
Theorem Branch_spec (w : world) (node : option loc) :
  let h := mem w in
  let w' := fst (Branch w node) in
  let res := snd (Branch w node) in
  (forall q, mem w' q = h q)
  /\ Permutation (nodes (ns w)) (nodes (ns w'))
  /\ rootNode (ns w') = rootNode (ns w)
  /\ match node with
     | None =>
         exists l, res = Some l
           /\ Permutation (nodes (ns w)) l
           /\ StronglySorted (left_le h) l
     | Some nd =>
         (In nd (nodes (ns w)) ->
          exists l, res = Some l
            /\ StronglySorted (left_le h) l
            /\ Permutation (filter (in_branch h nd) (nodes (ns w))) l
            /\ forall x, In x l <->
                 In x (nodes (ns w))
                 /\ Left h nd <= Left h x /\ Right h x <= Right h nd)
         /\ (~ In nd (nodes (ns w)) -> res = None)
     end.
Proof.
  cbv zeta. unfold Branch, branch.
  pose proof (sort_nodes_perm (mem w) (nodes (ns w))) as Hperm.
  pose proof (sort_nodes_sorted (mem w) (nodes (ns w))) as Hsort.
  destruct node as [nd|]; cbn [fst snd mem ns nodes rootNode].
  - unfold exists_. cbn [nodes].
    fold (memb nd (sort_nodes (mem w) (nodes (ns w)))).
    rewrite memb_sort_nodes.
    destruct (memb nd (nodes (ns w))) eqn:Hm; cbn [negb fst snd mem ns nodes rootNode].
    + repeat split; try assumption.
      * intros _. eexists. split; [reflexivity|]. split; [|split].
        -- apply Sorted_StronglySorted; [apply left_le_trans|].
           now apply filter_sorted.
        -- now apply filter_perm.
        -- intros x. rewrite filter_In, sort_nodes_In. unfold in_branch.
           rewrite andb_true_iff, Z.geb_leb, !Z.leb_le. reflexivity.
      * intros Hn. apply memb_In in Hm. contradiction.
    + repeat split; try assumption.
      intros Hin. apply memb_In in Hin. congruence.
  - repeat split; try assumption.
    eexists. split; [reflexivity|]. split; [assumption|].
    apply Sorted_StronglySorted; [apply left_le_trans | assumption].
Qed.

(** ** C10: the root *)

Lemma exec_root (w : world) (c : call) :
  rootNode (ns (fst (exec w c))) = rootNode (ns w).
Proof.
  destruct c as [n p|n|n p]; cbn [exec].
  - apply Add_root.
  - unfold Delete. destruct n as [nd|]; [|reflexivity].
    destruct (Nat.eqb nd (rootNode (ns w))); [reflexivity|].
    destruct (negb (exists_ (ns w) nd)); [reflexivity|].
    destruct (fold_left _ _ _). reflexivity.
  - destruct (snd (Move w n p)) as [e|] eqn:Hres.
    + now rewrite (Move_error _ _ _ _ Hres).
    + unfold Move in *.
      destruct (Level (mem w) n =? 0); [discriminate|].
      destruct (_ && _); [discriminate|].
      destruct (parent w n) as [cp|]; [|discriminate].
      destruct (Nat.eqb cp _); [discriminate|].
      unfold branch. cbn [ns mem nodes rootNode maxId].
      destruct (negb _); cbn [fst snd ns mem]; destruct (_ <? _); reflexivity.
Qed.

Lemma run_root (cs : list call) (w : world) :
  rootNode (ns (run w cs)) = rootNode (ns w).
Proof.
  revert w. induction cs as [|c cs IH]; intros w; cbn [run]; [reflexivity|].
  now rewrite IH, exec_root.
Qed.

(** C10, as stated, fails: [Add(root, nil)] on a fresh store returns nil
    and leaves the root at level 1 with left = 1. *)
Lemma Add_of_root_moves_root :
  snd (Add fresh (rootNode (ns fresh)) None) = None
  /\ view fresh (rootNode (ns fresh)) = (0, 0, 1)
  /\ view (fst (Add fresh (rootNode (ns fresh)) None)) (rootNode (ns fresh))
     = (1, 1, 4).
Proof. repeat split; vm_compute; reflexivity. Qed.

(** What a call does to the right bound of the root [r]. *)
Definition root_right_step (w : world) (c : call) (r : loc) : Prop :=
  let w' := fst (exec w c) in
  match snd (exec w c), c with
  | Some _, _ => Right (mem w') r = Right (mem w) r
  | None, CallAdd _ _ => Right (mem w') r = Right (mem w) r + 2
  | None, CallDelete (Some nd) =>
      Right (mem w') r
      = Right (mem w) r - (Right (mem w) nd - Left (mem w) nd + 1)
  | None, CallDelete None => False
  | None, CallMove _ _ => Right (mem w') r = Right (mem w) r
  end.

(** C10, amended: on a store built by [NewNestedSet] with root [r], along
    any sequence of fewer than 2^62 [Add]/[Delete]/[Move] calls, successful
    or failing, in which every [Add] is given a handle that is not yet in
    the store and every [Move] is given handles that are in the store, the
    root handle stays [r], stays a member, and keeps level 0 and left 0;
    only its right changes: by +2 on a successful [Add], by minus the
    deleted width on a successful [Delete], and not at all on a [Move] or
    on a failing call. *)
Theorem root_is_fixed (h : heap) (r : loc) (cs : list call) (c : call) :
  Z.of_nat (length (cs ++ [c])) < 2 ^ 62 ->
  all_admissible (NewNestedSet h r) (cs ++ [c]) ->
  let w := run (NewNestedSet h r) cs in
  let w' := run (NewNestedSet h r) (cs ++ [c]) in
  (rootNode (ns w) = r /\ In r (nodes (ns w))
   /\ Level (mem w) r = 0 /\ Left (mem w) r = 0)
  /\ (rootNode (ns w') = r /\ In r (nodes (ns w'))
      /\ Level (mem w') r = 0 /\ Left (mem w') r = 0)
  /\ w' = fst (exec w c)
  /\ root_right_step w c r.
Proof.
  intros Hlen Hadm w w'.
  rewrite length_app in Hlen. cbn [length] in Hlen.
  assert (Hrun : forall l1 l2 w0, run w0 (l1 ++ l2) = run (run w0 l1) l2).
  { induction l1 as [|x l1 IH]; intros l2 w0; cbn [run app]; [reflexivity|apply IH]. }
  assert (Hadm' : forall l1 l2 w0,
             all_admissible w0 (l1 ++ l2) ->
             all_admissible w0 l1 /\ all_admissible (run w0 l1) l2).
  { induction l1 as [|x l1 IH]; intros l2 w0 Ha; cbn [run app all_admissible] in *.
    - now split.
    - destruct Ha as [Hx Ha]. destruct (IH _ _ Ha). repeat split; assumption. }
  destruct (Hadm' _ _ _ Hadm) as [Hcs Hc]. cbn [all_admissible] in Hc.
  destruct Hc as [Hc _]. fold w in Hc.
  assert (Hw' : w' = fst (exec w c)) by (unfold w', w; now rewrite Hrun).
  assert (G : good (0 + Z.of_nat (length cs)) w).
  { apply good_run; try assumption; try lia. apply good_fresh. }
  assert (Hk0 : 0 <= 0 + Z.of_nat (length cs)) by lia.
  assert (Hk1 : 0 + Z.of_nat (length cs) + 1 < 2 ^ 62) by lia.
  pose proof (good_step _ w c G Hk0 Hk1 Hc) as G'. rewrite <- Hw' in G'.
  assert (Rw : rootNode (ns w) = r) by (unfold w; now rewrite run_root).
  assert (Rw' : rootNode (ns w') = r) by (unfold w'; now rewrite run_root).
  assert (Hfacts : forall k v, good k v -> rootNode (ns v) = r ->
            rootNode (ns v) = r /\ In r (nodes (ns v))
            /\ Level (mem v) r = 0 /\ Left (mem v) r = 0).
  { intros k v Gv Rv. pose proof Gv as [Hwf _].
    pose proof (wf_root _ _ _ Hwf) as Hin. rewrite Rv in Hin.
    repeat split; try assumption.
    - apply (level_zero_is_root k v r Gv Hin). now symmetry.
    - rewrite <- Rv. apply (wf_root_left _ _ _ Hwf). }
  refine (conj (Hfacts _ _ G Rw) (conj (Hfacts _ _ G' Rw') (conj Hw' _))).
  pose proof G as [Hwf _].
  pose proof (wf_root _ _ _ Hwf) as Hin. rewrite Rw in Hin.
  unfold root_right_step. cbv zeta.
  destruct (snd (exec w c)) as [e|] eqn:Hres.
  { now rewrite (exec_error _ _ _ Hres). }
  destruct c as [n p|[nd|]|n p]; cbn [exec admissible] in *.
  - destruct (Add_renumber _ w n p G Hk0 Hk1 Hc Hres) as (Hold & _).
    destruct (Hold r Hin) as (_ & -> & _).
    pose proof (resolve_In w p Hwf (proj1 (Add_nil _ _ _) Hres)) as Hp.
    destruct (wf_bounds _ _ _ Hwf _ Hp) as (_ & _ & Hpr). rewrite Rw in Hpr.
    unfold open_gap. zifs; lia.
  - destruct (proj1 (Delete_nil _ _) Hres) as (x & Hx & Hne & Hnd).
    inversion Hx; subst x. rewrite Rw in Hne.
    pose proof (wf_sep _ _ _ Hwf nd r Hnd Hin Hne) as Hs. unfold sep in Hs.
    destruct (wf_bounds _ _ _ Hwf nd Hnd) as (? & ? & Hb). rewrite Rw in Hb.
    pose proof (wf_root_left _ _ _ Hwf) as Hl. rewrite Rw in Hl.
    assert (Hkeep : survives (mem w nd) (mem w r) = true).
    { unfold survives. apply orb_true_iff. left. apply Z.ltb_lt.
      unfold Left, Right in *. lia. }
    destruct (Delete_renumber _ w nd G ltac:(lia) Hres r Hin Hkeep) as (_ & -> & _).
    unfold close_gap. zifs; lia.
  - apply Delete_nil in Hres. destruct Hres as (x & Hx & _). discriminate.
  - destruct Hc as [Hn Hp].
    pose proof (resolve_In w p Hwf Hp) as Hp'.
    destruct (Move_root_fixed _ _ _ _ _ _ Hwf Hn Hp'
                (Move_not_within w n p Hres)
                (Move_renumber _ w n p G ltac:(lia) Hn Hp Hres)) as (_ & HR & _).
    rewrite Rw in HR. exact HR.
Qed.

Lemma root_is_fixed_witness :
  Z.of_nat (length (fixture_calls ++ [CallDelete (Some 1%nat)])) < 2 ^ 62
  /\ all_admissible fresh (fixture_calls ++ [CallDelete (Some 1%nat)])
  /\ root_right_step fixture (CallDelete (Some 1%nat)) 0%nat.
Proof.
  assert (Hlen : Z.of_nat (length (fixture_calls ++ [CallDelete (Some 1%nat)]))
                 < 2 ^ 62) by reflexivity.
  assert (Hadm : all_admissible fresh (fixture_calls ++ [CallDelete (Some 1%nat)])).
  { vm_compute. intuition discriminate. }
  refine (conj Hlen (conj Hadm _)).
  exact (proj2 (proj2 (proj2
           (root_is_fixed heap0 0%nat fixture_calls (CallDelete (Some 1%nat))
              Hlen Hadm)))).
Defined.

(** * Further properties of the store *)

(** ** Identifiers *)

Section Identifiers.

Lemma Add_fn_id (r : Z) (v : Node) : NodeId (Add_fn r v) = NodeId v.
Proof.
  unfold Add_fn. destruct (NodeRight v >=? r); [|reflexivity]. node_simpl.
  destruct (NodeLeft v >? r); reflexivity.
Qed.

Lemma Delete_fn_id (nd v : Node) : NodeId (Delete_fn nd v) = NodeId v.
Proof.
  unfold Delete_fn. destruct (survives nd v); [|reflexivity].
  destruct (NodeRight v >? NodeRight nd); node_simpl;
    destruct (NodeLeft v >? NodeLeft nd); reflexivity.
Qed.

Lemma Move_up_fn_id (a rn sk : Z) (v : Node) :
  NodeId (Move_up_fn a rn sk v) = NodeId v.
Proof.
  unfold Move_up_fn.
  destruct ((NodeRight v <? a) && (NodeRight v >? rn)); node_simpl;
    destruct ((NodeLeft v <? a) && (NodeLeft v >? rn)); reflexivity.
Qed.

Lemma Move_down_fn_id (b rn sk : Z) (v : Node) :
  NodeId (Move_down_fn b rn sk v) = NodeId v.
Proof.
  unfold Move_down_fn.
  destruct ((NodeRight v >? b) && (NodeRight v <=? rn)); node_simpl;
    destruct ((NodeLeft v >? b) && (NodeLeft v <=? rn)); reflexivity.
Qed.

Lemma Move_update_fn_id (se sl : Z) (v : Node) :
  NodeId (Move_update_fn se sl v) = NodeId v.
Proof. reflexivity. Qed.

(** [Add] writes the next identifier into the new handle and no other. *)
Lemma Add_ids (w : world) (n : loc) (parent : option loc) :
  snd (Add w n parent) = None -> NoDup (nodes (ns w)) -> ~ In n (nodes (ns w)) ->
  (forall q, q <> n -> Id (mem (fst (Add w n parent))) q = Id (mem w) q)
  /\ Id (mem (fst (Add w n parent))) n = add64 (maxId (ns w)) 1
  /\ maxId (ns (fst (Add w n parent))) = add64 (maxId (ns w)) 1.
Proof.
  intros Hnil Hnd Hn.
  destruct (Add_effect w n parent Hnil Hnd) as (_ & _ & Hmax & Hmem).
  refine (conj _ (conj _ Hmax)).
  - intros q Hq. unfold Id. rewrite Hmem. cbv zeta.
    apply Nat.eqb_neq in Hq. rewrite Hq.
    destruct (memb q (nodes (ns w))); [apply Add_fn_id | reflexivity].
  - unfold Id. rewrite Hmem. cbv zeta.
    rewrite Nat.eqb_refl, (proj2 (memb_nIn n _) Hn). reflexivity.
Qed.

Lemma Delete_ids (w : world) (nd : loc) :
  snd (Delete w (Some nd)) = None -> NoDup (nodes (ns w)) ->
  (forall q, Id (mem (fst (Delete w (Some nd)))) q = Id (mem w) q)
  /\ maxId (ns (fst (Delete w (Some nd)))) = maxId (ns w).
Proof.
  intros Hnil Hnd.
  destruct (Delete_effect w nd Hnil Hnd) as (_ & _ & Hmax & Hmem).
  split; [|exact Hmax].
  intros q. unfold Id. rewrite Hmem.
  destruct (memb q (nodes (ns w))); [apply Delete_fn_id | reflexivity].
Qed.

Lemma Move_ids (w : world) (node : loc) (parent_arg : option loc) :
  snd (Move w node parent_arg) = None -> NoDup (nodes (ns w)) ->
  (forall q, Id (mem (fst (Move w node parent_arg))) q = Id (mem w) q)
  /\ maxId (ns (fst (Move w node parent_arg))) = maxId (ns w).
Proof.
  intros Hnil Hnd.
  destruct (Move_effect w node parent_arg Hnil Hnd) as (_ & _ & Hmax & Hmem).
  split; [|exact Hmax].
  intros q. unfold Id. rewrite Hmem.
  assert (Hs : NodeId (Move_shift (mem w) (nodes (ns w)) node
                         (resolve (ns w) parent_arg) q) = NodeId (mem w q)).
  { unfold Move_shift. destruct (memb q (nodes (ns w))); [|reflexivity].
    destruct (isUp _ _ _); [apply Move_up_fn_id | apply Move_down_fn_id]. }
  destruct (_ && _); [rewrite Move_update_fn_id|]; exact Hs.
Qed.

(** The identifiers in the store: the counter bounds them, and no two
    members share one. *)
Definition ids_ok (k : Z) (w : world) : Prop :=
  0 <= maxId (ns w) <= k
  /\ (forall n, In n (nodes (ns w)) -> 0 <= Id (mem w) n <= maxId (ns w))
  /\ (forall a b, In a (nodes (ns w)) -> In b (nodes (ns w)) ->
        Id (mem w) a = Id (mem w) b -> a = b).

Lemma ids_fresh (h : heap) (r : loc) : ids_ok 0 (NewNestedSet h r).
Proof.
  unfold ids_ok, NewNestedSet. cbn [mem ns nodes maxId].
  assert (HI : Id (SetName (SetRight (NewNode h r) r 1) r "Root node") r = 0)
    by (unfold NewNode; heap_unfold; now rewrite !Nat.eqb_refl).
  repeat split; try lia.
  - destruct H as [<-|[]]. rewrite HI. lia.
  - destruct H as [<-|[]]. rewrite HI. lia.
  - intros a b [<-|[]] [<-|[]] _. reflexivity.
Qed.

Lemma ids_step (k : Z) (w : world) (c : call) :
  good k w -> ids_ok k w -> 0 <= k -> k + 1 < 2 ^ 62 -> admissible w c ->
  ids_ok (k + 1) (fst (exec w c)).
Proof.
  intros [Hwf _] (Hmax & Hrange & Hinj) Hk0 Hk Hadm.
  pose proof (wf_nodup _ _ _ Hwf) as Hnd.
  destruct (snd (exec w c)) as [e|] eqn:Hres.
  { rewrite (exec_error _ _ _ Hres). repeat split; try assumption; try lia;
      now apply Hrange. }
  destruct c as [n p|[nd|]|n p]; cbn [exec admissible] in *.
  - destruct (Add_ids w n p Hres Hnd Hadm) as (Hold & Hnew & Hm).
    destruct (Add_effect w n p Hres Hnd) as (Hnodes & _).
    assert (Hm' : add64 (maxId (ns w)) 1 = maxId (ns w) + 1)
      by (apply add64_id; unfold min64, max64; lia).
    rewrite Hm' in *.
    assert (Hq : forall q, In q (nodes (ns w)) -> q <> n)
      by (intros q Hq ->; contradiction).
    unfold ids_ok. rewrite Hnodes, Hm.
    split; [lia|]. split.
    + intros q Hin. apply in_app_or in Hin. destruct Hin as [Hin|[<-|[]]].
      * rewrite (Hold q (Hq q Hin)). specialize (Hrange q Hin). lia.
      * rewrite Hnew. lia.
    + intros a b Ha Hb. apply in_app_or in Ha, Hb.
      destruct Ha as [Ha|[<-|[]]]; destruct Hb as [Hb|[<-|[]]];
        rewrite ?(Hold a (Hq a Ha)), ?(Hold b (Hq b Hb)), ?Hnew.
      * now apply Hinj.
      * specialize (Hrange a Ha). lia.
      * specialize (Hrange b Hb). lia.
      * reflexivity.
  - destruct (Delete_ids w nd Hres Hnd) as (Hold & Hm).
    destruct (Delete_effect w nd Hres Hnd) as (Hnodes & _).
    unfold ids_ok. rewrite Hnodes, Hm.
    split; [lia|]. split.
    + intros q Hin. apply filter_In in Hin. rewrite Hold. now apply Hrange.
    + intros a b Ha Hb. apply filter_In in Ha, Hb. rewrite !Hold.
      now apply Hinj.
  - apply Delete_nil in Hres. destruct Hres as (x & Hx & _). discriminate.
  - destruct (Move_ids w n p Hres Hnd) as (Hold & Hm).
    destruct (Move_effect w n p Hres Hnd) as (Hnodes & _).
    unfold ids_ok. rewrite Hnodes, Hm.
    split; [lia|]. split.
    + intros q Hin. apply sort_nodes_In in Hin. rewrite Hold. now apply Hrange.
    + intros a b Ha Hb. apply sort_nodes_In in Ha, Hb. rewrite !Hold.
      now apply Hinj.
Qed.

End Identifiers.

(** ** Sizes of branches *)

(** The width of a range, and the number of handles of the slice that lie
    in it (the length of what [branch] collects). *)
Definition width (h : heap) (n : loc) : Z := Right h n - Left h n + 1.
Definition size (h : heap) (l : list loc) (n : loc) : Z := cnt (in_branch h n) l.

(** A range is twice as wide as its branch is long. *)
Definition sizes_ok (h : heap) (l : list loc) : Prop :=
  forall n, In n l -> width h n = 2 * size h l n.

Lemma in_branch_true (h : heap) (n x : loc) :
  in_branch h n x = true <-> Left h n <= Left h x /\ Right h x <= Right h n.
Proof.
  unfold in_branch. rewrite andb_true_iff, Z.geb_leb, !Z.leb_le. reflexivity.
Qed.

Lemma in_branch_false (h : heap) (n x : loc) :
  in_branch h n x = false <-> ~ (Left h n <= Left h x /\ Right h x <= Right h n).
Proof.
  rewrite <- in_branch_true. destruct (in_branch h n x); split; congruence.
Qed.

(** Settle an equation between two [in_branch] tests by arithmetic. *)
Ltac inb_eq :=
  match goal with
  | |- ?a = ?b =>
      let E1 := fresh "E" in
      let E2 := fresh "E" in
      destruct a eqn:E1; destruct b eqn:E2; try reflexivity; exfalso;
      first [apply in_branch_true in E1 | apply in_branch_false in E1];
      first [apply in_branch_true in E2 | apply in_branch_false in E2]
  end.

Lemma cnt_const_false (l : list loc) : cnt (fun _ => false) l = 0.
Proof. now apply cnt_none. Qed.

(** Over the handles that pass [S], a test that is constant there counts
    all of them or none. *)
Lemma cnt_and_const (S P : loc -> bool) (c : bool) (l : list loc) :
  (forall x, In x l -> S x = true -> P x = c) ->
  cnt (fun x => S x && P x) l = if c then cnt S l else 0.
Proof.
  intros H. destruct c.
  - apply cnt_ext. intros x Hx. destruct (S x) eqn:E; [|reflexivity].
    cbn [andb]. now apply H.
  - apply cnt_none. intros x Hx. destruct (S x) eqn:E; [|reflexivity].
    cbn [andb]. now apply H.
Qed.

Lemma Add_sizes (h h' : heap) (l : list loc) (root p n : loc) :
  wf h l root -> In p l -> ~ In n l ->
  (forall q, In q l ->
     Left h' q = open_gap (Right h p) (Left h q)
     /\ Right h' q = open_gap (Right h p) (Right h q)
     /\ Level h' q = Level h q) ->
  Left h' n = Right h p /\ Right h' n = Right h p + 1
  /\ Level h' n = Level h p + 1 ->
  sizes_ok h l -> sizes_ok h' (l ++ [n]).
Proof.
  intros Hwf Hp Hn Hold (Ln & Rn & _) Hsz q Hq.
  unfold size. rewrite cnt_app, cnt_cons, cnt_nil.
  apply in_app_or in Hq. destruct Hq as [Hq|[<-|[]]].
  - destruct (Hold q Hq) as (Lq & Rq & _).
    destruct (wf_bounds _ _ _ Hwf q Hq) as (? & ? & ?).
    rewrite (cnt_ext (in_branch h' q) (in_branch h q)).
    2:{ intros x Hx. destruct (Hold x Hx) as (Lx & Rx & _).
        inb_eq; rewrite Lx, Rx, Lq, Rq in *; unfold open_gap in *; zifs; lia. }
    specialize (Hsz q Hq). unfold size in Hsz. unfold width in *.
    destruct (in_branch h' q n) eqn:E;
      [apply in_branch_true in E | apply in_branch_false in E];
      rewrite Lq, Rq, Ln, Rn in *; unfold open_gap in *; zifs; lia.
  - rewrite (cnt_none (in_branch h' n)).
    2:{ intros x Hx. destruct (Hold x Hx) as (Lx & Rx & _).
        destruct (wf_bounds _ _ _ Hwf x Hx) as (? & ? & ?).
        apply in_branch_false. rewrite Lx, Rx, Ln, Rn. unfold open_gap.
        zifs; lia. }
    assert (in_branch h' n n = true) as -> by (apply in_branch_true; lia).
    unfold width. lia.
Qed.

Lemma Delete_sizes (h h' : heap) (l : list loc) (root nd : loc) :
  wf h l root -> In nd l -> nd <> root ->
  (forall q, In q l -> survives (h nd) (h q) = true ->
     Left h' q = close_gap (Left h nd) (Right h nd) (Left h q)
     /\ Right h' q = close_gap (Left h nd) (Right h nd) (Right h q)
     /\ Level h' q = Level h q) ->
  sizes_ok h l ->
  sizes_ok h' (filter (fun q => survives (h nd) (h q)) l).
Proof.
  intros Hwf Hnd Hne Hold Hsz q Hq.
  apply filter_In in Hq. destruct Hq as [Hq Hkq].
  assert (Hclear : forall x, In x l -> survives (h nd) (h x) = true ->
            Left h x < Right h x
            /\ (Right h x < Left h nd \/ Right h nd < Left h x
                \/ (Left h x < Left h nd /\ Right h nd < Right h x))).
  { intros x Hx Hk. rewrite survives_in_branch, negb_true_iff in Hk.
    apply in_branch_false in Hk.
    destruct (wf_bounds _ _ _ Hwf x Hx) as (? & ? & ?). split; [assumption|].
    destruct (Nat.eq_dec x nd) as [->|Hxn]; [lia|].
    pose proof (wf_sep _ _ _ Hwf x nd Hx Hnd Hxn) as Hs. unfold sep in Hs. lia. }
  destruct (Hclear q Hq Hkq) as (Hlt & Hcq).
  destruct (Hold q Hq Hkq) as (Lq & Rq & _).
  destruct (wf_bounds _ _ _ Hwf nd Hnd) as (? & ? & ?).
  unfold size. rewrite cnt_filter.
  rewrite (cnt_ext (fun x => survives (h nd) (h x) && in_branch h' q x)
             (fun x => survives (h nd) (h x) && in_branch h q x)).
  2:{ intros x Hx. destruct (survives (h nd) (h x)) eqn:Hkx; [|reflexivity].
      cbn [andb]. destruct (Hclear x Hx Hkx) as (? & Hcx).
      destruct (Hold x Hx Hkx) as (Lx & Rx & _).
      inb_eq; rewrite Lx, Rx, Lq, Rq in *; unfold close_gap in *; zifs; lia. }
  pose proof (Hsz q Hq) as Hq2. pose proof (Hsz nd Hnd) as Hn2.
  unfold size in Hq2, Hn2.
  rewrite (cnt_split (fun x => survives (h nd) (h x)) (in_branch h q)) in Hq2.
  rewrite (cnt_ext (fun x => negb (survives (h nd) (h x)) && in_branch h q x)
             (fun x => in_branch h nd x
                       && ((Left h q <? Left h nd) && (Right h nd <? Right h q))))
    in Hq2.
  2:{ intros x Hx. rewrite survives_in_branch, negb_involutive.
      destruct (in_branch h nd x) eqn:Hx1; [|reflexivity]. cbn [andb].
      apply in_branch_true in Hx1.
      destruct (wf_bounds _ _ _ Hwf x Hx) as (? & ? & ?).
      destruct (Z.ltb_spec (Left h q) (Left h nd));
        destruct (Z.ltb_spec (Right h nd) (Right h q)); cbn [andb];
        [apply in_branch_true | apply in_branch_false ..]; lia. }
  rewrite (cnt_and_const (in_branch h nd) _
             ((Left h q <? Left h nd) && (Right h nd <? Right h q))) in Hq2
    by reflexivity.
  unfold width in *. rewrite Lq, Rq. unfold close_gap.
  destruct (Z.ltb_spec (Left h q) (Left h nd));
    destruct (Z.ltb_spec (Right h nd) (Right h q)); cbn [andb] in Hq2;
    zifs; lia.
Qed.

Lemma Move_sizes (h h' : heap) (l : list loc) (root node p : loc) :
  wf h l root -> In node l -> In p l -> in_branch h node p = false ->
  (forall q, In q l ->
     Left h' q = rotate (Left h node) (Right h node) (Right h p) (Left h q)
     /\ Right h' q = rotate (Left h node) (Right h node) (Right h p) (Right h q)
     /\ Level h' q = if in_branch h node q
                     then Level h q + (Level h p - Level h node + 1)
                     else Level h q) ->
  sizes_ok h l -> sizes_ok h' l.
Proof.
  intros Hwf Hnode Hp Hout Hold Hsz q Hq.
  destruct (Move_dest _ _ _ node _ Hwf Hnode Hp Hout) as (_ & Ha & Hab & Hb & Hc & Hcc).
  (* the new bounds of a handle, by its side of the moving branch *)
  assert (Hin : forall x, In x l -> in_branch h node x = true ->
            Left h node <= Left h x /\ Left h x < Right h x
            /\ Right h x <= Right h node
            /\ Left h' x = Left h x + slide (Left h node) (Right h node) (Right h p)
            /\ Right h' x = Right h x + slide (Left h node) (Right h node) (Right h p)).
  { intros x Hx Sx.
    destruct (Move_class _ _ _ node Hwf Hnode x Hx)
      as (? & ? & ? & [(_ & ? & ?)|(? & _)]); [|congruence].
    destruct (Hold x Hx) as (-> & -> & _).
    rewrite !(rotate_in _ _ _ Hab Hcc) by lia. lia. }
  assert (Hot : forall x, In x l -> in_branch h node x = false ->
            Left h x < Right h x
            /\ outside (Left h node) (Right h node) (Left h x)
            /\ outside (Left h node) (Right h node) (Right h x)
            /\ (Right h x < Left h node \/ Right h node < Left h x
                \/ (Left h x < Left h node /\ Right h node < Right h x))).
  { intros x Hx Sx.
    destruct (Move_class _ _ _ node Hwf Hnode x Hx)
      as (? & ? & ? & [(? & _)|(_ & Hcls)]); [congruence|].
    unfold outside. lia. }
  pose proof (Hsz q Hq) as Hq2. pose proof (Hsz node Hnode) as Hn2.
  unfold size, width in *.
  destruct (Hold q Hq) as (Lq & Rq & _).
  destruct (in_branch h node q) eqn:Sq.
  - destruct (Hin q Hq Sq) as (? & ? & ? & Lq' & Rq').
    rewrite (cnt_ext (in_branch h' q) (in_branch h q)); [lia|].
    intros x Hx. destruct (Hold x Hx) as (Lx & Rx & _).
    destruct (in_branch h node x) eqn:Sx.
    + destruct (Hin x Hx Sx) as (? & ? & ? & Lx' & Rx'). inb_eq; lia.
    + destruct (Hot x Hx Sx) as (? & Ol & Or & Hcls).
      pose proof (rotate_out_side _ _ _ Hab Hcc _ Ol).
      pose proof (rotate_out_side _ _ _ Hab Hcc _ Or).
      pose proof (rotate_out_mono _ _ _ Hab Hcc _ _ Ol Or).
      inb_eq; lia.
  - destruct (Hot q Hq Sq) as (Hlt & Olq & Orq & Hcq).
    pose proof (rotate_out_side _ _ _ Hab Hcc _ Olq) as Sl.
    pose proof (rotate_out_side _ _ _ Hab Hcc _ Orq) as Sr.
    rewrite (cnt_split (in_branch h node) (in_branch h' q)).
    rewrite (cnt_split (in_branch h node) (in_branch h q)) in Hq2.
    rewrite (cnt_ext (fun x => negb (in_branch h node x) && in_branch h' q x)
               (fun x => negb (in_branch h node x) && in_branch h q x)).
    2:{ intros x Hx. destruct (in_branch h node x) eqn:Sx; [reflexivity|].
        cbn [negb andb]. destruct (Hold x Hx) as (Lx & Rx & _).
        destruct (Hot x Hx Sx) as (? & Olx & Orx & _).
        pose proof (rotate_out_lt _ _ _ Hab Hcc _ _ Olx Olq).
        pose proof (rotate_out_lt _ _ _ Hab Hcc _ _ Orq Orx).
        inb_eq; lia. }
    rewrite (cnt_and_const (in_branch h node) (in_branch h q)
               ((Left h q <? Left h node) && (Right h node <? Right h q))) in Hq2.
    2:{ intros x Hx Sx. destruct (Hin x Hx Sx) as (? & ? & ? & _).
        destruct (Z.ltb_spec (Left h q) (Left h node));
          destruct (Z.ltb_spec (Right h node) (Right h q)); cbn [andb];
          [apply in_branch_true | apply in_branch_false ..]; lia. }
    rewrite (cnt_and_const (in_branch h node) (in_branch h' q)
               ((Left h q <? Right h p) && (Right h p <=? Right h q))).
    2:{ intros x Hx Sx. destruct (Hin x Hx Sx) as (? & ? & ? & Lx' & Rx').
        destruct (Z.ltb_spec (Left h q) (Right h p));
          destruct (Z.leb_spec (Right h p) (Right h q)); cbn [andb];
          [apply in_branch_true | apply in_branch_false ..]; lia. }
    rewrite Lq, Rq. clear Sl Sr. unfold rotate, outside in *.
    destruct (Z.ltb_spec (Left h q) (Left h node));
      destruct (Z.ltb_spec (Right h node) (Right h q));
      destruct (Z.ltb_spec (Left h q) (Right h p));
      destruct (Z.leb_spec (Right h p) (Right h q)); cbn [andb] in *;
      zifs; lia.
Qed.

Lemma sizes_perm (h : heap) (l l' : list loc) :
  Permutation l l' -> sizes_ok h l -> sizes_ok h l'.
Proof.
  intros Hperm Hsz n Hn. unfold size.
  rewrite <- (cnt_perm _ _ _ Hperm). apply Hsz.
  eapply Permutation_in; [apply Permutation_sym, Hperm | exact Hn].
Qed.

(** ** Stores built by admissible calls *)

(** The invariant together with the facts about identifiers and sizes. *)
Definition sound (k : Z) (w : world) : Prop :=
  good k w /\ ids_ok k w /\ sizes_ok (mem w) (nodes (ns w)).

(** [w] was built from [NewNestedSet()] by admissible calls, few enough to
    leave room for one more. *)
Definition built (w : world) : Prop :=
  exists h r cs,
    Z.of_nat (length cs) + 1 < 2 ^ 62
    /\ all_admissible (NewNestedSet h r) cs
    /\ w = run (NewNestedSet h r) cs.

Lemma sound_fresh (h : heap) (r : loc) : sound 0 (NewNestedSet h r).
Proof.
  split; [apply good_fresh|]. split; [apply ids_fresh|].
  pose proof (good_fresh h r) as [Hwf _].
  intros n Hn. unfold size.
  pose proof (wf_root_left _ _ _ Hwf) as HL.
  assert (HR : Right (mem (NewNestedSet h r)) r = 1).
  { unfold NewNestedSet, NewNode. cbn [mem]. heap_unfold.
    now rewrite !Nat.eqb_refl. }
  cbn [NewNestedSet ns nodes rootNode] in *. fold (NewNestedSet h r) in *.
  destruct Hn as [<-|[]]. rewrite cnt_cons, cnt_nil.
  assert (in_branch (mem (NewNestedSet h r)) r r = true) as ->
    by (apply in_branch_true; lia).
  unfold width. cbn [NewNestedSet mem] in *. lia.
Qed.

Lemma sound_step (k : Z) (w : world) (c : call) :
  sound k w -> 0 <= k -> k + 1 < 2 ^ 62 -> admissible w c ->
  sound (k + 1) (fst (exec w c)).
Proof.
  intros (Hgood & Hids & Hsz) Hk0 Hk Hadm.
  split; [now apply good_step|]. split; [now apply ids_step|].
  pose proof Hgood as [Hwf _].
  pose proof (wf_nodup _ _ _ Hwf) as Hnd.
  destruct (snd (exec w c)) as [e|] eqn:Hres.
  { now rewrite (exec_error _ _ _ Hres). }
  destruct c as [n p|[nd|]|n p]; cbn [exec admissible] in *.
  - destruct (Add_effect w n p Hres Hnd) as (-> & _).
    destruct (Add_renumber k w n p Hgood Hk0 Hk Hadm Hres) as (Hold & Hnew).
    pose proof (resolve_In w p Hwf (proj1 (Add_nil _ _ _) Hres)) as Hp.
    exact (Add_sizes _ _ _ _ _ _ Hwf Hp Hadm Hold Hnew Hsz).
  - destruct (Delete_effect w nd Hres Hnd) as (-> & _).
    destruct (proj1 (Delete_nil _ _) Hres) as (x & Hx & Hne & Hin).
    inversion Hx; subst x.
    apply (Delete_sizes _ _ _ _ _ Hwf Hin Hne); [|assumption].
    apply (Delete_renumber k); [assumption|lia|assumption].
  - apply Delete_nil in Hres. destruct Hres as (x & Hx & _). discriminate.
  - destruct Hadm as [Hn Hp].
    destruct (Move_effect w n p Hres Hnd) as (-> & _).
    eapply sizes_perm; [apply sort_nodes_perm|].
    apply (Move_sizes _ _ _ _ _ _ Hwf Hn (resolve_In w p Hwf Hp)
             (Move_not_within w n p Hres)); [|assumption].
    apply (Move_renumber k); try assumption. lia.
Qed.

Lemma sound_run (cs : list call) :
  forall (k : Z) (w : world),
    sound k w -> 0 <= k -> k + Z.of_nat (length cs) < 2 ^ 62 ->
    all_admissible w cs ->
    sound (k + Z.of_nat (length cs)) (run w cs).
Proof.
  induction cs as [|c cs IH]; intros k w Hs Hk0 Hk Hadm.
  - cbn [run length]. now rewrite Z.add_0_r.
  - cbn [run length all_admissible] in *. destruct Hadm as [Hc Hcs].
    replace (k + Z.of_nat (S (length cs))) with ((k + 1) + Z.of_nat (length cs))
      in * by lia.
    apply IH; try assumption; try lia.
    apply sound_step; try assumption. lia.
Qed.

Lemma built_sound (w : world) :
  built w -> exists k, 0 <= k /\ k + 1 < 2 ^ 62 /\ sound k w.
Proof.
  intros (h & r & cs & Hlen & Hadm & ->).
  exists (0 + Z.of_nat (length cs)). split; [lia|]. split; [lia|].
  apply sound_run; try assumption; try lia. apply sound_fresh.
Qed.

Lemma built_fresh (h : heap) (r : loc) : built (NewNestedSet h r).
Proof. exists h, r, []. repeat split. Qed.

Lemma built_fixture : built fixture.
Proof.
  exists heap0, 0%nat, fixture_calls. split; [reflexivity|].
  split; [|reflexivity]. vm_compute. intuition discriminate.
Qed.

(** ** FindById *)

(** X1: in a store built by admissible calls, looking a member up by its
    own identifier returns that member: no two members share an
    identifier. *)
Theorem FindById_finds_member (w : world) (n : loc) :
  built w -> In n (nodes (ns w)) -> FindById w (Id (mem w) n) = Some n.
Proof.
  intros Hb Hn. destruct (built_sound w Hb) as (k & _ & _ & _ & (_ & _ & Hinj) & _).
  unfold FindById.
  destruct (find _ _) as [x|] eqn:Hf.
  - apply find_some in Hf. destruct Hf as [Hx He]. apply Z.eqb_eq in He.
    f_equal. now apply Hinj.
  - pose proof (find_none _ _ Hf n Hn) as He. cbv beta in He.
    rewrite Z.eqb_refl in He. discriminate.
Qed.

Lemma FindById_finds_member_witness :
  built fixture /\ In 5%nat (nodes (ns fixture))
  /\ FindById fixture (Id (mem fixture) 5%nat) = Some 5%nat.
Proof.
  assert (Hin : In 5%nat (nodes (ns fixture))) by (vm_compute; tauto).
  refine (conj built_fixture (conj Hin _)).
  exact (FindById_finds_member fixture 5%nat built_fixture Hin).
Defined.

(** X2: a successful [Add] of a new handle to a built store gives it the
    identifier maxId + 1, advances the counter to it, leaves the
    identifiers of the members as they were, and [FindById] of the new
    identifier returns the new handle. *)
Theorem Add_assigns_next_id (w : world) (n : loc) (parent : option loc) :
  built w -> ~ In n (nodes (ns w)) -> snd (Add w n parent) = None ->
  let w' := fst (Add w n parent) in
  Id (mem w') n = maxId (ns w) + 1
  /\ maxId (ns w') = maxId (ns w) + 1
  /\ (forall q, In q (nodes (ns w)) -> Id (mem w') q = Id (mem w) q)
  /\ FindById w' (maxId (ns w) + 1) = Some n.
Proof.
  intros Hb Hn Hnil w'.
  destruct (built_sound w Hb) as (k & Hk0 & Hk & Hs).
  pose proof Hs as ((Hwf & _) & (Hmax & _ & _) & _).
  pose proof (wf_nodup _ _ _ Hwf) as Hnd.
  destruct (Add_ids w n parent Hnil Hnd Hn) as (Hold & Hnew & Hm).
  destruct (Add_effect w n parent Hnil Hnd) as (Hnodes & _).
  assert (Hm' : add64 (maxId (ns w)) 1 = maxId (ns w) + 1)
    by (apply add64_id; unfold min64, max64; lia).
  rewrite Hm' in Hnew, Hm. fold w' in Hold, Hnew, Hm, Hnodes.
  refine (conj Hnew (conj Hm (conj _ _))).
  - intros q Hq. apply Hold. intros ->. contradiction.
  - pose proof (sound_step k w (CallAdd n parent) Hs Hk0 Hk Hn)
      as (_ & (_ & _ & Hinj) & _).
    cbn [exec] in Hinj. fold w' in Hinj.
    assert (Hin : In n (nodes (ns w')))
      by (rewrite Hnodes; apply in_or_app; right; now left).
    unfold FindById.
    destruct (find _ _) as [x|] eqn:Hf.
    + apply find_some in Hf. destruct Hf as [Hx He]. apply Z.eqb_eq in He.
      f_equal. apply Hinj; try assumption. now rewrite Hnew.
    + pose proof (find_none _ _ Hf n Hin) as He. cbv beta in He.
      rewrite Hnew, Z.eqb_refl in He. discriminate.
Qed.

Lemma Add_assigns_next_id_witness :
  built fixture /\ ~ In 9%nat (nodes (ns fixture))
  /\ snd (Add fixture 9%nat (Some 5%nat)) = None
  /\ FindById (fst (Add fixture 9%nat (Some 5%nat))) (maxId (ns fixture) + 1)
     = Some 9%nat.
Proof.
  assert (Hn : ~ In 9%nat (nodes (ns fixture)))
    by (vm_compute; intuition discriminate).
  assert (Hnil : snd (Add fixture 9%nat (Some 5%nat)) = None)
    by (vm_compute; reflexivity).
  refine (conj built_fixture (conj Hn (conj Hnil _))).
  exact (proj2 (proj2 (proj2
           (Add_assigns_next_id fixture 9%nat (Some 5%nat) built_fixture Hn Hnil)))).
Defined.

(** X3: in a built store [FindById] returns nil for every identifier the
    counter has not reached and for every negative one. *)
Theorem FindById_unassigned (w : world) (id : Z) :
  built w -> id < 0 \/ maxId (ns w) < id -> FindById w id = None.
Proof.
  intros Hb Hid. destruct (built_sound w Hb) as (k & _ & _ & _ & (_ & Hrange & _) & _).
  unfold FindById.
  destruct (find _ _) as [x|] eqn:Hf; [|reflexivity].
  apply find_some in Hf. destruct Hf as [Hx He]. apply Z.eqb_eq in He.
  specialize (Hrange x Hx). lia.
Qed.

Lemma FindById_unassigned_witness :
  built fixture /\ (7 < 0 \/ maxId (ns fixture) < 7) /\ FindById fixture 7 = None.
Proof.
  assert (Hid : 7 < 0 \/ maxId (ns fixture) < 7) by (right; reflexivity).
  refine (conj built_fixture (conj Hid _)).
  exact (FindById_unassigned fixture 7 built_fixture Hid).
Defined.

(** ** Parent *)

(** In a store that satisfies the invariant, [s.parent] finds the member
    one level up that encloses the node. *)
Lemma parent_unique (k : Z) (w : world) (n p : loc) :
  good k w -> 0 <= k < 2 ^ 62 ->
  In n (nodes (ns w)) -> In p (nodes (ns w)) ->
  encloses (mem w) p n = true -> Level (mem w) n = Level (mem w) p + 1 ->
  parent w n = Some p.
Proof.
  intros Hgood Hk Hn Hp Hpn Hlev.
  destruct (parent_found k w Hgood Hk p n Hp Hn Hpn) as (q & Hpar & Hq & Hqn & Hlq).
  rewrite Hpar. f_equal.
  destruct (Nat.eq_dec q p) as [|Hne]; [assumption|]. exfalso.
  destruct (enclosers_chain k w Hgood q p n Hq Hp Hn Hne Hqn Hpn) as [H|H].
  - pose proof (level_mono k w Hgood q p Hq Hp H). lia.
  - pose proof (level_mono k w Hgood p q Hp Hq H). lia.
Qed.

(** X4: after a successful [Add(newNode, parent)] of a new handle to a built
    store, [Parent(newNode)] is the parent that was given (the root for
    nil), the new node is a leaf (right = left + 1) that ends right before
    its parent's right bound, and everything the parent enclosed before
    lies to its left. *)
Theorem Parent_after_Add (w : world) (n : loc) (parent_arg : option loc) :
  built w -> ~ In n (nodes (ns w)) -> snd (Add w n parent_arg) = None ->
  let w' := fst (Add w n parent_arg) in
  let p := resolve (ns w) parent_arg in
  Parent w' n = Some p
  /\ Right (mem w') n = Left (mem w') n + 1
  /\ Right (mem w') n + 1 = Right (mem w') p
  /\ (forall x, In x (nodes (ns w)) -> encloses (mem w) p x = true ->
        Right (mem w') x < Left (mem w') n).
Proof.
  intros Hb Hn Hnil w' p.
  destruct (built_sound w Hb) as (k & Hk0 & Hk & (Hgood & _)).
  pose proof Hgood as [Hwf _].
  pose proof (Inv_Add k w n parent_arg Hgood Hk0 Hk Hn Hnil) as Hgood'.
  destruct (Add_renumber k w n parent_arg Hgood Hk0 Hk Hn Hnil) as (Hold & Ln & Rn & Vn).
  destruct (Add_effect w n parent_arg Hnil (wf_nodup _ _ _ Hwf)) as (Hnodes & _).
  pose proof (resolve_In w parent_arg Hwf (proj1 (Add_nil _ _ _) Hnil)) as Hp.
  fold w' in Hgood', Hold, Ln, Rn, Vn, Hnodes. fold p in Hold, Ln, Rn, Vn, Hp.
  destruct (Hold p Hp) as (Lp & Rp & Vp).
  destruct (wf_bounds _ _ _ Hwf p Hp) as (? & ? & ?).
  assert (Rp' : Right (mem w') p = Right (mem w) p + 2)
    by (rewrite Rp; unfold open_gap; zifs; lia).
  assert (Lp' : Left (mem w') p = Left (mem w) p)
    by (rewrite Lp; unfold open_gap; zifs; lia).
  refine (conj _ (conj _ (conj _ _))); try lia.
  - unfold Parent. apply (parent_unique (k + 1)); try assumption; try lia.
    + rewrite Hnodes. apply in_or_app. right. now left.
    + rewrite Hnodes. apply in_or_app. now left.
    + apply encloses_true. lia.
  - intros x Hx Hpx. apply encloses_true in Hpx.
    destruct (Hold x Hx) as (_ & -> & _). rewrite Ln.
    unfold open_gap. zifs; lia.
Qed.

Lemma Parent_after_Add_witness :
  built fixture /\ ~ In 9%nat (nodes (ns fixture))
  /\ snd (Add fixture 9%nat (Some 5%nat)) = None
  /\ Parent (fst (Add fixture 9%nat (Some 5%nat))) 9%nat = Some 5%nat.
Proof.
  assert (Hn : ~ In 9%nat (nodes (ns fixture)))
    by (vm_compute; intuition discriminate).
  assert (Hnil : snd (Add fixture 9%nat (Some 5%nat)) = None)
    by (vm_compute; reflexivity).
  refine (conj built_fixture (conj Hn (conj Hnil _))).
  exact (proj1 (Parent_after_Add fixture 9%nat (Some 5%nat) built_fixture Hn Hnil)).
Defined.

(** Where a successful [Move] puts the node, in a store that satisfies the
    invariant. *)
Lemma Move_places (k : Z) (w : world) (node : loc) (parent_arg : option loc) :
  good k w -> 0 <= k < 2 ^ 62 ->
  In node (nodes (ns w)) -> member_or_nil (ns w) parent_arg ->
  snd (Move w node parent_arg) = None ->
  let w' := fst (Move w node parent_arg) in
  let p := resolve (ns w) parent_arg in
  parent w' node = Some p
  /\ Right (mem w') node + 1 = Right (mem w') p
  /\ Level (mem w') node = Level (mem w) p + 1
  /\ Level (mem w') p = Level (mem w) p.
Proof.
  intros Hgood Hk' Hnode Hpar Hnil w' p.
  pose proof Hgood as [Hwf _].
  pose proof (Inv_Move k w node parent_arg Hgood Hk' Hnode Hpar Hnil) as Hgood'.
  pose proof (Move_renumber k w node parent_arg Hgood Hk' Hnode Hpar Hnil) as Hren.
  cbv zeta in Hren.
  destruct (Move_effect w node parent_arg Hnil (wf_nodup _ _ _ Hwf)) as (Hnodes & _).
  pose proof (resolve_In w parent_arg Hwf Hpar) as Hp.
  pose proof (Move_not_within w node parent_arg Hnil) as Hout.
  fold w' in Hgood', Hren, Hnodes. fold p in Hren, Hp, Hout.
  destruct (Move_dest _ _ _ node _ Hwf Hnode Hp Hout) as (_ & Ha & Hab & Hb' & Hc & Hcc).
  destruct (wf_bounds _ _ _ Hwf p Hp) as (? & ? & ?).
  assert (Hself : in_branch (mem w) node node = true)
    by (apply in_branch_true; lia).
  destruct (Hren node Hnode) as (Ln & Rn & Vn). rewrite Hself in Vn.
  destruct (Hren p Hp) as (Lp & Rp & Vp). rewrite Hout in Vp.
  apply in_branch_false in Hout.
  pose proof (wf_sep _ _ _ Hwf p node Hp Hnode) as Hs.
  assert (Hpn : p <> node) by (intros Heq; rewrite Heq in Hout; lia).
  specialize (Hs Hpn). unfold sep in Hs.
  assert (Hgeo : Left (mem w') p < Left (mem w') node
                 /\ Right (mem w') node + 1 = Right (mem w') p).
  { rewrite Ln, Rn, Lp, Rp. unfold rotate. zifs; lia. }
  refine (conj _ (conj (proj2 Hgeo) (conj _ Vp))); [|lia].
  apply (parent_unique k); try assumption.
  - rewrite Hnodes. now apply sort_nodes_In.
  - rewrite Hnodes. now apply sort_nodes_In.
  - apply encloses_true. lia.
  - lia.
Qed.

(** X5: after a successful [Move(node, parent)] of members of a built
    store, [Parent(node)] is the parent that was given (the root for nil),
    and the node ends right before its new parent's right bound: it is the
    parent's last child. *)
Theorem Parent_after_Move (w : world) (node : loc) (parent_arg : option loc) :
  built w -> In node (nodes (ns w)) -> member_or_nil (ns w) parent_arg ->
  snd (Move w node parent_arg) = None ->
  let w' := fst (Move w node parent_arg) in
  let p := resolve (ns w) parent_arg in
  Parent w' node = Some p
  /\ Right (mem w') node + 1 = Right (mem w') p
  /\ Level (mem w') node = Level (mem w) p + 1
  /\ Level (mem w') p = Level (mem w) p.
Proof.
  intros Hb Hnode Hpar Hnil.
  destruct (built_sound w Hb) as (k & Hk0 & Hk & (Hgood & _)).
  apply (Move_places k); try assumption. lia.
Qed.

Lemma Parent_after_Move_witness :
  built fixture /\ In 4%nat (nodes (ns fixture))
  /\ member_or_nil (ns fixture) (Some 2%nat)
  /\ snd (Move fixture 4%nat (Some 2%nat)) = None
  /\ Parent (fst (Move fixture 4%nat (Some 2%nat))) 4%nat = Some 2%nat.
Proof.
  assert (Hn : In 4%nat (nodes (ns fixture))) by (vm_compute; tauto).
  assert (Hp : member_or_nil (ns fixture) (Some 2%nat)) by (vm_compute; tauto).
  assert (Hnil : snd (Move fixture 4%nat (Some 2%nat)) = None)
    by (vm_compute; reflexivity).
  refine (conj built_fixture (conj Hn (conj Hp (conj Hnil _)))).
  exact (proj1 (Parent_after_Move fixture 4%nat (Some 2%nat) built_fixture
                  Hn Hp Hnil)).
Defined.

(** What [s.parent] finds for a member strictly encloses it and is one
    level up. *)
Lemma parent_spec (k : Z) (w : world) (n p : loc) :
  good k w -> 0 <= k < 2 ^ 62 -> In n (nodes (ns w)) ->
  parent w n = Some p ->
  In p (nodes (ns w)) /\ encloses (mem w) p n = true
  /\ Level (mem w) n = Level (mem w) p + 1.
Proof.
  intros Hgood Hk' Hn Hpar. pose proof Hgood as [Hwf _].
  pose proof (wf_root _ _ _ Hwf) as Hr.
  assert (Hne : n <> rootNode (ns w)).
  { intros Heq. apply (parent_none_iff k w n Hgood Hk' Hn) in Heq. congruence. }
  pose proof (wf_sep _ _ _ Hwf n _ Hn Hr Hne) as Hs. unfold sep in Hs.
  destruct (wf_bounds _ _ _ Hwf n Hn) as (? & ? & ?).
  pose proof (wf_root_left _ _ _ Hwf).
  assert (He : encloses (mem w) (rootNode (ns w)) n = true)
    by (apply encloses_true; lia).
  destruct (parent_found k w Hgood Hk' _ n Hr Hn He) as (q & Hq & Hin & Hqn & Hl).
  assert (q = p) by congruence. subst q. refine (conj Hin (conj Hqn _)). lia.
Qed.

(** X6: in a built store [Parent] returns nil for the root and for no
    other member. *)
Theorem Parent_nil_iff_root (w : world) (n : loc) :
  built w -> In n (nodes (ns w)) ->
  (Parent w n = None <-> n = rootNode (ns w)).
Proof.
  intros Hb Hn. destruct (built_sound w Hb) as (k & Hk0 & Hk & (Hgood & _)).
  apply (parent_none_iff k); [assumption | lia | assumption].
Qed.

Lemma Parent_nil_iff_root_witness :
  built fixture /\ In 0%nat (nodes (ns fixture)) /\ Parent fixture 0%nat = None.
Proof.
  assert (Hn : In 0%nat (nodes (ns fixture))) by (vm_compute; tauto).
  refine (conj built_fixture (conj Hn _)).
  exact (proj2 (Parent_nil_iff_root fixture 0%nat built_fixture Hn) eq_refl).
Defined.

(** ** Add followed by Delete *)

Lemma filter_all (f : loc -> bool) (l : list loc) :
  (forall x, In x l -> f x = true) -> filter f l = l.
Proof.
  induction l as [|a l IH]; intros H; [reflexivity|].
  cbn [filter]. rewrite (H a (or_introl eq_refl)). f_equal.
  apply IH. intros x Hx. apply H. now right.
Qed.

Lemma close_open_gap (r x : Z) : close_gap r (r + 1) (open_gap r x) = x.
Proof. unfold close_gap, open_gap. zifs; lia. Qed.

(** X7: on a built store, after a successful [Add] of a new handle (one
    that is not in the store), [Delete] of that handle succeeds and undoes
    the insertion: the slice of handles is the one before the [Add], and
    every member has its former left, right, level and identifier.  Only
    the identifier counter keeps its advance. *)
Theorem Add_then_Delete (w : world) (n : loc) (parent_arg : option loc) :
  built w -> ~ In n (nodes (ns w)) -> snd (Add w n parent_arg) = None ->
  let w1 := fst (Add w n parent_arg) in
  let w2 := fst (Delete w1 (Some n)) in
  snd (Delete w1 (Some n)) = None
  /\ nodes (ns w2) = nodes (ns w)
  /\ rootNode (ns w2) = rootNode (ns w)
  /\ maxId (ns w2) = maxId (ns w) + 1
  /\ (forall q, In q (nodes (ns w)) ->
        Left (mem w2) q = Left (mem w) q
        /\ Right (mem w2) q = Right (mem w) q
        /\ Level (mem w2) q = Level (mem w) q
        /\ Id (mem w2) q = Id (mem w) q).
Proof.
  intros Hb Hn Hnil w1 w2.
  destruct (built_sound w Hb) as (k & Hk0 & Hk & (Hgood & (Hmax & _) & _)).
  pose proof Hgood as [Hwf _].
  pose proof (Inv_Add k w n parent_arg Hgood Hk0 Hk Hn Hnil) as Hgood1.
  pose proof Hgood1 as [Hwf1 _].
  destruct (Add_renumber k w n parent_arg Hgood Hk0 Hk Hn Hnil)
    as (Hold & Ln & Rn & Vn).
  destruct (Add_effect w n parent_arg Hnil (wf_nodup _ _ _ Hwf))
    as (Hnodes1 & Hroot1 & Hmax1 & _).
  destruct (Add_ids w n parent_arg Hnil (wf_nodup _ _ _ Hwf) Hn) as (Hid1 & _).
  fold w1 in Hgood1, Hwf1, Hold, Ln, Rn, Vn, Hnodes1, Hroot1, Hmax1, Hid1.
  assert (Hnil2 : snd (Delete w1 (Some n)) = None).
  { apply Delete_nil. exists n. refine (conj eq_refl (conj _ _)).
    - rewrite Hroot1. intros ->. apply Hn, (wf_root _ _ _ Hwf).
    - rewrite Hnodes1. apply in_or_app. right. now left. }
  destruct (Delete_effect w1 n Hnil2 (wf_nodup _ _ _ Hwf1))
    as (Hnodes2 & Hroot2 & Hmax2 & _).
  destruct (Delete_ids w1 n Hnil2 (wf_nodup _ _ _ Hwf1)) as (Hid2 & _).
  assert (Hk1 : 0 <= k + 1 < 2 ^ 62) by lia.
  pose proof (Delete_renumber (k + 1) w1 n Hgood1 Hk1 Hnil2) as Hren2.
  fold w2 in Hnodes2, Hroot2, Hmax2, Hid2, Hren2.
  assert (Hsurv : forall q, In q (nodes (ns w)) ->
            survives (mem w1 n) (mem w1 q) = true).
  { intros q Hq. rewrite survives_in_branch. apply negb_true_iff.
    apply in_branch_false. destruct (Hold q Hq) as (Lq & Rq & _).
    destruct (wf_bounds _ _ _ Hwf q Hq) as (_ & Hlr & _).
    rewrite Lq, Rq, Ln, Rn. unfold open_gap. zifs; lia. }
  refine (conj Hnil2 (conj _ (conj _ (conj _ _)))).
  - rewrite Hnodes2, Hnodes1, filter_app. cbn [filter].
    rewrite survives_self, app_nil_r. now apply filter_all.
  - now rewrite Hroot2.
  - rewrite Hmax2, Hmax1. apply add64_id. unfold min64, max64. lia.
  - intros q Hq.
    assert (Hq1 : In q (nodes (ns w1)))
      by (rewrite Hnodes1; apply in_or_app; now left).
    destruct (Hren2 q Hq1 (Hsurv q Hq)) as (L2 & R2 & V2).
    destruct (Hold q Hq) as (L1 & R1 & V1).
    assert (Hqn : q <> n) by (intros ->; contradiction).
    rewrite L2, R2, V2, Hid2, (Hid1 q Hqn), Ln, Rn, L1, R1, V1.
    rewrite !close_open_gap. repeat split.
Qed.

Lemma Add_then_Delete_witness :
  built fixture /\ ~ In 9%nat (nodes (ns fixture))
  /\ snd (Add fixture 9%nat (Some 2%nat)) = None
  /\ nodes (ns (fst (Delete (fst (Add fixture 9%nat (Some 2%nat))) (Some 9%nat))))
     = nodes (ns fixture).
Proof.
  assert (Hn : ~ In 9%nat (nodes (ns fixture)))
    by (vm_compute; intuition discriminate).
  assert (Hnil : snd (Add fixture 9%nat (Some 2%nat)) = None)
    by (vm_compute; reflexivity).
  refine (conj built_fixture (conj Hn (conj Hnil _))).
  exact (proj1 (proj2
           (Add_then_Delete fixture 9%nat (Some 2%nat) built_fixture Hn Hnil))).
Defined.

(** ** Move and the moved branch *)

Section MoveSides.

Variables (h h' : heap) (l : list loc) (root node p : loc).
Hypothesis Hwf : wf h l root.
Hypothesis Hnode : In node l.
Hypothesis Hp : In p l.
Hypothesis Hout : in_branch h node p = false.
Hypothesis Hold : forall q, In q l ->
  Left h' q = rotate (Left h node) (Right h node) (Right h p) (Left h q)
  /\ Right h' q = rotate (Left h node) (Right h node) (Right h p) (Right h q)
  /\ Level h' q = if in_branch h node q
                  then Level h q + (Level h p - Level h node + 1)
                  else Level h q.

Local Abbreviation a := (Left h node).
Local Abbreviation b := (Right h node).
Local Abbreviation c := (Right h p).

(** A handle of the moving branch is translated by [slide]. *)
Lemma Move_inside (x : loc) :
  In x l -> in_branch h node x = true ->
  a <= Left h x /\ Left h x < Right h x /\ Right h x <= b
  /\ Left h' x = Left h x + slide a b c
  /\ Right h' x = Right h x + slide a b c
  /\ Level h' x = Level h x + (Level h p - Level h node + 1).
Proof.
  intros Hx Sx.
  destruct (Move_dest _ _ _ node _ Hwf Hnode Hp Hout) as (_ & _ & Hab & _ & _ & Hcc).
  destruct (Move_class _ _ _ node Hwf Hnode x Hx)
    as (? & ? & ? & [(_ & ? & ?)|(? & _)]); [|congruence].
  destruct (Hold x Hx) as (-> & -> & ->). rewrite Sx.
  rewrite !(rotate_in _ _ _ Hab Hcc) by lia. lia.
Qed.

(** A handle outside of it has both bounds outside of the moving range. *)
Lemma Move_outside (x : loc) :
  In x l -> in_branch h node x = false ->
  Left h x < Right h x
  /\ outside a b (Left h x) /\ outside a b (Right h x)
  /\ (Right h x < a \/ b < Left h x \/ (Left h x < a /\ b < Right h x))
  /\ Left h' x = rotate a b c (Left h x)
  /\ Right h' x = rotate a b c (Right h x)
  /\ Level h' x = Level h x.
Proof.
  intros Hx Sx.
  destruct (Move_class _ _ _ node Hwf Hnode x Hx)
    as (? & ? & ? & [(? & _)|(_ & Hcls)]); [congruence|].
  destruct (Hold x Hx) as (-> & -> & ->). rewrite Sx.
  unfold outside. repeat split; try lia; assumption.
Qed.

(** Membership in the branch of a handle that moves along is unchanged. *)
Lemma Move_in_branch_inside (x q : loc) :
  In x l -> In q l -> in_branch h node x = true ->
  in_branch h' x q = in_branch h x q.
Proof.
  intros Hx Hq Sx.
  destruct (Move_dest _ _ _ node _ Hwf Hnode Hp Hout) as (_ & _ & Hab & _ & _ & Hcc).
  destruct (Move_inside x Hx Sx) as (? & ? & ? & Lx & Rx & _).
  destruct (in_branch h node q) eqn:Sq.
  - destruct (Move_inside q Hq Sq) as (? & ? & ? & Lq & Rq & _). inb_eq; lia.
  - destruct (Move_outside q Hq Sq) as (? & Ol & Or & Hcls & Lq & Rq & _).
    pose proof (rotate_out_side _ _ _ Hab Hcc _ Ol).
    pose proof (rotate_out_side _ _ _ Hab Hcc _ Or).
    inb_eq; lia.
Qed.

(** Strict enclosure between two handles is unchanged when both move along
    or both stay outside. *)
Lemma Move_encloses_same_side (x q : loc) :
  In x l -> In q l -> in_branch h node x = in_branch h node q ->
  encloses h' x q = encloses h x q.
Proof.
  intros Hx Hq Hside.
  destruct (Move_dest _ _ _ node _ Hwf Hnode Hp Hout) as (_ & _ & Hab & _ & _ & Hcc).
  destruct (in_branch h node q) eqn:Sq.
  - destruct (Move_inside x Hx Hside) as (? & ? & ? & Lx & Rx & _).
    destruct (Move_inside q Hq Sq) as (? & ? & ? & Lq & Rq & _). bool_eq; lia.
  - destruct (Move_outside x Hx Hside) as (? & Olx & Orx & _ & Lx & Rx & _).
    destruct (Move_outside q Hq Sq) as (? & Olq & Orq & _ & Lq & Rq & _).
    pose proof (rotate_out_lt _ _ _ Hab Hcc _ _ Olx Olq).
    pose proof (rotate_out_lt _ _ _ Hab Hcc _ _ Orq Orx).
    bool_eq; lia.
Qed.

End MoveSides.

(** What [Branch] returns, for a member and for nil. *)
Lemma Branch_member (w : world) (nd : loc) :
  In nd (nodes (ns w)) ->
  snd (Branch w (Some nd))
  = Some (filter (in_branch (mem w) nd) (sort_nodes (mem w) (nodes (ns w)))).
Proof.
  intros Hnd. unfold Branch, branch, exists_. cbn [ns nodes].
  fold (memb nd (sort_nodes (mem w) (nodes (ns w)))).
  rewrite memb_sort_nodes, (proj2 (memb_In _ _) Hnd). reflexivity.
Qed.

Lemma Branch_all (w : world) :
  snd (Branch w None) = Some (sort_nodes (mem w) (nodes (ns w))).
Proof. reflexivity. Qed.

Lemma StronglySorted_weaken (R R' : loc -> loc -> Prop) (l : list loc) :
  (forall x y, In x l -> In y l -> R x y -> R' x y) ->
  StronglySorted R l -> StronglySorted R' l.
Proof.
  intros HR Hs. induction Hs as [|x l Hs IH Hall]; constructor.
  - apply IH. intros u v Hu Hv. apply HR; now right.
  - rewrite Forall_forall in *. intros y Hy.
    apply HR; [now left | now right | now apply Hall].
Qed.

(** X8: a successful [Move(node, parent)] on a built store, with [node] a
    member and [parent] a member or nil, keeps the moved branch together
    and in order: for [node] and for every member inside its branch,
    [Branch] returns after the call the same sequence of handles as before
    it. *)
Theorem Move_keeps_branch (w : world) (node : loc) (parent_arg : option loc)
  (x : loc) :
  built w -> In node (nodes (ns w)) -> member_or_nil (ns w) parent_arg ->
  snd (Move w node parent_arg) = None ->
  In x (nodes (ns w)) -> in_branch (mem w) node x = true ->
  snd (Branch (fst (Move w node parent_arg)) (Some x)) = snd (Branch w (Some x)).
Proof.
  intros Hb Hnode Hpar Hnil Hx Sx.
  destruct (built_sound w Hb) as (k & Hk0 & Hk & (Hgood & _)).
  pose proof Hgood as [Hwf _].
  assert (Hk' : 0 <= k < 2 ^ 62) by lia.
  pose proof (Move_renumber k w node parent_arg Hgood Hk' Hnode Hpar Hnil) as Hren.
  cbv zeta in Hren.
  destruct (Move_effect w node parent_arg Hnil (wf_nodup _ _ _ Hwf)) as (Hnodes & _).
  pose proof (resolve_In w parent_arg Hwf Hpar) as Hp.
  pose proof (Move_not_within w node parent_arg Hnil) as Hout.
  set (w' := fst (Move w node parent_arg)) in *.
  set (p := resolve (ns w) parent_arg) in *.
  assert (Hx' : In x (nodes (ns w')))
    by (rewrite Hnodes; now apply sort_nodes_In).
  rewrite (Branch_member w x Hx), (Branch_member w' x Hx'). f_equal.
  assert (Hperm : Permutation (nodes (ns w))
                    (sort_nodes (mem w') (nodes (ns w')))).
  { rewrite Hnodes.
    eapply Permutation_trans; [apply sort_nodes_perm | apply sort_nodes_perm]. }
  apply (sorted_perm_unique (mem w)).
  - intros u v Hu Hv. apply filter_In in Hu, Hv.
    destruct Hu as [Hu _], Hv as [Hv _].
    apply (Permutation_in _ (Permutation_sym Hperm)) in Hu, Hv.
    intros Heq. apply (good_distinct k w Hgood u v Hu Hv). now left.
  - eapply Permutation_trans.
    + apply filter_perm, Permutation_sym, Hperm.
    + erewrite filter_ext_in.
      * apply filter_perm, sort_nodes_perm.
      * intros q Hq. cbv beta.
        apply (Move_in_branch_inside (mem w) (mem w') (nodes (ns w))
                 (rootNode (ns w)) node p Hwf Hnode Hp Hout Hren x q Hx Hq Sx).
  - apply (StronglySorted_weaken (left_le (mem w'))).
    + intros u v Hu Hv. apply filter_In in Hu, Hv.
      destruct Hu as [Hu Su], Hv as [Hv Sv].
      apply (Permutation_in _ (Permutation_sym Hperm)) in Hu, Hv.
      rewrite (Move_in_branch_inside (mem w) (mem w') (nodes (ns w))
                 (rootNode (ns w)) node p Hwf Hnode Hp Hout Hren x _ Hx Hu Sx) in Su.
      rewrite (Move_in_branch_inside (mem w) (mem w') (nodes (ns w))
                 (rootNode (ns w)) node p Hwf Hnode Hp Hout Hren x _ Hx Hv Sx) in Sv.
      assert (Hsub : forall q, In q (nodes (ns w)) -> in_branch (mem w) x q = true ->
                in_branch (mem w) node q = true).
      { intros q _ Sq. apply in_branch_true in Sq, Sx. apply in_branch_true. lia. }
      destruct (Move_inside (mem w) (mem w') (nodes (ns w)) (rootNode (ns w))
                  node p Hwf Hnode Hp Hout Hren u Hu (Hsub u Hu Su))
        as (_ & _ & _ & Lu & _).
      destruct (Move_inside (mem w) (mem w') (nodes (ns w)) (rootNode (ns w))
                  node p Hwf Hnode Hp Hout Hren v Hv (Hsub v Hv Sv))
        as (_ & _ & _ & Lv & _).
      unfold left_le. lia.
    + apply Sorted_StronglySorted; [apply left_le_trans|].
      apply filter_sorted, sort_nodes_sorted.
  - apply Sorted_StronglySorted; [apply left_le_trans|].
    apply filter_sorted, sort_nodes_sorted.
Qed.

Lemma Move_keeps_branch_witness :
  built fixture /\ In 4%nat (nodes (ns fixture))
  /\ member_or_nil (ns fixture) (Some 2%nat)
  /\ snd (Move fixture 4%nat (Some 2%nat)) = None
  /\ In 6%nat (nodes (ns fixture))
  /\ in_branch (mem fixture) 4%nat 6%nat = true
  /\ snd (Branch (fst (Move fixture 4%nat (Some 2%nat))) (Some 6%nat))
     = snd (Branch fixture (Some 6%nat)).
Proof.
  assert (Hn : In 4%nat (nodes (ns fixture))) by (vm_compute; tauto).
  assert (Hp : member_or_nil (ns fixture) (Some 2%nat)) by (vm_compute; tauto).
  assert (Hnil : snd (Move fixture 4%nat (Some 2%nat)) = None)
    by (vm_compute; reflexivity).
  assert (Hx : In 6%nat (nodes (ns fixture))) by (vm_compute; tauto).
  assert (Sx : in_branch (mem fixture) 4%nat 6%nat = true)
    by (vm_compute; reflexivity).
  refine (conj built_fixture (conj Hn (conj Hp (conj Hnil (conj Hx (conj Sx _)))))).
  exact (Move_keeps_branch fixture 4%nat (Some 2%nat) 6%nat built_fixture
           Hn Hp Hnil Hx Sx).
Defined.

(** ** Sizes and depths *)

(** X9: in a built store the bounds of a member count its branch:
    [Branch(node)] returns (right - left + 1) / 2 handles, the division
    being exact. *)
Theorem Branch_length (w : world) (n : loc) :
  built w -> In n (nodes (ns w)) ->
  exists L, snd (Branch w (Some n)) = Some L
    /\ Right (mem w) n - Left (mem w) n + 1 = 2 * Z.of_nat (length L).
Proof.
  intros Hb Hn. destruct (built_sound w Hb) as (k & _ & _ & (_ & _ & Hsz)).
  eexists. split; [now apply Branch_member|].
  specialize (Hsz n Hn). unfold width, size, cnt in Hsz. rewrite Hsz.
  do 2 f_equal. apply Permutation_length, filter_perm, sort_nodes_perm.
Qed.

Lemma Branch_length_witness :
  built fixture /\ In 1%nat (nodes (ns fixture))
  /\ exists L, snd (Branch fixture (Some 1%nat)) = Some L
       /\ Right (mem fixture) 1%nat - Left (mem fixture) 1%nat + 1
          = 2 * Z.of_nat (length L).
Proof.
  assert (Hn : In 1%nat (nodes (ns fixture))) by (vm_compute; tauto).
  refine (conj built_fixture (conj Hn _)).
  exact (Branch_length fixture 1%nat built_fixture Hn).
Defined.

(** The root's branch is the whole store. *)
Lemma root_counts (h : heap) (l : list loc) (root : loc) :
  wf h l root -> sizes_ok h l ->
  Right h root + 1 = 2 * Z.of_nat (length l).
Proof.
  intros Hwf Hsz. pose proof (wf_root_left _ _ _ Hwf) as Hl.
  specialize (Hsz _ (wf_root _ _ _ Hwf)). unfold width, size, cnt in Hsz.
  rewrite Hl in Hsz. rewrite filter_all in Hsz; [lia|].
  intros x Hx. apply in_branch_true.
  destruct (wf_bounds _ _ _ Hwf x Hx) as (? & ? & ?). lia.
Qed.

(** X10: in a built store the right bound of the root counts the store:
    right(root) + 1 is twice the number of nodes, so the bounds in use are
    exactly 0 .. 2 * len(nodes) - 1. *)
Theorem root_right_counts_nodes (w : world) :
  built w ->
  Left (mem w) (rootNode (ns w)) = 0
  /\ Right (mem w) (rootNode (ns w)) + 1 = 2 * Z.of_nat (length (nodes (ns w)))
  /\ (forall n, In n (nodes (ns w)) ->
        0 <= Left (mem w) n < Right (mem w) n
        /\ Right (mem w) n <= 2 * Z.of_nat (length (nodes (ns w))) - 1).
Proof.
  intros Hb. destruct (built_sound w Hb) as (k & _ & _ & ((Hwf & _) & _ & Hsz)).
  pose proof (wf_root_left _ _ _ Hwf) as Hl.
  pose proof (root_counts _ _ _ Hwf Hsz) as Hr.
  refine (conj Hl (conj Hr _)).
  intros n Hn. destruct (wf_bounds _ _ _ Hwf n Hn) as (? & ? & ?). lia.
Qed.

Lemma root_right_counts_nodes_witness :
  built fixture
  /\ Right (mem fixture) (rootNode (ns fixture)) + 1
     = 2 * Z.of_nat (length (nodes (ns fixture))).
Proof.
  refine (conj built_fixture _).
  exact (proj1 (proj2 (root_right_counts_nodes fixture built_fixture))).
Defined.

(** X11: in a built store the level of a member is the number of members
    whose bounds strictly enclose its own (left smaller, right larger). *)
Theorem Level_counts_enclosers (w : world) (n : loc) :
  built w -> In n (nodes (ns w)) ->
  Level (mem w) n
  = Z.of_nat (length (filter (fun x => (Left (mem w) x <? Left (mem w) n)
                                       && (Right (mem w) n <? Right (mem w) x))
                        (nodes (ns w)))).
Proof.
  intros Hb Hn. destruct (built_sound w Hb) as (k & _ & _ & ((Hwf & _) & _)).
  exact (wf_level _ _ _ Hwf n Hn).
Qed.

Lemma Level_counts_enclosers_witness :
  built fixture /\ In 6%nat (nodes (ns fixture))
  /\ Level (mem fixture) 6%nat
     = Z.of_nat (length (filter (fun x =>
                    (Left (mem fixture) x <? Left (mem fixture) 6%nat)
                    && (Right (mem fixture) 6%nat <? Right (mem fixture) x))
                  (nodes (ns fixture)))).
Proof.
  assert (Hn : In 6%nat (nodes (ns fixture))) by (vm_compute; tauto).
  refine (conj built_fixture (conj Hn _)).
  exact (Level_counts_enclosers fixture 6%nat built_fixture Hn).
Defined.

(** ** The order of Branch *)

(** X12: in a built store the slice [Branch] returns starts with the node
    it was asked for, and with the root when it was asked for nil. *)
Theorem Branch_starts_with_node (w : world) (node : option loc) :
  built w -> member_or_nil (ns w) node ->
  exists rest, snd (Branch w node) = Some (resolve (ns w) node :: rest).
Proof.
  intros Hb Hm. destruct (built_sound w Hb) as (k & Hk0 & Hk & (Hgood & _)).
  pose proof Hgood as [Hwf _].
  pose proof (resolve_In w node Hwf Hm) as Hr.
  set (r := resolve (ns w) node) in *.
  assert (Hres : exists L, snd (Branch w node) = Some L
            /\ StronglySorted (left_le (mem w)) L /\ In r L
            /\ forall x, In x L ->
                 In x (nodes (ns w)) /\ Left (mem w) r <= Left (mem w) x).
  { destruct node as [nd|].
    - subst r. cbn [resolve] in *.
      eexists. split; [now apply Branch_member|]. split; [|split].
      + apply Sorted_StronglySorted; [apply left_le_trans|].
        apply filter_sorted, sort_nodes_sorted.
      + apply filter_In. split; [now apply sort_nodes_In|].
        apply in_branch_true. lia.
      + intros x Hx. apply filter_In in Hx. destruct Hx as [Hx Sx].
        apply sort_nodes_In in Hx. apply in_branch_true in Sx. tauto.
    - eexists. split; [apply Branch_all|]. split; [|split].
      + apply Sorted_StronglySorted; [apply left_le_trans|].
        apply sort_nodes_sorted.
      + now apply sort_nodes_In.
      + intros x Hx. apply sort_nodes_In in Hx. split; [assumption|].
        unfold r. cbn [resolve]. rewrite (wf_root_left _ _ _ Hwf).
        now destruct (wf_bounds _ _ _ Hwf x Hx). }
  destruct Hres as (L & HL & Hs & HrL & Hall). rewrite HL.
  destruct L as [|x rest]; [contradiction|]. exists rest. do 2 f_equal.
  destruct HrL as [|HrL]; [assumption|].
  destruct (Hall x (or_introl eq_refl)) as [Hx Hle].
  apply StronglySorted_inv in Hs. destruct Hs as [_ Hhd].
  rewrite Forall_forall in Hhd. specialize (Hhd r HrL). unfold left_le in Hhd.
  assert (Hk' : 0 <= k < 2 ^ 62) by lia.
  apply (good_distinct k w Hgood x r Hx Hr). left. lia.
Qed.

Lemma Branch_starts_with_node_witness :
  built fixture /\ member_or_nil (ns fixture) (Some 3%nat)
  /\ exists rest, snd (Branch fixture (Some 3%nat)) = Some (3%nat :: rest).
Proof.
  assert (Hm : member_or_nil (ns fixture) (Some 3%nat)) by (vm_compute; tauto).
  refine (conj built_fixture (conj Hm _)).
  exact (Branch_starts_with_node fixture (Some 3%nat) built_fixture Hm).
Defined.

(** ** Lookups after a change *)

(** X13: after a successful [Delete(node)] on a built store, [FindById]
    of the identifier a member had returns nil when the member was in the
    branch of [node], and the member itself when it was not. *)
Theorem FindById_after_Delete (w : world) (nd q : loc) :
  built w -> snd (Delete w (Some nd)) = None -> In q (nodes (ns w)) ->
  FindById (fst (Delete w (Some nd))) (Id (mem w) q)
  = if in_branch (mem w) nd q then None else Some q.
Proof.
  intros Hb Hnil Hq.
  destruct (built_sound w Hb) as (k & _ & _ & ((Hwf & _) & (_ & _ & Hinj) & _)).
  destruct (Delete_effect w nd Hnil (wf_nodup _ _ _ Hwf)) as (Hnodes & _).
  destruct (Delete_ids w nd Hnil (wf_nodup _ _ _ Hwf)) as (Hid & _).
  unfold FindById. rewrite Hnodes.
  destruct (find _ _) as [x|] eqn:Hf.
  - apply find_some in Hf. destruct Hf as [Hx He]. apply Z.eqb_eq in He.
    apply filter_In in Hx. destruct Hx as [Hx Hs]. rewrite Hid in He.
    assert (x = q) by now apply Hinj. subst x.
    rewrite survives_in_branch in Hs. apply negb_true_iff in Hs. now rewrite Hs.
  - destruct (in_branch (mem w) nd q) eqn:Sq; [reflexivity|]. exfalso.
    assert (Hq' : In q (filter (fun n => survives (mem w nd) (mem w n))
                          (nodes (ns w)))).
    { apply filter_In. split; [assumption|].
      rewrite survives_in_branch. now rewrite Sq. }
    pose proof (find_none _ _ Hf q Hq') as He. cbv beta in He.
    rewrite Hid, Z.eqb_refl in He. discriminate.
Qed.

Lemma FindById_after_Delete_witness :
  built fixture /\ snd (Delete fixture (Some 3%nat)) = None
  /\ In 6%nat (nodes (ns fixture))
  /\ FindById (fst (Delete fixture (Some 3%nat))) (Id (mem fixture) 6%nat)
     = if in_branch (mem fixture) 3%nat 6%nat then None else Some 6%nat.
Proof.
  assert (Hnil : snd (Delete fixture (Some 3%nat)) = None)
    by (vm_compute; reflexivity).
  assert (Hq : In 6%nat (nodes (ns fixture))) by (vm_compute; tauto).
  refine (conj built_fixture (conj Hnil (conj Hq _))).
  exact (FindById_after_Delete fixture 3%nat 6%nat built_fixture Hnil Hq).
Defined.

(** ** Parent of the other members *)

(** [s.parent] of a member is the same in two stores that satisfy the
    invariant and have the same root, when what it found in the first one
    is in the second, still encloses the member and is still one level
    up. *)
Lemma parent_kept (k k' : Z) (w w' : world) (q : loc) :
  good k w -> 0 <= k < 2 ^ 62 -> good k' w' -> 0 <= k' < 2 ^ 62 ->
  rootNode (ns w') = rootNode (ns w) ->
  In q (nodes (ns w)) -> In q (nodes (ns w')) ->
  (forall p, In p (nodes (ns w)) -> encloses (mem w) p q = true ->
             Level (mem w) q = Level (mem w) p + 1 ->
             In p (nodes (ns w')) /\ encloses (mem w') p q = true
             /\ Level (mem w') q = Level (mem w') p + 1) ->
  parent w' q = parent w q.
Proof.
  intros Hgood Hk Hgood' Hk' Hroot Hq Hq' Hkeep.
  destruct (parent w q) as [p|] eqn:Hpar.
  - destruct (parent_spec k w q p Hgood Hk Hq Hpar) as (Hp & He & Hl).
    destruct (Hkeep p Hp He Hl) as (Hp' & He' & Hl').
    now apply (parent_unique k').
  - apply (parent_none_iff k w q Hgood Hk Hq) in Hpar.
    apply (parent_none_iff k' w' q Hgood' Hk' Hq'). congruence.
Qed.

Lemma Add_keeps_parent (k : Z) (w : world) (n : loc) (parent_arg : option loc)
  (q : loc) :
  good k w -> 0 <= k -> k + 1 < 2 ^ 62 -> ~ In n (nodes (ns w)) ->
  snd (Add w n parent_arg) = None -> In q (nodes (ns w)) ->
  parent (fst (Add w n parent_arg)) q = parent w q.
Proof.
  intros Hgood Hk0 Hk Hn Hnil Hq. pose proof Hgood as [Hwf _].
  pose proof (Inv_Add k w n parent_arg Hgood Hk0 Hk Hn Hnil) as Hgood'.
  destruct (Add_renumber k w n parent_arg Hgood Hk0 Hk Hn Hnil) as (Hold & _).
  destruct (Add_effect w n parent_arg Hnil (wf_nodup _ _ _ Hwf))
    as (Hnodes & Hroot & _).
  assert (Hsub : forall x, In x (nodes (ns w)) ->
            In x (nodes (ns (fst (Add w n parent_arg)))))
    by (intros x Hx; rewrite Hnodes; apply in_or_app; now left).
  apply (parent_kept k (k + 1)); try assumption; try lia; [now apply Hsub|].
  intros p Hp He Hl. split; [now apply Hsub|].
  destruct (Hold p Hp) as (Lp & Rp & Vp). destruct (Hold q Hq) as (Lq & Rq & Vq).
  apply encloses_true in He. split; [|lia].
  apply encloses_true. rewrite Lp, Rp, Lq, Rq. unfold open_gap. zifs; lia.
Qed.

Lemma Delete_keeps_parent (k : Z) (w : world) (nd q : loc) :
  good k w -> 0 <= k < 2 ^ 62 ->
  snd (Delete w (Some nd)) = None ->
  In q (nodes (ns w)) -> in_branch (mem w) nd q = false ->
  parent (fst (Delete w (Some nd))) q = parent w q.
Proof.
  intros Hgood Hk Hnil Hq Sq. pose proof Hgood as [Hwf _].
  pose proof (Inv_Delete k w (Some nd) Hgood Hk Hnil) as Hgood'.
  pose proof (Delete_renumber k w nd Hgood Hk Hnil) as Hren.
  destruct (Delete_effect w nd Hnil (wf_nodup _ _ _ Hwf)) as (Hnodes & Hroot & _).
  destruct (proj1 (Delete_nil _ _) Hnil) as (x & Hx & Hne & Hnd).
  inversion Hx; subst x.
  assert (Hsurv : forall x, In x (nodes (ns w)) -> in_branch (mem w) nd x = false ->
            survives (mem w nd) (mem w x) = true
            /\ In x (nodes (ns (fst (Delete w (Some nd)))))
            /\ (Right (mem w) x < Left (mem w) nd
                \/ Right (mem w) nd < Left (mem w) x
                \/ (Left (mem w) x < Left (mem w) nd
                    /\ Right (mem w) nd < Right (mem w) x))).
  { intros x Hx' Sx.
    assert (Hs : survives (mem w nd) (mem w x) = true)
      by (rewrite survives_in_branch; now rewrite Sx).
    refine (conj Hs (conj _ _)).
    - rewrite Hnodes. apply filter_In. now split.
    - assert (Hxn : x <> nd).
      { intros ->. rewrite survives_self in Hs. discriminate. }
      pose proof (wf_sep _ _ _ Hwf x nd Hx' Hnd Hxn) as Hsep.
      apply in_branch_false in Sx. unfold sep in Hsep. lia. }
  destruct (Hsurv q Hq Sq) as (Hsq & Hq' & Hcq).
  apply (parent_kept k k); try assumption.
  intros p Hp He Hl. apply encloses_true in He.
  assert (Sp : in_branch (mem w) nd p = false).
  { apply in_branch_false. apply in_branch_false in Sq. lia. }
  destruct (Hsurv p Hp Sp) as (Hsp & Hp' & Hcp).
  destruct (Hren p Hp Hsp) as (Lp & Rp & Vp).
  destruct (Hren q Hq Hsq) as (Lq & Rq & Vq).
  destruct (wf_bounds _ _ _ Hwf nd Hnd) as (_ & ? & _).
  destruct (wf_bounds _ _ _ Hwf q Hq) as (_ & ? & _).
  refine (conj Hp' (conj _ _)); [|lia].
  apply encloses_true. rewrite Lp, Rp, Lq, Rq. unfold close_gap. zifs; lia.
Qed.

Lemma Move_keeps_parent (k : Z) (w : world) (node : loc)
  (parent_arg : option loc) (q : loc) :
  good k w -> 0 <= k < 2 ^ 62 ->
  In node (nodes (ns w)) -> member_or_nil (ns w) parent_arg ->
  snd (Move w node parent_arg) = None ->
  In q (nodes (ns w)) -> q <> node ->
  parent (fst (Move w node parent_arg)) q = parent w q.
Proof.
  intros Hgood Hk Hnode Hpar Hnil Hq Hqn. pose proof Hgood as [Hwf _].
  pose proof (Inv_Move k w node parent_arg Hgood Hk Hnode Hpar Hnil) as Hgood'.
  pose proof (Move_renumber k w node parent_arg Hgood Hk Hnode Hpar Hnil) as Hren.
  cbv zeta in Hren.
  destruct (Move_effect w node parent_arg Hnil (wf_nodup _ _ _ Hwf))
    as (Hnodes & Hroot & _).
  pose proof (resolve_In w parent_arg Hwf Hpar) as Hdst.
  pose proof (Move_not_within w node parent_arg Hnil) as Hout.
  assert (Hsub : forall x, In x (nodes (ns w)) ->
            In x (nodes (ns (fst (Move w node parent_arg)))))
    by (intros x Hx; rewrite Hnodes; now apply sort_nodes_In).
  apply (parent_kept k k); try assumption; [now apply Hsub|].
  intros p Hp He Hl. split; [now apply Hsub|].
  assert (Hside : in_branch (mem w) node p = in_branch (mem w) node q).
  { destruct (in_branch (mem w) node q) eqn:Sq.
    - destruct (Nat.eq_dec p node) as [->|Hpn]; [apply in_branch_true; lia|].
      assert (Hnq : encloses (mem w) node q = true).
      { apply in_branch_true in Sq. apply encloses_true.
        pose proof (wf_sep _ _ _ Hwf q node Hq Hnode Hqn) as Hs.
        destruct (wf_bounds _ _ _ Hwf q Hq) as (_ & ? & _).
        unfold sep in Hs. lia. }
      destruct (enclosers_chain k w Hgood p node q Hp Hnode Hq Hpn He Hnq)
        as [Hpe|Hpe].
      + pose proof (level_mono k w Hgood p node Hp Hnode Hpe).
        pose proof (level_mono k w Hgood node q Hnode Hq Hnq). lia.
      + apply encloses_true in Hpe. apply in_branch_true. lia.
    - apply in_branch_false. apply in_branch_false in Sq.
      apply encloses_true in He. lia. }
  split.
  - rewrite (Move_encloses_same_side (mem w) _ (nodes (ns w)) (rootNode (ns w))
               node _ Hwf Hnode Hdst Hout Hren p q Hp Hq Hside). exact He.
  - destruct (Hren p Hp) as (_ & _ & ->). destruct (Hren q Hq) as (_ & _ & ->).
    rewrite Hside. destruct (in_branch (mem w) node q); lia.
Qed.

(** A call moves this member to a new place. *)
Definition moves (c : call) (q : loc) : Prop :=
  match c with CallMove node _ => q = node | _ => False end.

(** X14: a successful [Add] of a new handle, [Delete], or [Move] of members
    on a built store changes the [Parent] of no member that it leaves in
    the store, except the one [Move] was asked to move. *)
Theorem Parent_unchanged (w : world) (c : call) (q : loc) :
  built w -> admissible w c -> snd (exec w c) = None ->
  In q (nodes (ns w)) -> In q (nodes (ns (fst (exec w c)))) -> ~ moves c q ->
  Parent (fst (exec w c)) q = Parent w q.
Proof.
  intros Hb Hadm Hnil Hq Hq' Hmv.
  destruct (built_sound w Hb) as (k & Hk0 & Hk & (Hgood & _)).
  pose proof Hgood as [Hwf _].
  assert (Hk' : 0 <= k < 2 ^ 62) by lia.
  unfold Parent. destruct c as [n p|n|n p]; cbn [exec admissible moves] in *.
  - now apply (Add_keeps_parent k).
  - destruct (proj1 (Delete_nil _ _) Hnil) as (nd & -> & _).
    apply (Delete_keeps_parent k); try assumption.
    destruct (Delete_effect w nd Hnil (wf_nodup _ _ _ Hwf)) as (Hnodes & _).
    rewrite Hnodes in Hq'. apply filter_In in Hq'. destruct Hq' as [_ Hs].
    rewrite survives_in_branch in Hs. now apply negb_true_iff in Hs.
  - destruct Hadm as [Hn Hp]. now apply (Move_keeps_parent k).
Qed.

Lemma Parent_unchanged_witness :
  built fixture /\ admissible fixture (CallMove 4%nat (Some 2%nat))
  /\ snd (exec fixture (CallMove 4%nat (Some 2%nat))) = None
  /\ In 6%nat (nodes (ns fixture))
  /\ In 6%nat (nodes (ns (fst (exec fixture (CallMove 4%nat (Some 2%nat))))))
  /\ Parent (fst (exec fixture (CallMove 4%nat (Some 2%nat)))) 6%nat
     = Parent fixture 6%nat.
Proof.
  assert (Hadm : admissible fixture (CallMove 4%nat (Some 2%nat)))
    by (vm_compute; tauto).
  assert (Hnil : snd (exec fixture (CallMove 4%nat (Some 2%nat))) = None)
    by (vm_compute; reflexivity).
  assert (Hq : In 6%nat (nodes (ns fixture))) by (vm_compute; tauto).
  assert (Hq' : In 6%nat
                  (nodes (ns (fst (exec fixture (CallMove 4%nat (Some 2%nat)))))))
    by (vm_compute; tauto).
  assert (Hmv : ~ moves (CallMove 4%nat (Some 2%nat)) 6%nat)
    by (cbn [moves]; discriminate).
  refine (conj built_fixture (conj Hadm (conj Hnil (conj Hq (conj Hq' _))))).
  exact (Parent_unchanged fixture (CallMove 4%nat (Some 2%nat)) 6%nat
           built_fixture Hadm Hnil Hq Hq' Hmv).
Defined.

(** ** Counting *)

(** X15: a successful [Delete(node)] on a built store takes
    (right(node) - left(node) + 1) / 2 handles out of the slice, and the
    right bound of the root goes down by right(node) - left(node) + 1. *)
Theorem Delete_count (w : world) (nd : loc) :
  built w -> snd (Delete w (Some nd)) = None ->
  let w' := fst (Delete w (Some nd)) in
  let span := Right (mem w) nd - Left (mem w) nd + 1 in
  2 * Z.of_nat (length (nodes (ns w')))
  = 2 * Z.of_nat (length (nodes (ns w))) - span
  /\ Right (mem w') (rootNode (ns w')) = Right (mem w) (rootNode (ns w)) - span.
Proof.
  intros Hb Hnil w' span.
  destruct (built_sound w Hb) as (k & Hk0 & Hk & Hs).
  pose proof (sound_step k w (CallDelete (Some nd)) Hs Hk0 Hk I)
    as ((Hwf' & _) & _ & Hsz').
  destruct Hs as ((Hwf & _) & _ & Hsz).
  cbn [exec] in Hwf', Hsz'. fold w' in Hwf', Hsz'.
  destruct (Delete_effect w nd Hnil (wf_nodup _ _ _ Hwf)) as (Hnodes & _).
  destruct (proj1 (Delete_nil _ _) Hnil) as (x & Hx & _ & Hnd).
  inversion Hx; subst x.
  fold w' in Hnodes.
  assert (Hlen : 2 * Z.of_nat (length (nodes (ns w')))
                 = 2 * Z.of_nat (length (nodes (ns w))) - span).
  { rewrite Hnodes.
    rewrite (filter_ext _ (fun n => negb (in_branch (mem w) nd n)))
      by (intros n; apply survives_in_branch).
    pose proof (filter_length (in_branch (mem w) nd) (nodes (ns w))) as Hfl.
    specialize (Hsz nd Hnd). unfold width, size, cnt in Hsz.
    fold span in Hsz. lia. }
  split; [exact Hlen|].
  pose proof (root_counts _ _ _ Hwf Hsz). pose proof (root_counts _ _ _ Hwf' Hsz').
  lia.
Qed.

Lemma Delete_count_witness :
  built fixture /\ snd (Delete fixture (Some 3%nat)) = None
  /\ 2 * Z.of_nat (length (nodes (ns (fst (Delete fixture (Some 3%nat))))))
     = 2 * Z.of_nat (length (nodes (ns fixture)))
       - (Right (mem fixture) 3%nat - Left (mem fixture) 3%nat + 1).
Proof.
  assert (Hnil : snd (Delete fixture (Some 3%nat)) = None)
    by (vm_compute; reflexivity).
  refine (conj built_fixture (conj Hnil _)).
  exact (proj1 (Delete_count fixture 3%nat built_fixture Hnil)).
Defined.

(** The bounds in use: the left bounds of the slice, then the right ones. *)
Definition bounds (h : heap) (l : list loc) : list Z :=
  map (Left h) l ++ map (Right h) l.

Lemma bounds_NoDup (h : heap) (l : list loc) (root : loc) :
  wf h l root -> NoDup (bounds h l).
Proof.
  intros Hwf.
  assert (Hsep : forall a b, In a l -> In b l ->
            (Left h a = Left h b \/ Right h a = Right h b -> a = b)
            /\ Left h a <> Right h b).
  { intros a b Ha Hb.
    destruct (wf_bounds _ _ _ Hwf a Ha) as (_ & ? & _).
    destruct (wf_bounds _ _ _ Hwf b Hb) as (_ & ? & _).
    destruct (Nat.eq_dec a b) as [->|Hne]; [split; [reflexivity | lia]|].
    pose proof (wf_sep _ _ _ Hwf a b Ha Hb Hne) as Hs. unfold sep in Hs.
    split; lia. }
  unfold bounds. apply NoDup_app.
  - apply NoDup_map_NoDup_ForallPairs; [|exact (wf_nodup _ _ _ Hwf)].
    intros a b Ha Hb Heq. apply (Hsep a b Ha Hb). now left.
  - apply NoDup_map_NoDup_ForallPairs; [|exact (wf_nodup _ _ _ Hwf)].
    intros a b Ha Hb Heq. apply (Hsep a b Ha Hb). now right.
  - intros v Hl Hr. apply in_map_iff in Hl, Hr.
    destruct Hl as (a & <- & Ha), Hr as (b & Heq & Hb).
    now apply (Hsep a b Ha Hb).
Qed.

(** X16: in a built store the numbering has no gap and no repeat: every
    integer from 0 to right(root) is the left or the right bound of some
    member, and of one member only. *)
Theorem bounds_are_dense (w : world) (v : Z) :
  built w -> 0 <= v <= Right (mem w) (rootNode (ns w)) ->
  exists n, In n (nodes (ns w))
    /\ (Left (mem w) n = v \/ Right (mem w) n = v)
    /\ forall m, In m (nodes (ns w)) ->
         Left (mem w) m = v \/ Right (mem w) m = v -> m = n.
Proof.
  intros Hb Hv. destruct (built_sound w Hb) as (k & _ & _ & ((Hwf & _) & _ & Hsz)).
  pose proof (root_counts _ _ _ Hwf Hsz) as Hr.
  pose proof (bounds_NoDup _ _ _ Hwf) as Hnd.
  assert (Hincl : incl (map Z.of_nat (seq 0 (2 * length (nodes (ns w)))))
                    (bounds (mem w) (nodes (ns w)))).
  { apply NoDup_length_incl; [assumption| |].
    - unfold bounds. rewrite length_app, !length_map, length_seq. lia.
    - intros x Hx. unfold bounds in Hx. apply in_app_or in Hx.
      assert (Hrange : 0 <= x < 2 * Z.of_nat (length (nodes (ns w)))).
      { destruct Hx as [Hx|Hx]; apply in_map_iff in Hx;
          destruct Hx as (n & <- & Hn);
          destruct (wf_bounds _ _ _ Hwf n Hn) as (? & ? & ?); lia. }
      apply in_map_iff. exists (Z.to_nat x). split; [lia|].
      apply in_seq. lia. }
  assert (Hin : In v (bounds (mem w) (nodes (ns w)))).
  { apply Hincl. apply in_map_iff. exists (Z.to_nat v).
    split; [lia|]. apply in_seq. lia. }
  assert (Hex : exists n, In n (nodes (ns w))
                  /\ (Left (mem w) n = v \/ Right (mem w) n = v)).
  { unfold bounds in Hin. apply in_app_or in Hin.
    destruct Hin as [Hin|Hin]; apply in_map_iff in Hin;
      destruct Hin as (n & Heq & Hn); exists n; tauto. }
  destruct Hex as (n & Hn & Hnv). exists n. refine (conj Hn (conj Hnv _)).
  intros m Hm Hmv.
  destruct (Nat.eq_dec m n) as [|Hne]; [assumption|]. exfalso.
  pose proof (wf_sep _ _ _ Hwf m n Hm Hn Hne) as Hsep. unfold sep in Hsep.
  destruct (wf_bounds _ _ _ Hwf n Hn) as (_ & ? & _).
  destruct (wf_bounds _ _ _ Hwf m Hm) as (_ & ? & _).
  lia.
Qed.

Lemma bounds_are_dense_witness :
  built fixture /\ 0 <= 7 <= Right (mem fixture) (rootNode (ns fixture))
  /\ exists n, In n (nodes (ns fixture))
       /\ (Left (mem fixture) n = 7 \/ Right (mem fixture) n = 7).
Proof.
  assert (Hv : 0 <= 7 <= Right (mem fixture) (rootNode (ns fixture)))
    by (vm_compute; split; discriminate).
  refine (conj built_fixture (conj Hv _)).
  destruct (bounds_are_dense fixture 7 built_fixture Hv) as (n & Hn & Hnv & _).
  exists n. exact (conj Hn Hnv).
Defined.

(** ** What no call writes *)

(** The two fields of a record that the renumbering never touches. *)
Definition labels (v : Node) : Z * string := (NodeId v, NodeName v).

Lemma Add_fn_labels (r : Z) (v : Node) : labels (Add_fn r v) = labels v.
Proof.
  unfold Add_fn. destruct (NodeRight v >=? r); [|reflexivity]. node_simpl.
  destruct (NodeLeft v >? r); reflexivity.
Qed.

Lemma Delete_fn_labels (nd v : Node) : labels (Delete_fn nd v) = labels v.
Proof.
  unfold Delete_fn. destruct (survives nd v); [|reflexivity].
  destruct (NodeRight v >? NodeRight nd); node_simpl;
    destruct (NodeLeft v >? NodeLeft nd); reflexivity.
Qed.

Lemma Move_up_fn_labels (a rn sk : Z) (v : Node) :
  labels (Move_up_fn a rn sk v) = labels v.
Proof.
  unfold Move_up_fn.
  destruct ((NodeRight v <? a) && (NodeRight v >? rn)); node_simpl;
    destruct ((NodeLeft v <? a) && (NodeLeft v >? rn)); reflexivity.
Qed.

Lemma Move_down_fn_labels (b rn sk : Z) (v : Node) :
  labels (Move_down_fn b rn sk v) = labels v.
Proof.
  unfold Move_down_fn.
  destruct ((NodeRight v >? b) && (NodeRight v <=? rn)); node_simpl;
    destruct ((NodeLeft v >? b) && (NodeLeft v <=? rn)); reflexivity.
Qed.

Lemma fold_labels (body : heap -> loc -> heap) :
  (forall h n q, labels (body h n q) = labels (h q)) ->
  forall l h q, labels (fold_left body l h q) = labels (h q).
Proof.
  intros Hbody l. induction l as [|n l IH]; intros h q; [reflexivity|].
  cbn [fold_left]. now rewrite IH.
Qed.

Lemma at_labels (g : Node -> Node) (h : heap) (n q : loc) :
  (forall v, labels (g v) = labels v) ->
  labels (if Nat.eqb q n then g (h n) else h q) = labels (h q).
Proof.
  intros Hg. destruct (Nat.eqb_spec q n) as [->|_]; [apply Hg | reflexivity].
Qed.

Lemma Delete_fold_labels (nd : loc) (l : list loc) :
  forall h acc q,
    labels (fst (fold_left (Delete_body nd) l (h, acc)) q) = labels (h q).
Proof.
  induction l as [|n l IH]; intros h acc q; [reflexivity|].
  cbn [fold_left].
  destruct (Delete_body_at nd h acc n) as (h1 & -> & Hh1).
  rewrite IH, Hh1. apply at_labels. intros v. apply Delete_fn_labels.
Qed.

(** X17: no call renames a handle, in the store or out of it, and the only
    identifier a call writes is the one a successful [Add] gives to the
    handle it inserts, maxId + 1 as an int64 sum.  [Delete] and [Move]
    write no identifier. *)
Theorem exec_keeps_labels (w : world) (c : call) (q : loc) :
  Name (mem (fst (exec w c))) q = Name (mem w) q
  /\ (Id (mem (fst (exec w c))) q = Id (mem w) q
      \/ exists p, c = CallAdd q p /\ snd (exec w c) = None
           /\ Id (mem (fst (exec w c))) q = add64 (maxId (ns w)) 1).
Proof.
  assert (Hsplit : forall h' : heap,
            labels (h' q) = labels (mem w q) ->
            Name h' q = Name (mem w) q /\ Id h' q = Id (mem w) q).
  { intros h' H. unfold labels in H. inversion H. unfold Name, Id. now split. }
  assert (Hsame : forall w' : world,
            labels (mem w' q) = labels (mem w q) ->
            Name (mem w') q = Name (mem w) q
            /\ (Id (mem w') q = Id (mem w) q
                \/ exists p, c = CallAdd q p /\ snd (exec w c) = None
                     /\ Id (mem w') q = add64 (maxId (ns w)) 1)).
  { intros w' H. destruct (Hsplit _ H). split; [assumption | now left]. }
  destruct c as [n p|node|node p]; cbn [exec] in *.
  - unfold Add in *.
    destruct (match p with
              | Some p0 => if negb (exists_ (ns w) p0) then None else Some p0
              | None => Some (rootNode (ns w))
              end) as [r|]; [|now apply Hsame].
    cbn [fst snd mem ns].
    set (hn := SetRight _ n _).
    assert (Hfold : labels (fold_left (Add_body (Right (mem w) r)) (nodes (ns w)) hn q)
                    = labels (hn q)).
    { apply fold_labels. intros h m x. rewrite Add_body_at.
      apply at_labels. intros v. apply Add_fn_labels. }
    destruct (Nat.eqb_spec q n) as [->|Hq].
    + assert (Hn : labels (hn n)
                   = (add64 (maxId (ns w)) 1, NodeName (mem w n))).
      { unfold hn. heap_unfold. rewrite !Nat.eqb_refl. reflexivity. }
      rewrite Hn in Hfold. unfold labels in Hfold. injection Hfold as Hi Hm.
      unfold Name, Id. split; [assumption|].
      right. exists p. exact (conj eq_refl (conj eq_refl Hi)).
    + assert (Hn : labels (hn q) = labels (mem w q)).
      { unfold hn. heap_unfold. apply Nat.eqb_neq in Hq. now rewrite !Hq. }
      rewrite Hn in Hfold. destruct (Hsplit _ Hfold). split; [assumption | now left].
  - unfold Delete in *. destruct node as [nd|]; [|now apply Hsame].
    destruct (Nat.eqb nd (rootNode (ns w))); [now apply Hsame|].
    destruct (negb (exists_ (ns w) nd)); [now apply Hsame|].
    pose proof (Delete_fold_labels nd (nodes (ns w)) (mem w) [] q) as Hfold.
    destruct (fold_left _ _ _) as [h' l']. cbn [fst snd mem] in *.
    destruct (Hsplit _ Hfold). split; [assumption | now left].
  - unfold Move in *.
    destruct (Level (mem w) node =? 0); [now apply Hsame|].
    destruct (_ && _); [now apply Hsame|].
    destruct (parent w node) as [cp|]; [|now apply Hsame].
    destruct (Nat.eqb cp _); [now apply Hsame|].
    assert (Hb : mem (fst (branch w (Some node))) = mem w).
    { unfold branch. cbn [ns mem nodes]. destruct (negb _); reflexivity. }
    destruct (branch w (Some node)) as [w1 res]. cbn [fst] in Hb.
    assert (Hup : forall a rn sk l,
              labels (fold_left (Move_up_body a rn sk) l (mem w1) q)
              = labels (mem w q)).
    { intros a rn sk l. rewrite fold_labels, Hb; [reflexivity|].
      intros h m x. rewrite Move_up_body_at.
      apply at_labels. intros v. apply Move_up_fn_labels. }
    assert (Hdown : forall b rn sk l,
              labels (fold_left (Move_down_body b rn sk) l (mem w1) q)
              = labels (mem w q)).
    { intros b rn sk l. rewrite fold_labels, Hb; [reflexivity|].
      intros h m x. rewrite Move_down_body_at.
      apply at_labels. intros v. apply Move_down_fn_labels. }
    assert (Hupd : forall se sl l h,
              labels (fold_left (Move_update_body se sl) l h q) = labels (h q)).
    { intros se sl l h. apply fold_labels.
      intros h0 m x. rewrite Move_update_body_at.
      apply at_labels. intros v. reflexivity. }
    destruct (_ <? _); apply Hsame; cbn [fst mem];
      rewrite Hupd; [apply Hup | apply Hdown].
Qed.

(** ** Identifiers over a run *)

Lemma run_app (cs1 cs2 : list call) :
  forall w, run w (cs1 ++ cs2) = run (run w cs1) cs2.
Proof.
  induction cs1 as [|c cs1 IH]; intros w; cbn [run app]; [reflexivity | apply IH].
Qed.

Lemma all_admissible_app (cs1 cs2 : list call) :
  forall w, all_admissible w (cs1 ++ cs2) ->
            all_admissible w cs1 /\ all_admissible (run w cs1) cs2.
Proof.
  induction cs1 as [|c cs1 IH]; intros w Ha; cbn [run app all_admissible] in *.
  - now split.
  - destruct Ha as [Hc Ha]. destruct (IH _ Ha). tauto.
Qed.

(** An identifier that the counter has passed belongs to the same handle
    after one more call, or to none. *)
Lemma id_owner_step (k : Z) (w : world) (c : call) (i : Z) (n : loc) :
  sound k w -> 0 <= k -> k + 1 < 2 ^ 62 -> admissible w c ->
  i <= maxId (ns w) ->
  (forall m, In m (nodes (ns w)) -> Id (mem w) m = i -> m = n) ->
  i <= maxId (ns (fst (exec w c)))
  /\ (forall m, In m (nodes (ns (fst (exec w c)))) ->
        Id (mem (fst (exec w c))) m = i -> m = n).
Proof.
  intros ((Hwf & _) & (Hmax & _) & _) Hk0 Hk Hadm Hi Hown.
  pose proof (wf_nodup _ _ _ Hwf) as Hnd.
  destruct (snd (exec w c)) as [e|] eqn:Hres.
  { rewrite (exec_error _ _ _ Hres). now split. }
  destruct c as [x p|[nd|]|x p]; cbn [exec admissible] in *.
  - destruct (Add_ids w x p Hres Hnd Hadm) as (Hold & Hnew & Hm).
    destruct (Add_effect w x p Hres Hnd) as (Hnodes & _).
    assert (Hm' : add64 (maxId (ns w)) 1 = maxId (ns w) + 1)
      by (apply add64_id; unfold min64, max64; lia).
    rewrite Hm' in *. rewrite Hnodes, Hm. split; [lia|].
    intros m Hin. apply in_app_or in Hin. destruct Hin as [Hin|[<-|[]]].
    + rewrite Hold by (intros ->; contradiction). now apply Hown.
    + rewrite Hnew. lia.
  - destruct (Delete_ids w nd Hres Hnd) as (Hold & Hm).
    destruct (Delete_effect w nd Hres Hnd) as (Hnodes & _).
    rewrite Hnodes, Hm. split; [assumption|].
    intros m Hin. apply filter_In in Hin. rewrite Hold. now apply Hown.
  - apply Delete_nil in Hres. destruct Hres as (y & Hy & _). discriminate.
  - destruct (Move_ids w x p Hres Hnd) as (Hold & Hm).
    destruct (Move_effect w x p Hres Hnd) as (Hnodes & _).
    rewrite Hnodes, Hm. split; [assumption|].
    intros m Hin. apply sort_nodes_In in Hin. rewrite Hold. now apply Hown.
Qed.

Lemma id_owner_run (cs : list call) :
  forall (k : Z) (w : world) (i : Z) (n : loc),
    sound k w -> 0 <= k -> k + Z.of_nat (length cs) < 2 ^ 62 ->
    all_admissible w cs ->
    i <= maxId (ns w) ->
    (forall m, In m (nodes (ns w)) -> Id (mem w) m = i -> m = n) ->
    forall m, In m (nodes (ns (run w cs))) -> Id (mem (run w cs)) m = i -> m = n.
Proof.
  induction cs as [|c cs IH]; intros k w i n Hs Hk0 Hk Hadm Hi Hown.
  - exact Hown.
  - cbn [run length all_admissible] in *. destruct Hadm as [Hc Hcs].
    assert (Hk1 : k + 1 < 2 ^ 62) by lia.
    destruct (id_owner_step k w c i n Hs Hk0 Hk1 Hc Hi Hown) as (Hi' & Hown').
    apply (IH (k + 1)); try assumption; try lia.
    now apply sound_step.
Qed.

(** X18: identifiers are never reused.  In a store built by admissible
    calls, take the identifier of a member; after any further admissible
    calls [FindById] of that identifier returns that same handle or nil,
    never another one (a handle that is deleted and added again gets a new
    identifier). *)
Theorem ids_never_reused (h : heap) (r : loc) (cs1 cs2 : list call) (n : loc) :
  let w1 := run (NewNestedSet h r) cs1 in
  let w2 := run w1 cs2 in
  Z.of_nat (length (cs1 ++ cs2)) + 1 < 2 ^ 62 ->
  all_admissible (NewNestedSet h r) (cs1 ++ cs2) ->
  In n (nodes (ns w1)) ->
  FindById w2 (Id (mem w1) n) = None \/ FindById w2 (Id (mem w1) n) = Some n.
Proof.
  intros w1 w2 Hlen Hadm Hn. rewrite length_app, Nat2Z.inj_add in Hlen.
  destruct (all_admissible_app _ _ _ Hadm) as [Ha1 Ha2]. fold w1 in Ha2.
  assert (Hs1 : sound (0 + Z.of_nat (length cs1)) w1)
    by (apply sound_run; try assumption; try lia; apply sound_fresh).
  pose proof Hs1 as (_ & (_ & Hrange & Hinj) & _).
  assert (Hown : forall m, In m (nodes (ns w2)) ->
            Id (mem w2) m = Id (mem w1) n -> m = n).
  { apply (id_owner_run cs2 (0 + Z.of_nat (length cs1)) w1); try assumption;
      try lia.
    - apply (Hrange n Hn).
    - intros m Hm Heq. now apply Hinj. }
  unfold FindById. destruct (find _ _) as [x|] eqn:Hf; [right | now left].
  apply find_some in Hf. destruct Hf as [Hx He]. apply Z.eqb_eq in He.
  f_equal. now apply Hown.
Qed.

Lemma ids_never_reused_witness :
  let cs2 := [CallDelete (Some 1%nat); CallAdd 2%nat None] in
  Z.of_nat (length (fixture_calls ++ cs2)) + 1 < 2 ^ 62
  /\ all_admissible (NewNestedSet heap0 0%nat) (fixture_calls ++ cs2)
  /\ In 2%nat (nodes (ns fixture))
  /\ (FindById (run fixture cs2) (Id (mem fixture) 2%nat) = None
      \/ FindById (run fixture cs2) (Id (mem fixture) 2%nat) = Some 2%nat).
Proof.
  intros cs2.
  assert (Hlen : Z.of_nat (length (fixture_calls ++ cs2)) + 1 < 2 ^ 62)
    by reflexivity.
  assert (Hadm : all_admissible (NewNestedSet heap0 0%nat) (fixture_calls ++ cs2)).
  { cbn [app fixture_calls cs2 all_admissible].
    repeat (split; [vm_compute; try tauto; intuition discriminate|]). exact I. }
  assert (Hn : In 2%nat (nodes (ns fixture))) by (vm_compute; tauto).
  refine (conj Hlen (conj Hadm (conj Hn _))).
  exact (ids_never_reused heap0 0%nat fixture_calls cs2 2%nat Hlen Hadm Hn).
Defined.

(** ** Move there and back *)

(** Rotating back: after the range [a..b] was moved to end before [c], the
    position that followed it, [b + 1], is where it has to go to return. *)
Lemma rotate_back (a b c x : Z) :
  a < b -> c < a \/ b + 1 < c ->
  rotate (a + slide a b c) (b + slide a b c) (rotate a b c (b + 1))
    (rotate a b c x) = x.
Proof.
  intros Hab Hc. unfold slide.
  destruct (Z.leb_spec c b) as [Hcb|Hcb].
  - assert (Hb1 : rotate a b c (b + 1) = b + 1) by (unfold rotate; zifs; lia).
    rewrite Hb1.
    assert (Hx : rotate a b c x
                 = if x <? c then x
                   else if x <? a then x + (b - a + 1)
                   else if x <=? b then x - (a - c) else x).
    { unfold rotate. destruct (Z.leb_spec c b); [reflexivity | lia]. }
    rewrite Hx. unfold rotate.
    destruct (Z.leb_spec (b + 1) (b + (c - a))); [lia|].
    zifs; lia.
  - assert (Hb1 : rotate a b c (b + 1) = a) by (unfold rotate; zifs; lia).
    rewrite Hb1.
    assert (Hx : rotate a b c x
                 = if x <? a then x
                   else if x <=? b then x + (c - 1 - b)
                   else if x <? c then x - (b - a + 1) else x).
    { unfold rotate. destruct (Z.leb_spec c b); [lia | reflexivity]. }
    rewrite Hx. unfold rotate.
    destruct (Z.leb_spec a (b + (c - 1 - b))); [|lia].
    zifs; lia.
Qed.

(** X19: moving a node away and back.  In a built store let [node] be a
    member and the last child of [q] ([Parent(node)] is [q] and
    right(node) + 1 = right(q)), and let [parent] be a member or nil.
    After a successful [Move(node, parent)], the call [Move(node, q)]
    succeeds as well and restores the left, right and level of every
    member; the slice holds the same handles. *)
Theorem Move_there_and_back (w : world) (node : loc) (parent_arg : option loc)
  (q : loc) :
  built w -> In node (nodes (ns w)) -> member_or_nil (ns w) parent_arg ->
  snd (Move w node parent_arg) = None ->
  Parent w node = Some q -> Right (mem w) node + 1 = Right (mem w) q ->
  let w1 := fst (Move w node parent_arg) in
  let w2 := fst (Move w1 node (Some q)) in
  snd (Move w1 node (Some q)) = None
  /\ Permutation (nodes (ns w)) (nodes (ns w2))
  /\ (forall x, In x (nodes (ns w)) ->
        Left (mem w2) x = Left (mem w) x
        /\ Right (mem w2) x = Right (mem w) x
        /\ Level (mem w2) x = Level (mem w) x).
Proof.
  intros Hb Hnode Hpar Hnil Hq Hlast w1 w2. unfold Parent in Hq.
  destruct (built_sound w Hb) as (k & Hk0 & Hk1 & (Hgood & _)).
  assert (Hk : 0 <= k < 2 ^ 62) by lia.
  pose proof Hgood as [Hwf _].
  pose proof (resolve_In w parent_arg Hwf Hpar) as Hp.
  pose proof (Move_not_within w node parent_arg Hnil) as Hout.
  pose proof (Move_renumber k w node parent_arg Hgood Hk Hnode Hpar Hnil) as Hren.
  cbv zeta in Hren.
  pose proof (Inv_Move k w node parent_arg Hgood Hk Hnode Hpar Hnil) as Hgood1.
  destruct (Move_effect w node parent_arg Hnil (wf_nodup _ _ _ Hwf))
    as (Hnodes1 & Hroot1 & _).
  destruct (Move_places k w node parent_arg Hgood Hk Hnode Hpar Hnil)
    as (Hpar1 & _ & Hlev1 & _).
  destruct (Move_dest _ _ _ node _ Hwf Hnode Hp Hout)
    as (_ & Ha & Hab & Hb' & Hc & Hcc).
  destruct (parent_spec k w node q Hgood Hk Hnode Hq) as (Hqin & Hqn & Hql).
  set (p := resolve (ns w) parent_arg) in *.
  fold w1 in Hren, Hgood1, Hnodes1, Hroot1, Hpar1, Hlev1.
  (* the old parent is not the new one *)
  assert (Hqp : q <> p).
  { intros ->. rewrite Move_snd in Hnil. unfold Move_check in Hnil.
    fold p in Hnil. rewrite Hq, Nat.eqb_refl in Hnil.
    destruct (Level (mem w) node =? 0); [discriminate|].
    destruct (in_branch (mem w) node p); discriminate. }
  assert (Hc1 : Right (mem w) p < Left (mem w) node
                \/ Right (mem w) node + 1 < Right (mem w) p).
  { destruct Hcc as [|Hcc]; [now left | right].
    destruct (Z.eq_dec (Right (mem w) node + 1) (Right (mem w) p)) as [He|]; [|lia].
    exfalso. apply Hqp. apply (good_distinct k w Hgood q p Hqin Hp). right. lia. }
  assert (Sq : in_branch (mem w) node q = false).
  { apply encloses_true in Hqn. apply in_branch_false. lia. }
  assert (Sn : in_branch (mem w) node node = true) by (apply in_branch_true; lia).
  (* the first call, on the handles the second one reads *)
  destruct (Move_inside (mem w) (mem w1) (nodes (ns w)) (rootNode (ns w)) node p
              Hwf Hnode Hp Hout Hren node Hnode Sn) as (_ & _ & _ & Ln1 & Rn1 & Vn1).
  destruct (Move_outside (mem w) (mem w1) (nodes (ns w)) (rootNode (ns w)) node p
              Hwf Hnode Hren q Hqin Sq) as (_ & _ & _ & _ & _ & Rq1 & Vq1).
  destruct (good_ranges k w p Hgood Hp) as (_ & _ & _ & Hlp).
  assert (Hin1 : forall x, In x (nodes (ns w)) -> In x (nodes (ns w1)))
    by (intros x Hx; rewrite Hnodes1; now apply sort_nodes_In).
  assert (Hnil2 : snd (Move w1 node (Some q)) = None).
  { rewrite Move_snd. unfold Move_check. cbn [resolve]. rewrite Hpar1.
    assert ((Level (mem w1) node =? 0) = false) as -> by (apply Z.eqb_neq; lia).
    rewrite (Move_in_branch_inside (mem w) (mem w1) (nodes (ns w))
               (rootNode (ns w)) node p Hwf Hnode Hp Hout Hren node q
               Hnode Hqin Sn), Sq.
    assert (Nat.eqb p q = false) as -> by (apply Nat.eqb_neq; congruence).
    reflexivity. }
  pose proof (Move_renumber k w1 node (Some q) Hgood1 Hk (Hin1 _ Hnode)
                (Hin1 _ Hqin) Hnil2) as Hren2.
  cbv zeta in Hren2. cbn [resolve] in Hren2. fold w2 in Hren2.
  destruct (Move_effect w1 node (Some q) Hnil2
              (wf_nodup _ _ _ (proj1 Hgood1))) as (Hnodes2 & _).
  fold w2 in Hnodes2.
  refine (conj Hnil2 (conj _ _)).
  - rewrite Hnodes2, Hnodes1.
    eapply Permutation_trans; apply sort_nodes_perm.
  - intros x Hx. destruct (Hren2 x (Hin1 x Hx)) as (L2 & R2 & V2).
    destruct (Hren x Hx) as (L1 & R1 & V1).
    rewrite L2, R2, V2, Ln1, Rn1, Rq1, L1, R1.
    replace (Right (mem w) q) with (Right (mem w) node + 1) by lia.
    rewrite !(rotate_back _ _ _ _ Hab Hc1).
    refine (conj eq_refl (conj eq_refl _)).
    rewrite (Move_in_branch_inside (mem w) (mem w1) (nodes (ns w))
               (rootNode (ns w)) node p Hwf Hnode Hp Hout Hren node x
               Hnode Hx Sn).
    rewrite V1. destruct (in_branch (mem w) node x); [|reflexivity].
    fold p. lia.
Qed.

Lemma Move_there_and_back_witness :
  built fixture /\ In 5%nat (nodes (ns fixture))
  /\ member_or_nil (ns fixture) (Some 4%nat)
  /\ snd (Move fixture 5%nat (Some 4%nat)) = None
  /\ Parent fixture 5%nat = Some 1%nat
  /\ Right (mem fixture) 5%nat + 1 = Right (mem fixture) 1%nat
  /\ snd (Move (fst (Move fixture 5%nat (Some 4%nat))) 5%nat (Some 1%nat)) = None.
Proof.
  assert (Hn : In 5%nat (nodes (ns fixture))) by (vm_compute; tauto).
  assert (Hp : member_or_nil (ns fixture) (Some 4%nat)) by (vm_compute; tauto).
  assert (Hnil : snd (Move fixture 5%nat (Some 4%nat)) = None)
    by (vm_compute; reflexivity).
  assert (Hq : Parent fixture 5%nat = Some 1%nat) by (vm_compute; reflexivity).
  assert (Hl : Right (mem fixture) 5%nat + 1 = Right (mem fixture) 1%nat)
    by (vm_compute; reflexivity).
  refine (conj built_fixture (conj Hn (conj Hp (conj Hnil (conj Hq (conj Hl _)))))).
  exact (proj1 (Move_there_and_back fixture 5%nat (Some 4%nat) 1%nat built_fixture
                  Hn Hp Hnil Hq Hl)).
Defined.

(** ** The order of the survivors *)

(** A member outside of the branch of [nd] lies before it, after it, or
    around it. *)
Lemma outside_branch (h : heap) (l : list loc) (root nd x : loc) :
  wf h l root -> In nd l -> In x l -> in_branch h nd x = false ->
  Right h x < Left h nd \/ Right h nd < Left h x
  \/ (Left h x < Left h nd /\ Right h nd < Right h x).
Proof.
  intros Hwf Hnd Hx Sx.
  assert (Hxn : x <> nd).
  { intros ->. apply in_branch_false in Sx. lia. }
  pose proof (wf_sep _ _ _ Hwf x nd Hx Hnd Hxn) as Hsep.
  apply in_branch_false in Sx. unfold sep in Hsep. lia.
Qed.

(** X20: [Delete] keeps the order of what it leaves.  On a built store,
    [Branch(nil)] after a successful [Delete(node)] is [Branch(nil)] before
    it with the handles of the branch of [node] taken out. *)
Theorem Delete_keeps_order (w : world) (nd : loc) :
  built w -> snd (Delete w (Some nd)) = None ->
  exists L, snd (Branch w None) = Some L
    /\ snd (Branch (fst (Delete w (Some nd))) None)
       = Some (filter (fun n => negb (in_branch (mem w) nd n)) L).
Proof.
  intros Hb Hnil.
  destruct (built_sound w Hb) as (k & Hk0 & Hk1 & (Hgood & _)).
  assert (Hk : 0 <= k < 2 ^ 62) by lia.
  pose proof Hgood as [Hwf _].
  pose proof (Inv_Delete k w (Some nd) Hgood Hk Hnil) as Hgood'.
  pose proof (Delete_renumber k w nd Hgood Hk Hnil) as Hren.
  destruct (Delete_effect w nd Hnil (wf_nodup _ _ _ Hwf)) as (Hnodes & _).
  destruct (proj1 (Delete_nil _ _) Hnil) as (x & Hx & Hne & Hnd).
  inversion Hx; subst x.
  set (w' := fst (Delete w (Some nd))) in *.
  eexists. split; [apply Branch_all|]. rewrite Branch_all. f_equal. symmetry.
  assert (Hfil : nodes (ns w')
                 = filter (fun n => negb (in_branch (mem w) nd n)) (nodes (ns w))).
  { rewrite Hnodes. apply filter_ext. intros n. apply survives_in_branch. }
  apply sort_nodes_unique.
  - intros u v Hu Hv Heq. apply (good_distinct k w' Hgood' u v Hu Hv). now left.
  - rewrite Hfil. apply filter_perm, sort_nodes_perm.
  - apply StronglySorted_Sorted.
    apply (StronglySorted_weaken (left_le (mem w))).
    + intros u v Hu Hv Hle. apply filter_In in Hu, Hv.
      destruct Hu as [Hu Su], Hv as [Hv Sv].
      apply sort_nodes_In in Hu, Hv. apply negb_true_iff in Su, Sv.
      assert (Hsu : survives (mem w nd) (mem w u) = true)
        by (rewrite survives_in_branch; now rewrite Su).
      assert (Hsv : survives (mem w nd) (mem w v) = true)
        by (rewrite survives_in_branch; now rewrite Sv).
      destruct (Hren u Hu Hsu) as (Lu & _). destruct (Hren v Hv Hsv) as (Lv & _).
      pose proof (outside_branch _ _ _ nd u Hwf Hnd Hu Su).
      pose proof (outside_branch _ _ _ nd v Hwf Hnd Hv Sv).
      destruct (wf_bounds _ _ _ Hwf u Hu) as (_ & ? & _).
      destruct (wf_bounds _ _ _ Hwf v Hv) as (_ & ? & _).
      destruct (wf_bounds _ _ _ Hwf nd Hnd) as (_ & ? & _).
      unfold left_le in *. fold w' in Lu, Lv. rewrite Lu, Lv.
      unfold close_gap. zifs; lia.
    + apply Sorted_StronglySorted; [apply left_le_trans|].
      apply filter_sorted, sort_nodes_sorted.
Qed.

Lemma Delete_keeps_order_witness :
  built fixture /\ snd (Delete fixture (Some 1%nat)) = None
  /\ exists L, snd (Branch fixture None) = Some L
       /\ snd (Branch (fst (Delete fixture (Some 1%nat))) None)
          = Some (filter (fun n => negb (in_branch (mem fixture) 1%nat n)) L).
Proof.
  assert (Hnil : snd (Delete fixture (Some 1%nat)) = None)
    by (vm_compute; reflexivity).
  refine (conj built_fixture (conj Hnil _)).
  exact (Delete_keeps_order fixture 1%nat built_fixture Hnil).
Defined.

(** ** SortedNodes *)

(** [sn[i]]: out of range it panics ([None]). *)
Definition index (sn : list loc) (i : Z) : option loc :=
  if i <? 0 then None else nth_error sn (Z.to_nat i).

Definition Len (sn : list loc) : Z := Z.of_nat (length sn).

(** [sn.Less(i, j)]. *)
Definition Less (h : heap) (sn : list loc) (i j : Z) : option bool :=
  match index sn i, index sn j with
  | Some a, Some b => Some (Left h a <? Left h b)
  | _, _ => None
  end.

(** [sn[i] = v] for [i] in range. *)
Fixpoint put (sn : list loc) (i : nat) (v : loc) : list loc :=
  match sn, i with
  | [], _ => []
  | _ :: t, O => v :: t
  | x :: t, S i' => x :: put t i' v
  end.

(** [sn.Swap(i, j)]: both elements are read, then both are written. *)
Definition Swap (sn : list loc) (i j : Z) : option (list loc) :=
  match index sn i, index sn j with
  | Some a, Some b => Some (put (put sn (Z.to_nat i) b) (Z.to_nat j) a)
  | _, _ => None
  end.

Lemma index_Some (sn : list loc) (i : Z) :
  (exists a, index sn i = Some a) <-> 0 <= i < Len sn.
Proof.
  unfold index, Len. destruct (Z.ltb_spec i 0).
  - split; [intros (a & Ha); discriminate | lia].
  - split.
    + intros (a & Ha).
      assert (nth_error sn (Z.to_nat i) <> None) by congruence.
      apply nth_error_Some in H0. lia.
    + intros Hi. destruct (nth_error sn (Z.to_nat i)) eqn:He; [now eexists|].
      apply nth_error_None in He. lia.
Qed.

Lemma index_None (sn : list loc) (i : Z) :
  index sn i = None <-> ~ 0 <= i < Len sn.
Proof.
  rewrite <- index_Some. destruct (index sn i) as [a|].
  - split; [discriminate|]. intros H. exfalso. apply H. now exists a.
  - split; [|reflexivity]. intros _ (a & Ha). discriminate.
Qed.

Lemma length_put (sn : list loc) : forall i v, length (put sn i v) = length sn.
Proof.
  induction sn as [|x t IH]; intros [|i] v; cbn [put length]; try reflexivity.
  now rewrite IH.
Qed.

Lemma nth_error_put (sn : list loc) :
  forall i k v, (i < length sn)%nat ->
    nth_error (put sn i v) k = if Nat.eqb k i then Some v else nth_error sn k.
Proof.
  induction sn as [|x t IH]; intros [|i] [|k] v Hi; cbn [put length nth_error] in *;
    try lia; try reflexivity.
  rewrite IH by lia. reflexivity.
Qed.

Lemma put_split (l1 l2 : list loc) (x v : loc) :
  put (l1 ++ x :: l2) (length l1) v = l1 ++ v :: l2.
Proof. induction l1 as [|y l1 IH]; cbn [put app length]; [reflexivity | now rewrite IH]. Qed.

Lemma put_app_r (l1 l2 : list loc) (m : nat) (v : loc) :
  put (l1 ++ l2) (length l1 + m) v = l1 ++ put l2 m v.
Proof.
  induction l1 as [|y l1 IH]; cbn [put app length Nat.add]; [reflexivity|].
  now rewrite IH.
Qed.

Lemma perm_exchange (a b : loc) (l2 l3 : list loc) :
  Permutation (a :: l2 ++ b :: l3) (b :: l2 ++ a :: l3).
Proof.
  eapply Permutation_trans;
    [apply perm_skip, Permutation_sym, Permutation_middle|].
  eapply Permutation_trans; [apply perm_swap|].
  apply perm_skip, Permutation_middle.
Qed.

(** Exchanging the entries at two positions gives a permutation. *)
Lemma put_put_perm (sn : list loc) (i j : nat) (a b : loc) :
  nth_error sn i = Some a -> nth_error sn j = Some b ->
  Permutation sn (put (put sn i b) j a).
Proof.
  assert (Hlt : forall (s : list loc) i j a b, (i < j)%nat ->
            nth_error s i = Some a -> nth_error s j = Some b ->
            exists l1 l2 l3, s = l1 ++ a :: l2 ++ b :: l3
              /\ length l1 = i /\ (length l1 + S (length l2))%nat = j).
  { intros s i0 j0 a0 b0 Hij Ha Hb.
    destruct (nth_error_split _ _ Ha) as (l1 & r & -> & Hl1).
    rewrite nth_error_app2 in Hb by lia.
    replace (j0 - length l1)%nat with (S (j0 - length l1 - 1)) in Hb by lia.
    cbn [nth_error] in Hb.
    destruct (nth_error_split _ _ Hb) as (l2 & l3 & -> & Hl2).
    exists l1, l2, l3. repeat split; [assumption | lia]. }
  intros Ha Hb.
  destruct (Nat.lt_trichotomy i j) as [Hij|[->|Hij]].
  - destruct (Hlt sn i j a b Hij Ha Hb) as (l1 & l2 & l3 & -> & <- & <-).
    rewrite put_split, put_app_r. cbn [put]. rewrite put_split.
    apply Permutation_app_head, perm_exchange.
  - assert (a = b) by congruence. subst b.
    destruct (nth_error_split _ _ Ha) as (l1 & r & -> & <-).
    rewrite !put_split. apply Permutation_refl.
  - destruct (Hlt sn j i b a Hij Hb Ha) as (l1 & l2 & l3 & -> & <- & <-).
    rewrite put_app_r. cbn [put]. rewrite put_split, put_split.
    apply Permutation_app_head, perm_exchange.
Qed.

Lemma index_nth (sn : list loc) (i : Z) (a : loc) :
  index sn i = Some a <-> 0 <= i /\ nth_error sn (Z.to_nat i) = Some a.
Proof.
  unfold index. destruct (Z.ltb_spec i 0).
  - split; [discriminate | lia].
  - split; [now split | tauto].
Qed.

Lemma sorted_positions (h : heap) (l : list loc) :
  StronglySorted (left_le h) l ->
  forall i j a b, (i < j)%nat ->
    nth_error l i = Some a -> nth_error l j = Some b -> Left h a <= Left h b.
Proof.
  induction 1 as [|x l Hs IH Hall]; intros i j a b Hij Ha Hb.
  - destruct i; discriminate.
  - destruct j as [|j]; [lia|]. cbn [nth_error] in Hb.
    destruct i as [|i]; cbn [nth_error] in Ha.
    + injection Ha as <-. rewrite Forall_forall in Hall.
      apply Hall. eapply nth_error_In, Hb.
    + apply (IH i j); [lia | assumption..].
Qed.

(** X21: [Less] compares the left bounds at two positions of the slice and
    panics out of range.  On the positions in range it is a strict weak
    order (irreflexive, transitive, with transitive incomparability), which
    is what [sort.Sort] asks of it; and in the slice that the sort leaves no
    later position is [Less] than an earlier one. *)
Theorem Less_strict_weak_order (h : heap) (sn : list loc) (i j k : Z) :
  (Less h sn i j = None <-> ~ (0 <= i < Len sn /\ 0 <= j < Len sn))
  /\ Less h sn i i <> Some true
  /\ (Less h sn i j = Some true -> Less h sn j k = Some true ->
      Less h sn i k = Some true)
  /\ (Less h sn i j = Some false -> Less h sn j k = Some false ->
      Less h sn i k = Some false)
  /\ (0 <= i -> i < j -> j < Len sn ->
      Less h (sort_nodes h sn) j i = Some false).
Proof.
  refine (conj _ (conj _ (conj _ (conj _ _)))).
  - unfold Less. destruct (index sn i) as [a|] eqn:Hi.
    + destruct (index sn j) as [b|] eqn:Hj.
      * split; [discriminate|]. intros H. exfalso. apply H.
        split; apply index_Some; eauto.
      * split; [|reflexivity]. intros _ [_ H]. now apply index_None in Hj.
    + split; [|reflexivity]. intros _ [H _]. now apply index_None in Hi.
  - unfold Less. destruct (index sn i) as [a|]; [|discriminate].
    rewrite Z.ltb_irrefl. discriminate.
  - unfold Less.
    destruct (index sn i) as [a|]; [|discriminate].
    destruct (index sn j) as [b|]; [|discriminate].
    destruct (index sn k) as [c|]; [|discriminate].
    intros [= H1] [= H2]. f_equal. apply Z.ltb_lt in H1, H2. apply Z.ltb_lt. lia.
  - unfold Less.
    destruct (index sn i) as [a|]; [|discriminate].
    destruct (index sn j) as [b|]; [|discriminate].
    destruct (index sn k) as [c|]; [|discriminate].
    intros [= H1] [= H2]. f_equal. apply Z.ltb_ge in H1, H2. apply Z.ltb_ge. lia.
  - intros Hi Hij Hj.
    assert (Hlen : Len (sort_nodes h sn) = Len sn).
    { unfold Len. f_equal. symmetry.
      apply Permutation_length, sort_nodes_perm. }
    destruct (proj2 (index_Some (sort_nodes h sn) i)) as (a & Ha); [lia|].
    destruct (proj2 (index_Some (sort_nodes h sn) j)) as (b & Hb); [lia|].
    unfold Less. rewrite Ha, Hb. f_equal. apply Z.ltb_ge.
    apply index_nth in Ha, Hb. destruct Ha as [_ Ha], Hb as [_ Hb].
    apply (sorted_positions h (sort_nodes h sn)) with (i := Z.to_nat i)
      (j := Z.to_nat j); try assumption; [|lia].
    apply Sorted_StronglySorted; [apply left_le_trans | apply sort_nodes_sorted].
Qed.

Lemma index_put2 (sn : list loc) (I J : nat) (a b : loc) (k : Z) :
  (I < length sn)%nat -> (J < length sn)%nat -> 0 <= k ->
  index (put (put sn I b) J a) k
  = if Nat.eqb (Z.to_nat k) J then Some a
    else if Nat.eqb (Z.to_nat k) I then Some b else index sn k.
Proof.
  intros HI HJ Hk. unfold index.
  destruct (Z.ltb_spec k 0); [lia|].
  rewrite nth_error_put by (rewrite length_put; lia).
  now rewrite nth_error_put by lia.
Qed.

(** X22: [Swap(i, j)] panics out of range; in range it exchanges the
    handles at the two positions and changes no other position, so the
    slice it leaves is a permutation of the same length, and a second
    [Swap(i, j)] restores the slice. *)
Theorem Swap_exchanges (sn : list loc) (i j : Z) :
  match Swap sn i j with
  | None => ~ (0 <= i < Len sn /\ 0 <= j < Len sn)
  | Some sn' =>
      0 <= i < Len sn /\ 0 <= j < Len sn
      /\ Permutation sn sn' /\ Len sn' = Len sn
      /\ index sn' i = index sn j /\ index sn' j = index sn i
      /\ (forall k, k <> i -> k <> j -> index sn' k = index sn k)
      /\ Swap sn' i j = Some sn
  end.
Proof.
  unfold Swap.
  destruct (index sn i) as [a|] eqn:Hi.
  2:{ intros [H _]. now apply index_None in Hi. }
  destruct (index sn j) as [b|] eqn:Hj.
  2:{ intros [_ H]. now apply index_None in Hj. }
  assert (Hi' : 0 <= i < Len sn) by (apply index_Some; eauto).
  assert (Hj' : 0 <= j < Len sn) by (apply index_Some; eauto).
  pose proof Hi as Hia. pose proof Hj as Hjb.
  apply index_nth in Hia, Hjb. destruct Hia as [_ Hia], Hjb as [_ Hjb].
  assert (HI : (Z.to_nat i < length sn)%nat) by (unfold Len in *; lia).
  assert (HJ : (Z.to_nat j < length sn)%nat) by (unfold Len in *; lia).
  set (sn' := put (put sn (Z.to_nat i) b) (Z.to_nat j) a).
  assert (Hat : forall k, 0 <= k ->
            index sn' k = if Nat.eqb (Z.to_nat k) (Z.to_nat j) then Some a
                          else if Nat.eqb (Z.to_nat k) (Z.to_nat i) then Some b
                          else index sn k)
    by (intros k Hk; now apply index_put2).
  assert (Hsi : index sn' i = Some b).
  { rewrite Hat by lia. rewrite Nat.eqb_refl.
    destruct (Nat.eqb_spec (Z.to_nat i) (Z.to_nat j)) as [He|]; [|reflexivity].
    assert (i = j) by lia. subst j. congruence. }
  assert (Hsj : index sn' j = Some a) by (rewrite Hat by lia; now rewrite Nat.eqb_refl).
  refine (conj Hi' (conj Hj' (conj _ (conj _ (conj _ (conj _ (conj _ _))))))).
  - now apply put_put_perm.
  - unfold Len, sn'. now rewrite !length_put.
  - congruence.
  - congruence.
  - intros k Hki Hkj. destruct (Z.ltb_spec k 0) as [Hk|Hk].
    + unfold index. now rewrite (proj2 (Z.ltb_lt k 0) Hk).
    + rewrite Hat by assumption.
      destruct (Nat.eqb_spec (Z.to_nat k) (Z.to_nat j)); [lia|].
      destruct (Nat.eqb_spec (Z.to_nat k) (Z.to_nat i)); [lia|]. reflexivity.
  - rewrite Hsi, Hsj. f_equal. apply nth_error_ext. intros n.
    assert (Hlen : length sn' = length sn) by (unfold sn'; now rewrite !length_put).
    rewrite nth_error_put by (rewrite length_put; lia).
    rewrite nth_error_put by lia.
    unfold sn'. rewrite nth_error_put by (rewrite length_put; lia).
    rewrite nth_error_put by lia.
    destruct (Nat.eqb_spec n (Z.to_nat j)) as [->|]; [now rewrite Hjb|].
    destruct (Nat.eqb_spec n (Z.to_nat i)) as [->|]; [now rewrite Hia|].
    reflexivity.
Qed.
